(** * The HILIGHTING BLE light link: a shallow embedding of
      [custom_components/hilighting_ble/hilightingble.py]

    The module drives one Bluetooth LE light: six commands are turned
    into fixed packets, written through a lazily (re)established
    connection, under a retry decorator and an idle-disconnect timer.

    Layout of the development:
    - binary64 arithmetic as Python performs it ([int * float], [int(..)]);
    - the instance record, the events exchanged with the outside and the
      transport as a history-indexed oracle;
    - a state/exception/trace monad and the methods of the class in it;
    - an interleaving semantics of coroutines calling [_ensure_connected];
    - the properties. *)

From Stdlib Require Import ZArith QArith Lia.
From Stdlib Require Import Floats.SpecFloat DecimalString Sorted.
From stdpp Require Import base option list gmap strings.

Local Open Scope string_scope.
Local Open Scope list_scope.
Local Open Scope Z_scope.

(** ** Python numbers *)

Module PyFloat.

(** Python's [float] is IEEE-754 binary64: 53 bits of precision,
    infinities at exponent 1024. *)
Definition prec : Z := 53.
Definition emax : Z := 1024.

Definition float := spec_float.

(** The literal [2.55] (bits 0x4004666666666666) and the literal
    [0.06] (bits 0x3FAEB851EB851EB8), as the parser rounds them. *)
Definition lit_2_55 : float := S754_finite false 5742089524897382 (-51).
Definition lit_0_06 : float := S754_finite false 8646911284551352 (-57).

(** [float(n)] for an [int]: correctly rounded (ties to even).  An
    [int] beyond the range of a double makes the conversion fail with
    [OverflowError]: [None] here. *)
Definition of_int (n : Z) : option float :=
  match binary_normalize prec emax n 0 false with
  | S754_infinity _ | S754_nan => None
  | x => Some x
  end.

Definition mul (x y : float) : float := SFmul prec emax x y.

(** [int(x)]: truncation toward zero; [None] on an infinity
    ([OverflowError]) or a NaN ([ValueError]). *)
Definition to_int (x : float) : option Z :=
  match x with
  | S754_zero _ => Some 0
  | S754_finite s m e =>
      let a := Z.shiftl (Z.pos m) e in
      Some (if s then - a else a)
  | S754_infinity _ | S754_nan => None
  end.

(** [int(n * c)] for an [int] n and a float constant c. *)
Definition int_of_scaled (n : Z) (c : float) : option Z :=
  match of_int n with
  | Some x => to_int (mul x c)
  | None => None
  end.

End PyFloat.

(** ** Module constants *)

(** [f"Effect {i}"] *)
Definition effect_name (i : nat) : string :=
  "Effect " +:+ NilZero.string_of_uint (Nat.to_uint i).

(** [EFFECT_MAP = {f"Effect {i}": i for i in range(10)}] *)
Definition EFFECT_MAP : gmap string Z :=
  list_to_map (map (fun i : nat => (effect_name i, Z.of_nat i)) (seq 0 10)).

(** [EFFECT_LIST = sorted(EFFECT_MAP)]: the ten names share their first
    seven characters and differ in one digit, so the sorted list is the
    list in order of the digit. *)
Definition EFFECT_LIST : list string := map effect_name (seq 0 10).

(** [EFFECT_ID_TO_NAME = {v: k for k, v in EFFECT_MAP.items()}] *)
Definition EFFECT_ID_TO_NAME : gmap Z string :=
  list_to_map (map (fun kv : string * Z => (kv.2, kv.1)) (map_to_list EFFECT_MAP)).

Definition WRITE_CHARACTERISTIC_UUID : string := "6e400002-b5a3-f393-e0a9-e50e24dcca9e".
Definition FIRMWARE_REVISION_UUID : string := "00002a26-0000-1000-8000-00805f9b34fb".
Definition SW_NUMBER_UUID : string := "00002a28-0000-1000-8000-00805f9b34fb".
Definition MANUFACTURER_NAME_UUID : string := "00002a29-0000-1000-8000-00805f9b34fb".
Definition DEFAULT_ATTEMPTS : Z := 3.
(** [BLEAK_BACKOFF_TIME = 0.25], in seconds. *)
Definition BLEAK_BACKOFF_TIME : Q := 1 # 4.

(** [EFFECT_OFF] and [ColorMode] come from [homeassistant.components.light]. *)
Definition EFFECT_OFF : string := "off".

Inductive ColorMode : Set :=
| UNKNOWN | ONOFF | BRIGHTNESS | COLOR_TEMP | HS | XY | RGB | RGBW | RGBWW | WHITE.

(** ** Exceptions

    The decorator tells exceptions apart by three [except] clauses, tried
    in this order: [BleakNotFoundError], [RETRY_BACKOFF_EXCEPTIONS]
    (that is [BleakDBusError]) and [BLEAK_RETRY_EXCEPTIONS].  The tuple
    [BLEAK_RETRY_EXCEPTIONS] belongs to [bleak_retry_connector]; an
    exception is classified by the first clause that takes it. *)
Inductive exn_class : Set :=
| BleakNotFoundError      (* first clause *)
| BleakDBusError          (* second clause *)
| BleakRetryException     (* third clause: any other member of the tuple *)
| Uncaught.               (* no clause: ValueError, OverflowError, ... *)

Record exn : Set := Exn { exn_class_of : exn_class; exn_text : string }.

Definition ValueError (msg : string) : exn := Exn Uncaught msg.
Definition OverflowError (msg : string) : exn := Exn Uncaught msg.

(** The outcome of a call: a value, or a raised exception. *)
Inductive res (A : Type) : Type :=
| Ok (a : A)
| Raise (e : exn).
Arguments Ok {A} a.
Arguments Raise {A} e.

(** The exceptions of the two retrying clauses. *)
Definition transient (e : exn) : bool :=
  match exn_class_of e with
  | BleakDBusError | BleakRetryException => true
  | BleakNotFoundError | Uncaught => false
  end.

(** ** Handles of the transport *)

Definition client := nat.           (* a BleakClientWithServiceCache *)
Definition characteristic := nat.   (* a BleakGATTCharacteristic *)
Definition timer := nat.            (* an asyncio.TimerHandle *)

(** A [BleakGATTServiceCollection], seen through [get_characteristic]. *)
Definition services := string -> option characteristic.

(** [bytearray([...])] of a list of [int]: [ValueError] unless every
    element is in [range(256)]. *)
Definition bytearray (l : list Z) : res (list Z) :=
  if forallb (fun x => (0 <=? x) && (x <? 256)) l then Ok l
  else Raise (ValueError "byte must be in range(0, 256)").

(** [bytearray.fromhex("55 01 02 01")] and [bytearray.fromhex("55 01 02 00")] *)
Definition turn_on_cmd : list Z := [0x55; 0x01; 0x02; 0x01].
Definition turn_off_cmd : list Z := [0x55; 0x01; 0x02; 0x00].

(** ** The instance *)

(** The fields the methods below read or write.  ([_hass], [_service_info],
    [_data], [_options], [_device], [loop] and the three strings read from
    [data] are set by [__init__] and never touched again; the lock is
    part of the interleaving semantics further down.) *)
Record HILIGHTINGInstance : Type := {
  _name : string;
  _mac : string;
  _delay : Z;
  _client : option client;
  _cached_services : option services;
  _expected_disconnect : bool;
  _disconnect_timer : option timer;
  _is_on : bool;
  _rgb_color : Z * Z * Z;
  _brightness : Z;
  _effect : string;
  _color_mode : ColorMode;
  _write_uuid : option characteristic;
  _manufacturer_name_char : option characteristic;
  _firmware_revision_char : option characteristic;
  _model_number_char : option characteristic;
  _turn_on_cmd : list Z;
  _turn_off_cmd : list Z
}.

(** Attribute assignment [self.f = v], one function per assigned field. *)
Definition upd_client (v : option client) (self : HILIGHTINGInstance) : HILIGHTINGInstance :=
  {| _name := _name self; _mac := _mac self; _delay := _delay self; _client := v;
     _cached_services := _cached_services self; _expected_disconnect := _expected_disconnect
     self; _disconnect_timer := _disconnect_timer self; _is_on := _is_on self; _rgb_color :=
     _rgb_color self; _brightness := _brightness self; _effect := _effect self; _color_mode :=
     _color_mode self; _write_uuid := _write_uuid self; _manufacturer_name_char :=
     _manufacturer_name_char self; _firmware_revision_char := _firmware_revision_char self;
     _model_number_char := _model_number_char self; _turn_on_cmd := _turn_on_cmd self;
     _turn_off_cmd := _turn_off_cmd self |}.

Definition upd_cached_services (v : option services) (self : HILIGHTINGInstance) : HILIGHTINGInstance :=
  {| _name := _name self; _mac := _mac self; _delay := _delay self; _client := _client self;
     _cached_services := v; _expected_disconnect := _expected_disconnect self; _disconnect_timer
     := _disconnect_timer self; _is_on := _is_on self; _rgb_color := _rgb_color self;
     _brightness := _brightness self; _effect := _effect self; _color_mode := _color_mode self;
     _write_uuid := _write_uuid self; _manufacturer_name_char := _manufacturer_name_char self;
     _firmware_revision_char := _firmware_revision_char self; _model_number_char :=
     _model_number_char self; _turn_on_cmd := _turn_on_cmd self; _turn_off_cmd := _turn_off_cmd
     self |}.

Definition upd_expected_disconnect (v : bool) (self : HILIGHTINGInstance) : HILIGHTINGInstance :=
  {| _name := _name self; _mac := _mac self; _delay := _delay self; _client := _client self;
     _cached_services := _cached_services self; _expected_disconnect := v; _disconnect_timer :=
     _disconnect_timer self; _is_on := _is_on self; _rgb_color := _rgb_color self; _brightness
     := _brightness self; _effect := _effect self; _color_mode := _color_mode self; _write_uuid
     := _write_uuid self; _manufacturer_name_char := _manufacturer_name_char self;
     _firmware_revision_char := _firmware_revision_char self; _model_number_char :=
     _model_number_char self; _turn_on_cmd := _turn_on_cmd self; _turn_off_cmd := _turn_off_cmd
     self |}.

Definition upd_disconnect_timer (v : option timer) (self : HILIGHTINGInstance) : HILIGHTINGInstance :=
  {| _name := _name self; _mac := _mac self; _delay := _delay self; _client := _client self;
     _cached_services := _cached_services self; _expected_disconnect := _expected_disconnect
     self; _disconnect_timer := v; _is_on := _is_on self; _rgb_color := _rgb_color self;
     _brightness := _brightness self; _effect := _effect self; _color_mode := _color_mode self;
     _write_uuid := _write_uuid self; _manufacturer_name_char := _manufacturer_name_char self;
     _firmware_revision_char := _firmware_revision_char self; _model_number_char :=
     _model_number_char self; _turn_on_cmd := _turn_on_cmd self; _turn_off_cmd := _turn_off_cmd
     self |}.

Definition upd_is_on (v : bool) (self : HILIGHTINGInstance) : HILIGHTINGInstance :=
  {| _name := _name self; _mac := _mac self; _delay := _delay self; _client := _client self;
     _cached_services := _cached_services self; _expected_disconnect := _expected_disconnect
     self; _disconnect_timer := _disconnect_timer self; _is_on := v; _rgb_color := _rgb_color
     self; _brightness := _brightness self; _effect := _effect self; _color_mode := _color_mode
     self; _write_uuid := _write_uuid self; _manufacturer_name_char := _manufacturer_name_char
     self; _firmware_revision_char := _firmware_revision_char self; _model_number_char :=
     _model_number_char self; _turn_on_cmd := _turn_on_cmd self; _turn_off_cmd := _turn_off_cmd
     self |}.

Definition upd_rgb_color (v : Z * Z * Z) (self : HILIGHTINGInstance) : HILIGHTINGInstance :=
  {| _name := _name self; _mac := _mac self; _delay := _delay self; _client := _client self;
     _cached_services := _cached_services self; _expected_disconnect := _expected_disconnect
     self; _disconnect_timer := _disconnect_timer self; _is_on := _is_on self; _rgb_color := v;
     _brightness := _brightness self; _effect := _effect self; _color_mode := _color_mode self;
     _write_uuid := _write_uuid self; _manufacturer_name_char := _manufacturer_name_char self;
     _firmware_revision_char := _firmware_revision_char self; _model_number_char :=
     _model_number_char self; _turn_on_cmd := _turn_on_cmd self; _turn_off_cmd := _turn_off_cmd
     self |}.

Definition upd_brightness (v : Z) (self : HILIGHTINGInstance) : HILIGHTINGInstance :=
  {| _name := _name self; _mac := _mac self; _delay := _delay self; _client := _client self;
     _cached_services := _cached_services self; _expected_disconnect := _expected_disconnect
     self; _disconnect_timer := _disconnect_timer self; _is_on := _is_on self; _rgb_color :=
     _rgb_color self; _brightness := v; _effect := _effect self; _color_mode := _color_mode
     self; _write_uuid := _write_uuid self; _manufacturer_name_char := _manufacturer_name_char
     self; _firmware_revision_char := _firmware_revision_char self; _model_number_char :=
     _model_number_char self; _turn_on_cmd := _turn_on_cmd self; _turn_off_cmd := _turn_off_cmd
     self |}.

Definition upd_effect (v : string) (self : HILIGHTINGInstance) : HILIGHTINGInstance :=
  {| _name := _name self; _mac := _mac self; _delay := _delay self; _client := _client self;
     _cached_services := _cached_services self; _expected_disconnect := _expected_disconnect
     self; _disconnect_timer := _disconnect_timer self; _is_on := _is_on self; _rgb_color :=
     _rgb_color self; _brightness := _brightness self; _effect := v; _color_mode := _color_mode
     self; _write_uuid := _write_uuid self; _manufacturer_name_char := _manufacturer_name_char
     self; _firmware_revision_char := _firmware_revision_char self; _model_number_char :=
     _model_number_char self; _turn_on_cmd := _turn_on_cmd self; _turn_off_cmd := _turn_off_cmd
     self |}.

Definition upd_write_uuid (v : option characteristic) (self : HILIGHTINGInstance) : HILIGHTINGInstance :=
  {| _name := _name self; _mac := _mac self; _delay := _delay self; _client := _client self;
     _cached_services := _cached_services self; _expected_disconnect := _expected_disconnect
     self; _disconnect_timer := _disconnect_timer self; _is_on := _is_on self; _rgb_color :=
     _rgb_color self; _brightness := _brightness self; _effect := _effect self; _color_mode :=
     _color_mode self; _write_uuid := v; _manufacturer_name_char := _manufacturer_name_char
     self; _firmware_revision_char := _firmware_revision_char self; _model_number_char :=
     _model_number_char self; _turn_on_cmd := _turn_on_cmd self; _turn_off_cmd := _turn_off_cmd
     self |}.

Definition upd_manufacturer_name_char (v : option characteristic) (self : HILIGHTINGInstance) : HILIGHTINGInstance :=
  {| _name := _name self; _mac := _mac self; _delay := _delay self; _client := _client self;
     _cached_services := _cached_services self; _expected_disconnect := _expected_disconnect
     self; _disconnect_timer := _disconnect_timer self; _is_on := _is_on self; _rgb_color :=
     _rgb_color self; _brightness := _brightness self; _effect := _effect self; _color_mode :=
     _color_mode self; _write_uuid := _write_uuid self; _manufacturer_name_char := v;
     _firmware_revision_char := _firmware_revision_char self; _model_number_char :=
     _model_number_char self; _turn_on_cmd := _turn_on_cmd self; _turn_off_cmd := _turn_off_cmd
     self |}.

Definition upd_firmware_revision_char (v : option characteristic) (self : HILIGHTINGInstance) : HILIGHTINGInstance :=
  {| _name := _name self; _mac := _mac self; _delay := _delay self; _client := _client self;
     _cached_services := _cached_services self; _expected_disconnect := _expected_disconnect
     self; _disconnect_timer := _disconnect_timer self; _is_on := _is_on self; _rgb_color :=
     _rgb_color self; _brightness := _brightness self; _effect := _effect self; _color_mode :=
     _color_mode self; _write_uuid := _write_uuid self; _manufacturer_name_char :=
     _manufacturer_name_char self; _firmware_revision_char := v; _model_number_char :=
     _model_number_char self; _turn_on_cmd := _turn_on_cmd self; _turn_off_cmd := _turn_off_cmd
     self |}.

Definition upd_model_number_char (v : option characteristic) (self : HILIGHTINGInstance) : HILIGHTINGInstance :=
  {| _name := _name self; _mac := _mac self; _delay := _delay self; _client := _client self;
     _cached_services := _cached_services self; _expected_disconnect := _expected_disconnect
     self; _disconnect_timer := _disconnect_timer self; _is_on := _is_on self; _rgb_color :=
     _rgb_color self; _brightness := _brightness self; _effect := _effect self; _color_mode :=
     _color_mode self; _write_uuid := _write_uuid self; _manufacturer_name_char :=
     _manufacturer_name_char self; _firmware_revision_char := _firmware_revision_char self;
     _model_number_char := v; _turn_on_cmd := _turn_on_cmd self; _turn_off_cmd := _turn_off_cmd
     self |}.

(** [__init__], after the device was found: the state of a fresh instance. *)
Definition init (name mac : string) (delay : Z) : HILIGHTINGInstance :=
  {| _name := name; _mac := mac; _delay := delay;
     _client := None; _cached_services := None;
     _expected_disconnect := false; _disconnect_timer := None;
     _is_on := false; _rgb_color := (255, 255, 255); _brightness := 255;
     _effect := EFFECT_OFF; _color_mode := RGB;
     _write_uuid := None; _manufacturer_name_char := None;
     _firmware_revision_char := None; _model_number_char := None;
     _turn_on_cmd := turn_on_cmd; _turn_off_cmd := turn_off_cmd |}.

(** The reported device state: what the properties [is_on], [rgb_color],
    [brightness], [effect] and [color_mode] return. *)
Definition reported (self : HILIGHTINGInstance)
  : bool * (Z * Z * Z) * Z * string * ColorMode :=
  (_is_on self, _rgb_color self, _brightness self, _effect self, _color_mode self).

(** ** Events *)

Inductive log_level : Set := DEBUG | WARNING | ERROR.

(** One constructor per [LOGGER] call of the module, with its arguments. *)
Inductive log_record : Set :=
| MaxRetriesReached (name func : string) (err : exn)
| RetryDueTo (name : string) (attempt total : Z) (func : string) (err : exn)
| BleErrorRetry (name : string) (attempt total : Z) (func : string) (err : exn)
| UnsupportedEffect (effect : string)
| Connecting (name : string)
| InitialResolveFailed
| DisconnectedExpected (name : string)
| UnexpectedDisconnect (name : string)
| Disconnected (name : string).

(** What the instance does to the outside, with the outcome it got. *)
Inductive event : Type :=
| EvLog (level : log_level) (record : log_record)
| EvSleep (seconds : Q)
| EvEstablish (r : res client)
| EvGetServices (c : client) (r : res unit)
| EvWrite (c : client) (char : option characteristic) (data : list Z) (r : res unit)
| EvDisconnect (c : client) (r : res unit)
| EvTimerCancel (t : timer)
| EvCallLater (t : timer) (delay : Z).

(** ** The transport

    The collaborators ([establish_connection], the client, the event
    loop) are an oracle: what each call answers is a function of the
    events so far, so that a transport may fail twice and then work. *)
Record transport : Type := {
  t_establish : list event -> res client;
  t_is_connected : list event -> client -> bool;
  t_services : list event -> client -> services;
  t_get_services : list event -> client -> res unit;
  t_write : list event -> client -> option characteristic -> list Z -> res unit;
  t_disconnect : list event -> client -> res unit;
  t_call_later : list event -> timer
}.

(** ** The monad: instance state, exceptions, and the events emitted

    A computation reads the instance and the events so far and yields an
    outcome, the instance as it leaves it (also when it raises: Python
    does not roll assignments back) and the events it added. *)
Definition M (A : Type) : Type :=
  HILIGHTINGInstance -> list event -> res A * HILIGHTINGInstance * list event.

Definition ret {A} (a : A) : M A := fun self _ => (Ok a, self, []).

Definition raise {A} (e : exn) : M A := fun self _ => (Raise e, self, []).

Definition bind {A B} (m : M A) (k : A -> M B) : M B :=
  fun self h =>
    match m self h with
    | (Ok a, self1, e1) =>
        match k a self1 (h ++ e1) with
        | (r, self2, e2) => (r, self2, e1 ++ e2)
        end
    | (Raise e, self1, e1) => (Raise e, self1, e1)
    end.

(** [try: m except Exception as err: handler err] *)
Definition catch {A} (m : M A) (handler : exn -> M A) : M A :=
  fun self h =>
    match m self h with
    | (Ok a, self1, e1) => (Ok a, self1, e1)
    | (Raise e, self1, e1) =>
        match handler e self1 (h ++ e1) with
        | (r, self2, e2) => (r, self2, e1 ++ e2)
        end
    end.

Declare Scope py_scope.
Delimit Scope py_scope with py.
Notation "x <- m ;; k" := (bind m (fun x => k))
  (at level 100, m at next level, right associativity) : py_scope.
Notation "m ;; k" := (bind m (fun _ => k))
  (at level 100, right associativity) : py_scope.
Local Open Scope py_scope.

Definition get {A} (field : HILIGHTINGInstance -> A) : M A :=
  fun self _ => (Ok (field self), self, []).

Definition assign (setter : HILIGHTINGInstance -> HILIGHTINGInstance) : M unit :=
  fun self _ => (Ok tt, setter self, []).

Definition emit (ev : event) : M unit := fun self _ => (Ok tt, self, [ev]).

Definition lift {A} (r : res A) : M A := fun self _ => (r, self, []).

Definition LOGGER (level : log_level) (record : log_record) : M unit :=
  emit (EvLog level record).

Section Methods.

Variable T : transport.

(** *** Calls into the transport *)

Definition asyncio_sleep (seconds : Q) : M unit := emit (EvSleep seconds).

Definition establish_connection : M client :=
  fun self h => let r := t_establish T h in (r, self, [EvEstablish r]).

Definition is_connected (c : client) : M bool :=
  fun self h => (Ok (t_is_connected T h c), self, []).

Definition client_services (c : client) : M services :=
  fun self h => (Ok (t_services T h c), self, []).

Definition get_services (c : client) : M unit :=
  fun self h => let r := t_get_services T h c in (r, self, [EvGetServices c r]).

Definition write_gatt_char (c : client) (char : option characteristic)
    (data : list Z) : M unit :=
  fun self h => let r := t_write T h c char data in (r, self, [EvWrite c char data r]).

Definition client_disconnect (c : client) : M unit :=
  fun self h => let r := t_disconnect T h c in (r, self, [EvDisconnect c r]).

Definition call_later (delay : Z) : M timer :=
  fun self h => let t := t_call_later T h in (Ok t, self, [EvCallLater t delay]).

(** *** Private methods *)

(** [self._client and self._client.is_connected] *)
Definition client_and_connected : M bool :=
  c <- get _client ;;
  match c with
  | Some c => is_connected c
  | None => ret false
  end.

Definition _reset_disconnect_timer : M unit :=
  t <- get _disconnect_timer ;;
  match t with
  | Some t => emit (EvTimerCancel t)
  | None => ret tt
  end ;;
  assign (upd_expected_disconnect false) ;;
  delay <- get _delay ;;
  if delay =? 0 then ret tt
  else (t <- call_later delay ;; assign (upd_disconnect_timer (Some t))).

Definition _resolve_characteristics (svc : services) : M bool :=
  assign (upd_write_uuid (svc WRITE_CHARACTERISTIC_UUID)) ;;
  assign (upd_manufacturer_name_char (svc MANUFACTURER_NAME_UUID)) ;;
  assign (upd_firmware_revision_char (svc FIRMWARE_REVISION_UUID)) ;;
  assign (upd_model_number_char (svc SW_NUMBER_UUID)) ;;
  w <- get _write_uuid ;;
  m <- get _manufacturer_name_char ;;
  f <- get _firmware_revision_char ;;
  n <- get _model_number_char ;;
  ret (forallb (fun x : option characteristic => bool_decide (is_Some x)) [w; m; f; n]).

(** The body under [async with self._connect_lock]. *)
Definition connect_locked : M unit :=
  connected <- client_and_connected ;;
  if connected then _reset_disconnect_timer
  else
    name <- get _name ;;
    LOGGER DEBUG (Connecting name) ;;
    client <- establish_connection ;;
    svc <- client_services client ;;
    resolved <- _resolve_characteristics svc ;;
    (if resolved then ret tt
     else
       LOGGER DEBUG InitialResolveFailed ;;
       get_services client ;;
       svc <- client_services client ;;
       _resolve_characteristics svc ;;
       ret tt) ;;
    assign (upd_client (Some client)) ;;
    svc <- client_services client ;;
    assign (upd_cached_services (Some svc)) ;;
    _reset_disconnect_timer.

(** Run alone, a coroutine finds the lock free and takes it at once. *)
Definition _ensure_connected : M unit :=
  connected <- client_and_connected ;;
  if connected then _reset_disconnect_timer
  else connect_locked.

Definition _write (data : list Z) : M unit :=
  _ensure_connected ;;
  c <- get _client ;;
  match c with
  | Some c =>
      char <- get _write_uuid ;;
      write_gatt_char c char data
  | None =>
      (* unreachable, see [_ensure_connected_client]; Python would raise
         AttributeError on [None.write_gatt_char] *)
      raise (Exn BleakRetryException "AttributeError")
  end.

Definition _disconnected : M unit :=
  expected <- get _expected_disconnect ;;
  name <- get _name ;;
  if expected then LOGGER DEBUG (DisconnectedExpected name)
  else LOGGER WARNING (UnexpectedDisconnect name).

Definition _execute_disconnect : M unit :=
  connected <- client_and_connected ;;
  (if connected then
     assign (upd_expected_disconnect true) ;;
     c <- get _client ;;
     match c with
     | Some c => client_disconnect c
     | None => ret tt
     end ;;
     name <- get _name ;;
     LOGGER DEBUG (Disconnected name)
   else ret tt) ;;
  assign (upd_client None) ;;
  assign (upd_write_uuid None).

(** [_disconnect]: the timer fired; the handle is dropped and the task
    created, which run alone is [_execute_disconnect]. *)
Definition _disconnect : M unit :=
  assign (upd_disconnect_timer None) ;;
  _execute_disconnect.

(** *** The decorator *)

(** The [for attempt in range(DEFAULT_ATTEMPTS)] loop of [_async_wrap],
    over the attempts still to make.  [inl v] is [return v]; [inr tt]
    is the end of an iteration.  A loop that ends without [return]
    makes the wrapper return [None]. *)
Fixpoint attempt_loop {A} (func_name : string) (func : M A) (attempts : list Z)
  : M (option A) :=
  match attempts with
  | [] => ret None
  | attempt :: rest =>
      step <- catch (v <- func ;; ret (inl (Some v)))
        (fun err =>
           name <- get _name ;;
           match exn_class_of err with
           | BleakNotFoundError => raise err
           | BleakDBusError =>
               if attempt =? DEFAULT_ATTEMPTS - 1 then
                 LOGGER ERROR (MaxRetriesReached name func_name err) ;;
                 raise err
               else
                 LOGGER WARNING
                   (RetryDueTo name (attempt + 1) DEFAULT_ATTEMPTS func_name err) ;;
                 asyncio_sleep BLEAK_BACKOFF_TIME ;;
                 ret (inr tt)
           | BleakRetryException =>
               if attempt =? DEFAULT_ATTEMPTS - 1 then
                 LOGGER ERROR (MaxRetriesReached name func_name err) ;;
                 raise err
               else
                 LOGGER WARNING
                   (BleErrorRetry name (attempt + 1) DEFAULT_ATTEMPTS func_name err) ;;
                 asyncio_sleep BLEAK_BACKOFF_TIME ;;
                 ret (inr tt)
           | Uncaught => raise err
           end) ;;
      match step with
      | inl v => ret v
      | inr _ => attempt_loop func_name func rest
      end
  end.

(** [range(n)] *)
Definition range (n : Z) : list Z := map Z.of_nat (seq 0 (Z.to_nat n)).

Definition retry_bluetooth_connection_error {A} (func_name : string) (func : M A)
  : M (option A) :=
  attempt_loop func_name func (range DEFAULT_ATTEMPTS).

(** *** The commands, undecorated *)

Definition turn_on_body : M unit :=
  cmd <- get _turn_on_cmd ;;
  _write cmd ;;
  assign (upd_is_on true).

Definition turn_off_body : M unit :=
  cmd <- get _turn_off_cmd ;;
  _write cmd ;;
  assign (upd_is_on false).

Definition set_rgb_color_body (rgb : Z * Z * Z) : M unit :=
  assign (upd_rgb_color rgb) ;;
  packet <- lift (bytearray [0x55; 0x07; 0x01; rgb.1.1; rgb.1.2; rgb.2]) ;;
  _write packet ;;
  assign (upd_effect EFFECT_OFF).

(** [min(int(brightness * 0.06), 0x0f)]: the [int] is converted to a
    [float], multiplied, and the product truncated.  A product of a
    finite double by 0.06 is finite, so only the conversion can fail. *)
Definition brightness_byte (brightness : Z) : res Z :=
  match PyFloat.of_int brightness with
  | None => Raise (OverflowError "int too large to convert to float")
  | Some x =>
      match PyFloat.to_int (PyFloat.mul x PyFloat.lit_0_06) with
      | Some n => Ok (Z.min n 0x0f)
      | None => Raise (OverflowError "cannot convert float infinity to integer")
      end
  end.

Definition set_brightness_body (brightness : Z) : M unit :=
  assign (upd_brightness brightness) ;;
  b <- lift (brightness_byte brightness) ;;
  packet <- lift (bytearray [0x55; 0x03; 0x01; 0xff; b]) ;;
  _write packet.

Definition set_effect_body (effect : string) : M unit :=
  match EFFECT_MAP !! effect with
  | None => LOGGER ERROR (UnsupportedEffect effect)
  | Some effect_id =>
      packet <- lift (bytearray [0x55; 0x04; 0x01; effect_id]) ;;
      _write packet ;;
      assign (upd_effect effect)
  end.

(** [min(max(int(speed * 2.55), 0), 255)]: the conversion of a huge
    [int] fails, and so does [int] of a product that overflowed. *)
Definition speed_byte (speed : Z) : res Z :=
  match PyFloat.of_int speed with
  | None => Raise (OverflowError "int too large to convert to float")
  | Some x =>
      match PyFloat.to_int (PyFloat.mul x PyFloat.lit_2_55) with
      | Some n => Ok (Z.min (Z.max n 0) 255)
      | None => Raise (OverflowError "cannot convert float infinity to integer")
      end
  end.

Definition set_effect_speed_body (speed : Z) : M unit :=
  b <- lift (speed_byte speed) ;;
  packet <- lift (bytearray [0x55; 0x04; 0x04; b]) ;;
  _write packet.

(** *** The commands, as the class exposes them *)

Definition turn_on := retry_bluetooth_connection_error "turn_on" turn_on_body.
Definition turn_off := retry_bluetooth_connection_error "turn_off" turn_off_body.
Definition set_rgb_color (rgb : Z * Z * Z) :=
  retry_bluetooth_connection_error "set_rgb_color" (set_rgb_color_body rgb).
Definition set_brightness (brightness : Z) :=
  retry_bluetooth_connection_error "set_brightness" (set_brightness_body brightness).
Definition set_effect (effect : string) :=
  retry_bluetooth_connection_error "set_effect" (set_effect_body effect).
Definition set_effect_speed (speed : Z) :=
  retry_bluetooth_connection_error "set_effect_speed" (set_effect_speed_body speed).

End Methods.

(** The six commands as data, to quantify over them. *)
Inductive command : Type :=
| TurnOn
| TurnOff
| SetRgbColor (rgb : Z * Z * Z)
| SetBrightness (brightness : Z)
| SetEffect (effect : string)
| SetEffectSpeed (speed : Z).

(** [func.__name__] *)
Definition func_name (c : command) : string :=
  match c with
  | TurnOn => "turn_on"
  | TurnOff => "turn_off"
  | SetRgbColor _ => "set_rgb_color"
  | SetBrightness _ => "set_brightness"
  | SetEffect _ => "set_effect"
  | SetEffectSpeed _ => "set_effect_speed"
  end.

(** The function under the decorator. *)
Definition body (T : transport) (c : command) : M unit :=
  match c with
  | TurnOn => turn_on_body T
  | TurnOff => turn_off_body T
  | SetRgbColor rgb => set_rgb_color_body T rgb
  | SetBrightness b => set_brightness_body T b
  | SetEffect e => set_effect_body T e
  | SetEffectSpeed s => set_effect_speed_body T s
  end.

(** The command as a caller awaits it. *)
Definition invoke (T : transport) (c : command) : M (option unit) :=
  match c with
  | TurnOn => turn_on T
  | TurnOff => turn_off T
  | SetRgbColor rgb => set_rgb_color T rgb
  | SetBrightness b => set_brightness T b
  | SetEffect e => set_effect T e
  | SetEffectSpeed s => set_effect_speed T s
  end.

(** ** Observations on a run *)

Definition outcome {A} (x : res A * HILIGHTINGInstance * list event) : res A := x.1.1.
Definition state_after {A} (x : res A * HILIGHTINGInstance * list event)
  : HILIGHTINGInstance := x.1.2.
Definition emitted {A} (x : res A * HILIGHTINGInstance * list event) : list event := x.2.

(** The backoff sleeps among some events, in order. *)
Definition sleeps (evs : list event) : list Q :=
  omap (fun ev => match ev with EvSleep s => Some s | _ => None end) evs.

(** The characteristic writes among some events: the bytes and whether
    the transport took them. *)
Definition writes (evs : list event) : list (list Z * res unit) :=
  omap (fun ev => match ev with EvWrite _ _ data r => Some (data, r) | _ => None end) evs.

(** The calls of [establish_connection] among some events. *)
Definition establishes (evs : list event) : list (res client) :=
  omap (fun ev => match ev with EvEstablish r => Some r | _ => None end) evs.

(** The messages of the decorator among some events: one per attempt
    that ended in an exception of a retrying clause. *)
Definition retry_logs (evs : list event) : list log_record :=
  omap (fun ev =>
          match ev with
          | EvLog _ (MaxRetriesReached n f e) => Some (MaxRetriesReached n f e)
          | EvLog _ (RetryDueTo n a t f e) => Some (RetryDueTo n a t f e)
          | EvLog _ (BleErrorRetry n a t f e) => Some (BleErrorRetry n a t f e)
          | _ => None
          end) evs.

(** A computation is [quiet] when it never changes the reported state,
    never sleeps, never writes to the characteristic and logs nothing on
    behalf of the decorator: it only works on the link. *)
Definition quiet {A} (m : M A) : Prop :=
  forall self h,
    reported (state_after (m self h)) = reported self /\
    sleeps (emitted (m self h)) = [] /\
    writes (emitted (m self h)) = [] /\
    retry_logs (emitted (m self h)) = [].

(** A computation [leaves_client] when, returning normally, it leaves a
    client in [_client]. *)
Definition leaves_client {A} (m : M A) : Prop :=
  forall self h a,
    outcome (m self h) = Ok a -> is_Some (_client (state_after (m self h))).

(** What the decorator logs and does between a failed attempt and the
    next one. *)
Definition backoff (self : HILIGHTINGInstance) (func : string) (attempt : Z) (err : exn)
  : list event :=
  [EvLog WARNING
     (match exn_class_of err with
      | BleakDBusError => RetryDueTo (_name self) (attempt + 1) DEFAULT_ATTEMPTS func err
      | _ => BleErrorRetry (_name self) (attempt + 1) DEFAULT_ATTEMPTS func err
      end);
   EvSleep BLEAK_BACKOFF_TIME].

(** What it logs when the last attempt has failed. *)
Definition giving_up (self : HILIGHTINGInstance) (func : string) (err : exn) : list event :=
  [EvLog ERROR (MaxRetriesReached (_name self) func err)].

(** A computation is [calm] when it neither sleeps nor logs on behalf of
    the decorator. *)
Definition calm {A} (m : M A) : Prop :=
  forall self h,
    sleeps (emitted (m self h)) = [] /\ retry_logs (emitted (m self h)) = [].

(** [writes_only p m]: whatever [m] writes to the characteristic is the
    packet [p], and when [m] returns, its last action was a write of [p]
    that the transport took. *)
Definition writes_only (p : list Z) {A} (m : M A) : Prop :=
  forall self h,
    Forall (fun w => w.1 = p) (writes (emitted (m self h))) /\
    (forall a, outcome (m self h) = Ok a ->
               exists pre c char, emitted (m self h) = pre ++ [EvWrite c char p (Ok tt)]).

(** The formula of the specification for the speed byte,
    [clamp(round(s*2.55), 0, 255)] in exact arithmetic, [s*2.55] being
    [255*s/100] and a half rounding up, as in the specification's own
    [round(127.5) = 128]. *)
Definition spec_speed_byte (s : Z) : Z :=
  Z.min (Z.max ((2 * 255 * s + 100) / 200) 0) 255.

(** The formula of the specification for the brightness byte,
    [min(floor(b*0.06), 15)] in exact arithmetic, [b*0.06] being
    [6*b/100]. *)
Definition spec_brightness_byte (b : Z) : Z := Z.min (6 * b / 100) 15.

(** ** Transports and instances to run the model on *)

(** Was client [c] handed out by an [establish_connection] among [h]? *)
Definition established (c : client) (h : list event) : bool :=
  existsb (fun ev => match ev with EvEstablish (Ok c') => Nat.eqb c c' | _ => false end) h.

(** A light in range: every call succeeds, all four characteristics
    resolve, a session stays connected. *)
Definition T_ok : transport :=
  {| t_establish := fun _ => Ok 1%nat;
     t_is_connected := fun h c => established c h;
     t_services := fun _ _ _ => Some 7%nat;
     t_get_services := fun _ _ => Ok tt;
     t_write := fun _ _ _ _ => Ok tt;
     t_disconnect := fun _ _ => Ok tt;
     t_call_later := fun h => length h |}.

(** A light out of range: connecting fails on the bus, every time. *)
Definition T_down : transport :=
  {| t_establish := fun _ => Raise (Exn BleakDBusError "org.bluez.Error.Failed");
     t_is_connected := fun _ _ => false;
     t_services := fun _ _ _ => None;
     t_get_services := fun _ _ => Ok tt;
     t_write := fun _ _ _ _ => Ok tt;
     t_disconnect := fun _ _ => Ok tt;
     t_call_later := fun h => length h |}.

(** An address the platform does not know. *)
Definition T_unknown : transport :=
  {| t_establish := fun _ => Raise (Exn BleakNotFoundError "device not found");
     t_is_connected := fun _ _ => false;
     t_services := fun _ _ _ => None;
     t_get_services := fun _ _ => Ok tt;
     t_write := fun _ _ _ _ => Ok tt;
     t_disconnect := fun _ _ => Ok tt;
     t_call_later := fun h => length h |}.

(** A fresh instance with the default idle delay. *)
Definition lamp : HILIGHTINGInstance := init "HILIGHTING-4A:2F" "C0:00:00:01:4A:2F" 30.

(** The instance after one command on a light in range: connected, all
    four characteristics resolved. *)
Definition lamp_connected : HILIGHTINGInstance := state_after (turn_on T_ok lamp []).

(** ** Coroutines calling [_ensure_connected] at the same time

    asyncio runs one coroutine at a time and changes coroutine only at
    an [await] that suspends.  [_ensure_connected] can suspend at three
    places: entering [async with self._connect_lock] while the lock is
    held, in [await establish_connection(...)], and in
    [await client.get_services()].  A coroutine is therefore at one of
    the points of [pc], and a step runs one coroutine from its point to
    the next.  Which coroutine runs is left open: a schedule is a list
    of coroutine numbers, and every order asyncio can produce is one of
    them. *)
Module Interleaving.

Inductive pc : Type :=
| Ready                                   (* called, not yet run *)
| WaitLock                                (* suspended on the lock *)
| InEstablish (r : res client)            (* under the lock, in establish_connection, which ends as [r] *)
| InGetServices (c : client) (r : res unit) (* under the lock, in get_services, which ends as [r] *)
| Finished (r : res unit).                (* returned, or raised *)

(** The points under the lock. *)
Definition holds (p : pc) : bool :=
  match p with
  | InEstablish _ | InGetServices _ _ => true
  | Ready | WaitLock | Finished _ => false
  end.

Record config : Type := {
  inst : HILIGHTINGInstance;     (* the instance the coroutines share *)
  hist : list event;             (* the events so far *)
  locked : bool;                 (* [self._connect_lock.locked()] *)
  tasks : list pc                (* the coroutines *)
}.

Section Blocks.

Variable T : transport.

(** The calls that suspend: the call is made and recorded, its
    outcome is what the coroutine will be resumed with. *)
Definition call_establish : M (res client) :=
  fun self h => let r := t_establish T h in (Ok r, self, [EvEstablish r]).

Definition call_get_services (c : client) : M (res unit) :=
  fun self h => let r := t_get_services T h c in (Ok r, self, [EvGetServices c r]).

(** The last four statements of [_ensure_connected]. *)
Definition finish_connect (client : client) : M unit :=
  assign (upd_client (Some client)) ;;
  svc <- client_services T client ;;
  assign (upd_cached_services (Some svc)) ;;
  _reset_disconnect_timer T.

(** The lock was just taken: the second check, up to the call of
    [establish_connection]. *)
Definition block_locked : M pc :=
  connected <- client_and_connected T ;;
  if connected then _reset_disconnect_timer T ;; ret (Finished (Ok tt))
  else
    name <- get _name ;;
    LOGGER DEBUG (Connecting name) ;;
    r <- call_establish ;;
    ret (InEstablish r).

(** From the top: the first check, then the lock if it is free. *)
Definition block_top (lock_held : bool) : M pc :=
  connected <- client_and_connected T ;;
  if connected then _reset_disconnect_timer T ;; ret (Finished (Ok tt))
  else if lock_held then ret WaitLock
  else block_locked.

(** [establish_connection] has ended as [r]. *)
Definition block_established (r : res client) : M pc :=
  client <- lift r ;;
  svc <- client_services T client ;;
  resolved <- _resolve_characteristics svc ;;
  if resolved then finish_connect client ;; ret (Finished (Ok tt))
  else
    LOGGER DEBUG InitialResolveFailed ;;
    r <- call_get_services client ;;
    ret (InGetServices client r).

(** [client.get_services()] has ended as [r]. *)
Definition block_refreshed (client : client) (r : res unit) : M pc :=
  lift r ;;
  svc <- client_services T client ;;
  _resolve_characteristics svc ;;
  finish_connect client ;;
  ret (Finished (Ok tt)).

(** What a coroutine at [p] runs next, if it can run. *)
Definition next (p : pc) (lock_held : bool) : option (M pc) :=
  match p with
  | Ready => Some (block_top lock_held)
  | WaitLock => if lock_held then None else Some block_locked
  | InEstablish r => Some (block_established r)
  | InGetServices c r => Some (block_refreshed c r)
  | Finished _ => None
  end.

(** Coroutine [k] runs to its next point.  An exception leaves the
    [async with] block, which releases the lock, and ends the
    coroutine. *)
Definition step (k : nat) (cfg : config) : option config :=
  p ← tasks cfg !! k;
  m ← next p (locked cfg);
  let x := m (inst cfg) (hist cfg) in
  let p' := match outcome x with
            | Ok p' => p'
            | Raise e => Finished (Raise e)
            end in
  Some {| inst := state_after x;
          hist := hist cfg ++ emitted x;
          locked := holds p' || (locked cfg && negb (holds p));
          tasks := <[k := p']> (tasks cfg) |}.

(** A schedule; a coroutine that cannot run when chosen is passed over. *)
Fixpoint run (schedule : list nat) (cfg : config) : config :=
  match schedule with
  | [] => cfg
  | k :: rest => run rest (default cfg (step k cfg))
  end.

End Blocks.

(** [n] coroutines called on one instance, none run yet, the lock free. *)
Definition start (self : HILIGHTINGInstance) (h : list event) (n : nat) : config :=
  {| inst := self; hist := h; locked := false; tasks := replicate n Ready |}.

(** A light that fails the first connection and works from then on. *)
Definition T_flaky : transport :=
  {| t_establish := fun h =>
       match establishes h with
       | [] => Raise (Exn BleakDBusError "org.bluez.Error.Failed")
       | _ => Ok 1%nat
       end;
     t_is_connected := fun h c => established c h;
     t_services := fun _ _ _ => Some 7%nat;
     t_get_services := fun _ _ => Ok tt;
     t_write := fun _ _ _ _ => Ok tt;
     t_disconnect := fun _ _ => Ok tt;
     t_call_later := fun h => length h |}.

(** A light whose cached services lack the characteristics until they
    are fetched afresh. *)
Definition T_stale : transport :=
  {| t_establish := fun _ => Ok 1%nat;
     t_is_connected := fun h c => established c h;
     t_services := fun h _ _ =>
       if existsb (fun ev => match ev with EvGetServices _ (Ok _) => true | _ => false end) h
       then Some 7%nat else None;
     t_get_services := fun _ _ => Ok tt;
     t_write := fun _ _ _ _ => Ok tt;
     t_disconnect := fun _ _ => Ok tt;
     t_call_later := fun h => length h |}.

(** [_ensure_connected] as one coroutine lives it: block after block,
    each started with the point the one before ended at. *)
Definition after3 (p : pc) : M unit :=
  match p with
  | Finished r => lift r
  | _ => ret tt
  end.

Definition after2 (T : transport) (p : pc) : M unit :=
  match p with
  | InGetServices c r => p3 <- block_refreshed T c r ;; after3 p3
  | _ => after3 p
  end.

Definition after1 (T : transport) (p : pc) : M unit :=
  match p with
  | InEstablish r => p2 <- block_established T r ;; after2 T p2
  | _ => after3 p
  end.

Definition through (T : transport) : M unit :=
  p1 <- block_top T false ;; after1 T p1.

(** Computations that do the same from every state and history. *)
Definition meq {A} (m m' : M A) : Prop := forall self h, m self h = m' self h.

(** The configuration a single coroutine ends in when it does [m]. *)
Definition ended (m : M unit) (self : HILIGHTINGInstance) (h : list event) : config :=
  {| inst := state_after (m self h);
     hist := h ++ emitted (m self h);
     locked := false;
     tasks := [Finished (outcome (m self h))] |}.

(** The instance after [_resolve_characteristics]. *)
Definition resolved (svc : services) (self : HILIGHTINGInstance) : HILIGHTINGInstance :=
  upd_model_number_char (svc SW_NUMBER_UUID)
    (upd_firmware_revision_char (svc FIRMWARE_REVISION_UUID)
       (upd_manufacturer_name_char (svc MANUFACTURER_NAME_UUID)
          (upd_write_uuid (svc WRITE_CHARACTERISTIC_UUID) self))).

(** A transport is [healthy] when establishing a connection succeeds,
    fetching the services does not raise, and a client that was
    handed out reports itself connected. *)
Record healthy (T : transport) : Prop := {
  healthy_establish : forall h, exists c, t_establish T h = Ok c;
  healthy_get_services : forall h c, t_get_services T h c = Ok tt;
  healthy_connected : forall h c, Ok c ∈ establishes h -> t_is_connected T h c = true
}.

Definition waiting (p : pc) : Prop := p = Ready \/ p = WaitLock.

Definition settled (p : pc) : Prop := waiting p \/ p = Finished (Ok tt).

(** The three phases of the coroutines of one burst, started at
    history [h0] on a disconnected instance: nobody has connected yet;
    one coroutine is connecting, under the lock; the instance is
    connected.  [new] are the events since the start. *)
Variant phase (h0 : list event) (cfg : config) : Prop :=
| Unlinked new :
    hist cfg = h0 ++ new ->
    establishes new = [] ->
    _client (inst cfg) = None ->
    locked cfg = false ->
    Forall waiting (tasks cfg) ->
    phase h0 cfg
| Linking new k c p :
    hist cfg = h0 ++ new ->
    establishes new = [Ok c] ->
    _client (inst cfg) = None ->
    locked cfg = true ->
    tasks cfg !! k = Some p ->
    p = InEstablish (Ok c) \/ p = InGetServices c (Ok tt) ->
    (forall j q, j <> k -> tasks cfg !! j = Some q -> waiting q) ->
    phase h0 cfg
| Linked new c :
    hist cfg = h0 ++ new ->
    establishes new = [Ok c] ->
    _client (inst cfg) = Some c ->
    locked cfg = false ->
    Forall settled (tasks cfg) ->
    phase h0 cfg.

(** How far a coroutine is from its end, in blocks still to run. *)
Definition rank (p : pc) : nat :=
  match p with
  | Ready => 4
  | WaitLock => 3
  | InEstablish _ => 2
  | InGetServices _ _ => 1
  | Finished _ => 0
  end.

Definition weight (cfg : config) : nat := sum_list_with rank (tasks cfg).

(** [lands P m]: when [m] returns a point, the point satisfies [P]. *)
Definition lands (P : pc -> Prop) (m : M pc) : Prop :=
  forall self h p, outcome (m self h) = Ok p -> P p.

Definition finished (p : pc) : Prop := exists r, p = Finished r.

End Interleaving.

(** ** Commands called at the same time

    A command is the decorator's loop around its function, and the
    function is some statements of its own, [await self._write(...)],
    and some more statements.  Besides the three places of
    [_ensure_connected], a command can suspend in
    [await self._client.write_gatt_char(...)] and in the
    [await asyncio.sleep(...)] of the decorator.  A coroutine running
    a command is at one of the points of [point]; a step runs it to its
    next point, through the [except] clauses of the decorator when an
    exception is raised on the way.  A free lock is taken by whichever
    coroutine asks for it next; asyncio serves the waiters in the order
    they came, which is one of these orders.  The idle timer does not
    fire during the commands: how long a client stays connected is the
    transport's to say. *)
Module Commands.

Import Interleaving.

Inductive point : Type :=
| Start                                   (* called, not yet run *)
| Linking (attempt : Z) (data : list Z) (p : pc)
                                          (* in [_write(data)], in [_ensure_connected] at [p] *)
| Writing (attempt : Z) (r : res unit)    (* in write_gatt_char, which ends as [r] *)
| Sleeping                                (* in asyncio.sleep, in an except clause *)
| Returned (r : res (option unit)).       (* the wrapper has returned, or raised *)

(** A coroutine: its command, the attempts the loop has still to make
    after the one it is in, and the point it is at. *)
Record coroutine : Type := {
  cmd : command;
  attempts : list Z;
  at_point : point
}.

(** The points under the lock. *)
Definition under_lock (t : coroutine) : bool :=
  match at_point t with
  | Linking _ _ p => holds p
  | _ => false
  end.

Record config : Type := {
  inst : HILIGHTINGInstance;     (* the instance the coroutines share *)
  hist : list event;             (* the events so far *)
  locked : bool;                 (* [self._connect_lock.locked()] *)
  tasks : list coroutine         (* the coroutines *)
}.

(** The statements of a command before [await self._write(...)], with
    the argument of [_write]; [None] is the [return] of [set_effect] at
    an unsupported name. *)
Definition prologue (c : command) : M (option (list Z)) :=
  match c with
  | TurnOn => cmd <- get _turn_on_cmd ;; ret (Some cmd)
  | TurnOff => cmd <- get _turn_off_cmd ;; ret (Some cmd)
  | SetRgbColor rgb =>
      assign (upd_rgb_color rgb) ;;
      packet <- lift (bytearray [0x55; 0x07; 0x01; rgb.1.1; rgb.1.2; rgb.2]) ;;
      ret (Some packet)
  | SetBrightness brightness =>
      assign (upd_brightness brightness) ;;
      b <- lift (brightness_byte brightness) ;;
      packet <- lift (bytearray [0x55; 0x03; 0x01; 0xff; b]) ;;
      ret (Some packet)
  | SetEffect effect =>
      match EFFECT_MAP !! effect with
      | None => LOGGER ERROR (UnsupportedEffect effect) ;; ret None
      | Some effect_id =>
          packet <- lift (bytearray [0x55; 0x04; 0x01; effect_id]) ;;
          ret (Some packet)
      end
  | SetEffectSpeed speed =>
      b <- lift (speed_byte speed) ;;
      packet <- lift (bytearray [0x55; 0x04; 0x04; b]) ;;
      ret (Some packet)
  end.

(** The statements of a command after [await self._write(...)]. *)
Definition epilogue (c : command) : M unit :=
  match c with
  | TurnOn => assign (upd_is_on true)
  | TurnOff => assign (upd_is_on false)
  | SetRgbColor _ => assign (upd_effect EFFECT_OFF)
  | SetEffect effect => assign (upd_effect effect)
  | SetBrightness _ | SetEffectSpeed _ => ret tt
  end.

Section Blocks.

Variable T : transport.

(** The call that suspends in [_write]: made and recorded, its outcome
    is what the coroutine will be resumed with. *)
Definition call_write (c : client) (char : option characteristic) (data : list Z)
  : M (res unit) :=
  fun self h => let r := t_write T h c char data in (Ok r, self, [EvWrite c char data r]).

(** [_ensure_connected] has got to [p].  When it has returned, [_write]
    goes on to the call of [write_gatt_char]. *)
Definition to_write (attempt : Z) (data : list Z) (p : pc) : M point :=
  match p with
  | Finished r =>
      lift r ;;
      c <- get _client ;;
      match c with
      | Some c =>
          char <- get _write_uuid ;;
          r <- call_write c char data ;;
          ret (Writing attempt r)
      | None => raise (Exn BleakRetryException "AttributeError")
      end
  | _ => ret (Linking attempt data p)
  end.

(** The function from its first statement. *)
Definition block_start (c : command) (attempt : Z) (lock_held : bool) : M point :=
  d <- prologue c ;;
  match d with
  | Some data => p <- block_top T lock_held ;; to_write attempt data p
  | None => ret (Returned (Ok (Some tt)))
  end.

(** [write_gatt_char] has ended as [r]. *)
Definition block_written (c : command) (r : res unit) : M point :=
  lift r ;;
  epilogue c ;;
  ret (Returned (Ok (Some tt))).

(** The [except] clauses of the decorator, at iteration [attempt]. *)
Definition except (c : command) (attempt : Z) (err : exn) : M point :=
  name <- get _name ;;
  match exn_class_of err with
  | BleakNotFoundError => raise err
  | BleakDBusError =>
      if attempt =? DEFAULT_ATTEMPTS - 1 then
        LOGGER ERROR (MaxRetriesReached name (func_name c) err) ;;
        raise err
      else
        LOGGER WARNING
          (RetryDueTo name (attempt + 1) DEFAULT_ATTEMPTS (func_name c) err) ;;
        asyncio_sleep BLEAK_BACKOFF_TIME ;;
        ret Sleeping
  | BleakRetryException =>
      if attempt =? DEFAULT_ATTEMPTS - 1 then
        LOGGER ERROR (MaxRetriesReached name (func_name c) err) ;;
        raise err
      else
        LOGGER WARNING
          (BleErrorRetry name (attempt + 1) DEFAULT_ATTEMPTS (func_name c) err) ;;
        asyncio_sleep BLEAK_BACKOFF_TIME ;;
        ret Sleeping
  | Uncaught => raise err
  end.

(** A block of the function, inside the [try] of iteration [attempt]. *)
Definition within (t : coroutine) (attempt : Z) (m : M point) : M coroutine :=
  pt <- catch m (except (cmd t) attempt) ;;
  ret {| cmd := cmd t; attempts := attempts t; at_point := pt |}.

(** The head of the loop: the next attempt, if there is one. *)
Definition enter (t : coroutine) (lock_held : bool) : M coroutine :=
  match attempts t with
  | [] => ret {| cmd := cmd t; attempts := []; at_point := Returned (Ok None) |}
  | attempt :: rest =>
      within {| cmd := cmd t; attempts := rest; at_point := Start |} attempt
        (block_start (cmd t) attempt lock_held)
  end.

(** What a coroutine runs next, if it can run. *)
Definition next (t : coroutine) (lock_held : bool) : option (M coroutine) :=
  match at_point t with
  | Start | Sleeping => Some (enter t lock_held)
  | Linking attempt data p =>
      m ← Interleaving.next T p lock_held;
      Some (within t attempt (p' <- m ;; to_write attempt data p'))
  | Writing attempt r => Some (within t attempt (block_written (cmd t) r))
  | Returned _ => None
  end.

(** Where a block leaves the coroutine: at the point it returned, or
    at its end, with no attempt left to make, when an exception has
    left the wrapper. *)
Definition landing (t : coroutine) (r : res coroutine) : coroutine :=
  match r with
  | Ok t' => t'
  | Raise e => {| cmd := cmd t; attempts := []; at_point := Returned (Raise e) |}
  end.

(** Coroutine [k] runs to its next point.  The lock is released when
    the coroutine is no longer under it. *)
Definition step (k : nat) (cfg : config) : option config :=
  t ← tasks cfg !! k;
  m ← next t (locked cfg);
  let x := m (inst cfg) (hist cfg) in
  let t' := landing t (outcome x) in
  Some {| inst := state_after x;
          hist := hist cfg ++ emitted x;
          locked := under_lock t' || (locked cfg && negb (under_lock t));
          tasks := <[k := t']> (tasks cfg) |}.

(** A schedule; a coroutine that cannot run when chosen is passed over. *)
Fixpoint run (schedule : list nat) (cfg : config) : config :=
  match schedule with
  | [] => cfg
  | k :: rest => run rest (default cfg (step k cfg))
  end.

End Blocks.

(** The function of a command as one coroutine lives it when it runs
    alone: block after block, each started at the point the one before
    ended at. *)
Definition after_write (c : command) (pt : point) : M point :=
  match pt with
  | Writing _ r => block_written c r
  | _ => ret pt
  end.

Definition after_refresh (T : transport) (c : command) (pt : point) : M point :=
  match pt with
  | Linking attempt data (InGetServices client r) =>
      pt' <- (p' <- block_refreshed T client r ;; to_write T attempt data p') ;;
      after_write c pt'
  | _ => after_write c pt
  end.

Definition after_establish (T : transport) (c : command) (pt : point) : M point :=
  match pt with
  | Linking attempt data (InEstablish r) =>
      pt' <- (p' <- block_established T r ;; to_write T attempt data p') ;;
      after_refresh T c pt'
  | _ => after_write c pt
  end.

Definition func_through (T : transport) (c : command) (attempt : Z) : M point :=
  pt <- block_start T c attempt false ;; after_establish T c pt.

(** What the except clauses log and do for [err] at iteration
    [attempt]. *)
Definition except_events (self : HILIGHTINGInstance) (c : command) (attempt : Z) (err : exn)
  : list event :=
  if transient err then
    if attempt =? DEFAULT_ATTEMPTS - 1 then giving_up self (func_name c) err
    else backoff self (func_name c) attempt err
  else [].

(** A point reached in iteration [attempt]. *)
Definition tagged (attempt : Z) (pt : point) : Prop :=
  match pt with
  | Linking a _ _ | Writing a _ => a = attempt
  | _ => True
  end.

(** One coroutine, alone. *)
Definition alone (t : coroutine) (self : HILIGHTINGInstance) (h : list event) : config :=
  {| inst := self; hist := h; locked := under_lock t; tasks := [t] |}.

(** Where an attempt of a coroutine alone ends, when the blocks of its
    function do [x] together: at the point they return, or through
    the except clauses. *)
Definition attempt_end (c : command) (attempt : Z) (rest : list Z)
    (x : res point * HILIGHTINGInstance * list event) (h : list event) : config :=
  match outcome x with
  | Ok pt =>
      alone {| cmd := c; attempts := rest; at_point := pt |} (state_after x) (h ++ emitted x)
  | Raise err =>
      alone (if transient err && negb (attempt =? DEFAULT_ATTEMPTS - 1)
             then {| cmd := c; attempts := rest; at_point := Sleeping |}
             else {| cmd := c; attempts := []; at_point := Returned (Raise err) |})
        (state_after x) (h ++ emitted x ++ except_events (state_after x) c attempt err)
  end.

(** [cfg'] is reached from [cfg] in at most [bound] steps of the first
    coroutine. *)
Definition reaches (T : transport) (bound : nat) (cfg cfg' : config) : Prop :=
  exists n, (n <= bound)%nat /\ run T (repeat 0%nat n) cfg = cfg'.

(** A command just called. *)
Definition called (c : command) : coroutine :=
  {| cmd := c; attempts := range DEFAULT_ATTEMPTS; at_point := Start |}.

(** The commands [cmds] called on one instance, none run yet, the lock
    free. *)
Definition start (self : HILIGHTINGInstance) (h : list event) (cmds : list command) : config :=
  {| inst := self; hist := h; locked := false; tasks := map called cmds |}.

Definition returned (t : coroutine) : Prop := exists r, at_point t = Returned r.

(** The transport is [steady] from history [h0] on, for an instance
    that holds [held] and is not connected: establishing a connection
    succeeds and hands out a client other than the one held, fetching
    the services does not raise, a client handed out since [h0] reports
    itself connected, and the client held does not. *)
Record steady (T : transport) (h0 : list event) (held : option client) : Prop := {
  steady_establish : forall h, exists c, t_establish T (h0 ++ h) = Ok c /\ held <> Some c;
  steady_get_services : forall h c, t_get_services T (h0 ++ h) c = Ok tt;
  steady_connected : forall h c,
    Ok c ∈ establishes h -> t_is_connected T (h0 ++ h) c = true;
  steady_dead : forall h c,
    held = Some c -> Ok c ∉ establishes h -> t_is_connected T (h0 ++ h) c = false
}.

(** A command [sends] when its own statements get as far as [_write]. *)
Definition sends (c : command) : Prop :=
  forall self h, exists data, outcome (prologue c self h) = Ok (Some data).

(** A coroutine is [idle] when it has not got to [_ensure_connected]:
    it has not run yet, or its command was over before. *)
Definition idle (t : coroutine) : Prop :=
  (at_point t = Start /\ attempts t <> []) \/ (returned t /\ ~ sends (cmd t)).

(** It is [queued] when it is idle or waits for the lock. *)
Definition queued (t : coroutine) : Prop :=
  idle t \/ exists attempt data, at_point t = Linking attempt data WaitLock.

(** The three stages of the commands of one burst, called at history
    [h0] on an instance that holds [held]: nobody has connected yet;
    one coroutine is connecting, under the lock; the instance is
    connected.  [new] are the events since the start. *)
Variant stage (held : option client) (h0 : list event) (cfg : config) : Prop :=
| NoLink new :
    hist cfg = h0 ++ new ->
    establishes new = [] ->
    writes new = [] ->
    _client (inst cfg) = held ->
    locked cfg = false ->
    Forall idle (tasks cfg) ->
    stage held h0 cfg
| OneLinking new k c t attempt data :
    hist cfg = h0 ++ new ->
    establishes new = [Ok c] ->
    writes new = [] ->
    _client (inst cfg) = held ->
    held <> Some c ->
    locked cfg = true ->
    tasks cfg !! k = Some t ->
    at_point t = Linking attempt data (InEstablish (Ok c)) \/
    at_point t = Linking attempt data (InGetServices c (Ok tt)) ->
    (forall j q, j <> k -> tasks cfg !! j = Some q -> queued q) ->
    stage held h0 cfg
| HasLink new c :
    hist cfg = h0 ++ new ->
    establishes new = [Ok c] ->
    _client (inst cfg) = Some c ->
    locked cfg = false ->
    Forall (fun t => under_lock t = false) (tasks cfg) ->
    stage held h0 cfg.

(** How far a coroutine is from its end, in blocks still to run. *)
Definition rank (t : coroutine) : nat :=
  match at_point t with
  | Returned _ => 0
  | Start | Sleeping => 5 * length (attempts t) + 1
  | Writing _ _ => 5 * length (attempts t) + 2
  | Linking _ _ p => 5 * length (attempts t) + 2 + Interleaving.rank p
  end.

Definition weight (cfg : config) : nat := sum_list_with rank (tasks cfg).

(** What a point after a block of the function is like: [n] bounds the
    blocks of [_ensure_connected] still to run, [free] says whether the
    coroutine may be under the lock. *)
Definition point_within (n : nat) (free : bool) (pt : point) : Prop :=
  match pt with
  | Linking _ _ p =>
      (p = WaitLock \/ holds p = true) /\ (Interleaving.rank p < n)%nat /\
      (free = false -> holds p = false)
  | Writing _ _ | Returned _ => True
  | Start | Sleeping => False
  end.

(** The points [_ensure_connected] can be suspended at. *)
Definition proper (t : coroutine) : Prop :=
  match at_point t with
  | Linking _ _ p => p = WaitLock \/ holds p = true
  | _ => True
  end.

(** The lock is held exactly when a coroutine is under it, and at most
    one is. *)
Record coherent (cfg : config) : Prop := {
  coherent_proper : Forall proper (tasks cfg);
  coherent_one : forall j k p q,
    tasks cfg !! j = Some p -> tasks cfg !! k = Some q ->
    under_lock p = true -> under_lock q = true -> j = k;
  coherent_locked :
    locked cfg = true <-> exists k p, tasks cfg !! k = Some p /\ under_lock p = true
}.

End Commands.

(** [lands_in P m]: when [m] returns, what it returns satisfies [P]. *)
Definition lands_in {A} (P : A -> Prop) (m : M A) : Prop :=
  forall self h a, outcome (m self h) = Ok a -> P a.

(** ** Notions for the properties of the whole module *)

(** [keeps I m]: [m] keeps the invariant [I] of the instance and the
    events so far, whether it returns or raises. *)
Definition keeps (I : HILIGHTINGInstance -> list event -> Prop) {A} (m : M A) : Prop :=
  forall self h, I self h -> I (state_after (m self h)) (h ++ emitted (m self h)).

(** The events a command makes besides working on the link. *)
Definition outward (ev : event) : bool :=
  match ev with
  | EvLog _ _ | EvSleep _ | EvWrite _ _ _ _ => true
  | _ => false
  end.

(** An invariant is [aloof] when it looks neither at the reported state
    nor at the logs, sleeps and writes. *)
Record aloof (I : HILIGHTINGInstance -> list event -> Prop) : Prop := {
  aloof_is_on : forall v self h, I self h -> I (upd_is_on v self) h;
  aloof_rgb_color : forall v self h, I self h -> I (upd_rgb_color v self) h;
  aloof_brightness : forall v self h, I self h -> I (upd_brightness v self) h;
  aloof_effect : forall v self h, I self h -> I (upd_effect v self) h;
  aloof_event : forall ev self h, outward ev = true -> I self h -> I self (h ++ [ev])
}.

(** The fields [__init__] sets and no method assigns. *)
Definition constant (self : HILIGHTINGInstance)
  : string * string * Z * ColorMode * list Z * list Z :=
  (_name self, _mac self, _delay self, _color_mode self, _turn_on_cmd self, _turn_off_cmd self).

(** The events of connecting. *)
Definition connecting (ev : event) : bool :=
  match ev with
  | EvLog _ _ | EvEstablish _ | EvGetServices _ _ => true
  | _ => false
  end.

(** An invariant is [detached] when it looks neither at the client, the
    cached services and the four characteristics, nor at the events of
    connecting. *)
Record detached (I : HILIGHTINGInstance -> list event -> Prop) : Prop := {
  detached_client : forall v self h, I self h -> I (upd_client v self) h;
  detached_cached_services : forall v self h, I self h -> I (upd_cached_services v self) h;
  detached_write_uuid : forall v self h, I self h -> I (upd_write_uuid v self) h;
  detached_manufacturer_name_char :
    forall v self h, I self h -> I (upd_manufacturer_name_char v self) h;
  detached_firmware_revision_char :
    forall v self h, I self h -> I (upd_firmware_revision_char v self) h;
  detached_model_number_char : forall v self h, I self h -> I (upd_model_number_char v self) h;
  detached_event : forall ev self h, connecting ev = true -> I self h -> I self (h ++ [ev])
}.

(** The timers that are armed: those of [live] and those the events
    arm ([call_later]), less those the events cancel. *)
Definition pending (live : list timer) (evs : list event) : list timer :=
  fold_left
    (fun live ev =>
       match ev with
       | EvCallLater t _ => live ++ [t]
       | EvTimerCancel t => filter (fun t' => t' <> t) live
       | _ => live
       end) evs live.

(** At most one timer is armed, and it is the one the instance holds. *)
Definition tidy (live : list timer) (self : HILIGHTINGInstance) : Prop :=
  match live with
  | [] => True
  | [t] => _disconnect_timer self = Some t
  | _ => False
  end.

(** The [call_later] calls among some events: the timer and its delay. *)
Definition call_laters (evs : list event) : list (timer * Z) :=
  omap (fun ev => match ev with EvCallLater t d => Some (t, d) | _ => None end) evs.

(** [self._client and self._client.is_connected], as a function of the
    instance and the events so far. *)
Definition connected_now (T : transport) (self : HILIGHTINGInstance) (h : list event) : bool :=
  match _client self with
  | Some c => t_is_connected T h c
  | None => false
  end.

(** What [_resolve_characteristics] returns: were all four found? *)
Definition all_resolved (svc : services) : bool :=
  forallb (fun x : option characteristic => bool_decide (is_Some x))
    [svc WRITE_CHARACTERISTIC_UUID; svc MANUFACTURER_NAME_UUID;
     svc FIRMWARE_REVISION_UUID; svc SW_NUMBER_UUID].

(** The instance once [client] is stored with its services, before the
    timer is re-armed. *)
Definition with_client (T : transport) (client : client) (self : HILIGHTINGInstance)
    (h : list event) : HILIGHTINGInstance :=
  upd_cached_services (Some (t_services T h client)) (upd_client (Some client) self).

(** The fields of [constant] have the values [v]. *)
Definition constant_is (v : string * string * Z * ColorMode * list Z * list Z)
  : HILIGHTINGInstance -> list event -> Prop :=
  fun self _ => constant self = v.

(** A light in range, driven by an instance without idle disconnect. *)
Definition lamp_no_idle : HILIGHTINGInstance := init "HILIGHTING-4A:2F" "C0:00:00:01:4A:2F" 0.

(** At no time since [h0] were two timers armed, [live0] being those
    armed then, and the one armed now is the one the instance holds. *)
Definition one_timer (h0 : list event) (live0 : list timer)
  : HILIGHTINGInstance -> list event -> Prop :=
  fun self h =>
    exists new, h = h0 ++ new /\
      tidy (pending live0 new) self /\
      forall p, p `prefix_of` new -> (length (pending live0 p) <= 1)%nat.

(** Without a delay: no timer was scheduled since [h0], and the
    instance holds what it held, [t0]. *)
Definition never_armed (h0 : list event) (t0 : option timer)
  : HILIGHTINGInstance -> list event -> Prop :=
  fun self h =>
    _delay self = 0 /\ _disconnect_timer self = t0 /\
    exists new, h = h0 ++ new /\ call_laters new = [].

(** The instance holds the client [cl], and no connection was
    attempted since [h0]. *)
Definition reusing (h0 : list event) (cl : client)
  : HILIGHTINGInstance -> list event -> Prop :=
  fun self h =>
    _client self = Some cl /\ exists new, h = h0 ++ new /\ establishes new = [].

(** The link fields: what the connection check and the idle disconnect
    work on. *)
Definition link_fields (self : HILIGHTINGInstance)
  : option client * option services * bool * option timer :=
  (_client self, _cached_services self, _expected_disconnect self, _disconnect_timer self).

(** A light that connects but shows no characteristic at all, before
    and after its services are fetched afresh. *)
Definition T_bare : transport :=
  {| t_establish := fun _ => Ok 1%nat;
     t_is_connected := fun h c => established c h;
     t_services := fun _ _ _ => None;
     t_get_services := fun _ _ => Ok tt;
     t_write := fun _ _ _ _ => Raise (Exn BleakRetryException "Characteristic None was not found!");
     t_disconnect := fun _ _ => Ok tt;
     t_call_later := fun h => length h |}.

(** A light in range whose services cannot be fetched afresh, and do
    not show the characteristics from the cache. *)
Definition T_blind : transport :=
  {| t_establish := fun _ => Ok 1%nat;
     t_is_connected := fun h c => established c h;
     t_services := fun _ _ _ => None;
     t_get_services := fun _ _ => Raise (Exn BleakRetryException "failed to discover services");
     t_write := fun _ _ _ _ => Ok tt;
     t_disconnect := fun _ _ => Ok tt;
     t_call_later := fun h => length h |}.

(** A light in range that fails to disconnect. *)
Definition T_stuck : transport :=
  {| t_establish := fun _ => Ok 1%nat;
     t_is_connected := fun h c => established c h;
     t_services := fun _ _ _ => Some 7%nat;
     t_get_services := fun _ _ => Ok tt;
     t_write := fun _ _ _ _ => Ok tt;
     t_disconnect := fun _ _ => Raise (Exn BleakRetryException "disconnect timed out");
     t_call_later := fun h => length h |}.

(** [turn_on] and [turn_off] are [switch true] and [switch false]; the
    packet of each is [switch_cmd]. *)
Definition switch (T : transport) (on : bool) : M (option unit) :=
  if on then turn_on T else turn_off T.

Definition switch_cmd (on : bool) (self : HILIGHTINGInstance) : list Z :=
  if on then _turn_on_cmd self else _turn_off_cmd self.

(** [P] on each of the [n] integers from [lo] on. *)
Definition forall_from (P : Z -> bool) (lo : Z) (n : N) : bool :=
  fst (N.iter n (fun p => (fst p && P (snd p), snd p + 1)) (true, lo)).

(** A [BLEDevice], as a handle. *)
Definition BLEDevice := nat.

(** [BluetoothServiceInfoBleak], as [__init__] reads it: the address
    and the advertised name, which may be missing or empty. *)
Module service_info.
Record t : Set := { address : string; name : option string }.
End service_info.

Definition ConfigEntryNotReady (msg : string) : exn := Exn Uncaught msg.

(** [s[-5:]]: the last five characters, or all of a shorter string. *)
Definition last_five (s : string) : string :=
  String.substring (String.length s - 5) 5 s.

(** [__init__]: [device] is what [async_ble_device_from_address]
    answers for the address.  The name is the advertised one, or when
    there is none "HILIGHTING-" and the end of the address; without a
    device the constructor raises.  (The lock and the loop are the
    interleaving semantics' and the transport's.) *)
Definition __init__ (device : option BLEDevice) (info : service_info.t) (delay : Z)
  : res HILIGHTINGInstance :=
  let mac := service_info.address info in
  let name :=
    match service_info.name info with
    | Some (String c s) => String c s
    | Some EmptyString | None => "HILIGHTING-" +:+ last_five mac
    end in
  match device with
  | None =>
      Raise (ConfigEntryNotReady
               ("Device with address " +:+ mac
                  +:+ " not found via Home Assistant Bluetooth integration."))
  | Some _ => Ok (init name mac delay)
  end.

(** Among the writes of a call, one that the transport took is the
    last, and the call returned. *)
Definition delivers_last {A} (x : res A * HILIGHTINGInstance * list event) : Prop :=
  forall pre w post,
    writes (emitted x) = pre ++ w :: post -> w.2 = Ok tt ->
    post = [] /\ exists v, outcome x = Ok v.

(** The four characteristics the instance holds are those of [svc]. *)
Definition resolved_in (svc : services) (self : HILIGHTINGInstance) : Prop :=
  _write_uuid self = svc WRITE_CHARACTERISTIC_UUID /\
  _manufacturer_name_char self = svc MANUFACTURER_NAME_UUID /\
  _firmware_revision_char self = svc FIRMWARE_REVISION_UUID /\
  _model_number_char self = svc SW_NUMBER_UUID.

(** The [get_services] calls among some events. *)
Definition refreshes (evs : list event) : list (client * res unit) :=
  omap (fun ev => match ev with EvGetServices c r => Some (c, r) | _ => None end) evs.

(** Since [h0] the instance has connected at most once: either it has
    no client and no connection was attempted, or it holds the client
    of the one connection that was established. *)
Definition linked_once (h0 : list event) : HILIGHTINGInstance -> list event -> Prop :=
  fun self h =>
    exists new, h = h0 ++ new /\
      ((_client self = None /\ establishes new = []) \/
       (exists c, _client self = Some c /\ establishes new = [Ok c])).

(** ** Reasoning about computations *)

Lemma run_split {A} (x : res A * HILIGHTINGInstance * list event) :
  x = (outcome x, state_after x, emitted x).
Proof. by destruct x as [[? ?] ?]. Qed.

Lemma bind_ok {A B} (m : M A) (k : A -> M B) self h a self1 e1 :
  m self h = (Ok a, self1, e1) ->
  bind m k self h =
    (outcome (k a self1 (h ++ e1)), state_after (k a self1 (h ++ e1)),
     e1 ++ emitted (k a self1 (h ++ e1))).
Proof.
  intros E. unfold bind. rewrite E.
  by destruct (k a self1 (h ++ e1)) as [[? ?] ?].
Qed.

Lemma bind_raise {A B} (m : M A) (k : A -> M B) self h e self1 e1 :
  m self h = (Raise e, self1, e1) ->
  bind m k self h = (Raise e, self1, e1).
Proof. intros E. unfold bind. by rewrite E. Qed.

Lemma sleeps_app a b : sleeps (a ++ b) = sleeps a ++ sleeps b.
Proof. apply omap_app. Qed.

Lemma writes_app a b : writes (a ++ b) = writes a ++ writes b.
Proof. apply omap_app. Qed.

Lemma establishes_app a b : establishes (a ++ b) = establishes a ++ establishes b.
Proof. apply omap_app. Qed.

Lemma retry_logs_app a b : retry_logs (a ++ b) = retry_logs a ++ retry_logs b.
Proof. apply omap_app. Qed.

Lemma quiet_ret {A} (a : A) : quiet (ret a).
Proof. by intros self h. Qed.

Lemma quiet_raise {A} e : quiet (@raise A e).
Proof. by intros self h. Qed.

Lemma quiet_get {A} (f : HILIGHTINGInstance -> A) : quiet (get f).
Proof. by intros self h. Qed.

Lemma quiet_lift {A} (r : res A) : quiet (lift r).
Proof. by intros self h. Qed.

Lemma quiet_bind {A B} (m : M A) (k : A -> M B) :
  quiet m -> (forall a, quiet (k a)) -> quiet (bind m k).
Proof.
  intros Hm Hk self h.
  destruct (Hm self h) as (R1 & S1 & W1 & L1).
  destruct (m self h) as [[[a|e] self1] e1] eqn:E.
  - rewrite (bind_ok _ _ _ _ _ _ _ E).
    destruct (Hk a self1 (h ++ e1)) as (R2 & S2 & W2 & L2).
    unfold state_after, emitted in *; simpl in *.
    rewrite sleeps_app, writes_app, retry_logs_app, S1, S2, W1, W2, L1, L2.
    split; [congruence | done].
  - by rewrite (bind_raise _ _ _ _ _ _ _ E).
Qed.

Lemma quiet_assign f :
  (forall self, reported (f self) = reported self) -> quiet (assign f).
Proof. intros Hf self h. by split; [apply Hf|]. Qed.

Lemma quiet_emit ev :
  sleeps [ev] = [] -> writes [ev] = [] -> retry_logs [ev] = [] -> quiet (emit ev).
Proof. by intros ? ? ? self h. Qed.

Create HintDb quiet.
#[export] Hint Resolve quiet_ret quiet_raise quiet_get quiet_lift quiet_bind : quiet.
#[export] Hint Extern 1 (quiet (assign _)) =>
  apply quiet_assign; intros; reflexivity : quiet.
#[export] Hint Extern 1 (quiet (emit _)) => apply quiet_emit; reflexivity : quiet.
#[export] Hint Extern 1 (quiet (LOGGER _ _)) => apply quiet_emit; reflexivity : quiet.
#[export] Hint Extern 2 (quiet (match ?x with _ => _ end)) => destruct x : quiet.

Section LinkLemmas.

Variable T : transport.

Lemma quiet_is_connected c : quiet (is_connected T c).
Proof. by intros self h. Qed.

Lemma quiet_client_services c : quiet (client_services T c).
Proof. by intros self h. Qed.

Lemma quiet_establish_connection : quiet (establish_connection T).
Proof. by intros self h. Qed.

Lemma quiet_get_services c : quiet (get_services T c).
Proof. by intros self h. Qed.

Lemma quiet_call_later d : quiet (call_later T d).
Proof. by intros self h. Qed.

Lemma quiet_client_disconnect c : quiet (client_disconnect T c).
Proof. by intros self h. Qed.

Hint Resolve quiet_is_connected quiet_client_services quiet_establish_connection
  quiet_get_services quiet_call_later quiet_client_disconnect : quiet.

Lemma quiet_client_and_connected : quiet (client_and_connected T).
Proof. unfold client_and_connected. eauto with quiet. Qed.

Lemma quiet_reset_disconnect_timer : quiet (_reset_disconnect_timer T).
Proof. unfold _reset_disconnect_timer. eauto 10 with quiet. Qed.

Lemma quiet_resolve_characteristics svc : quiet (_resolve_characteristics svc).
Proof. unfold _resolve_characteristics. eauto 12 with quiet. Qed.

Hint Resolve quiet_client_and_connected quiet_reset_disconnect_timer
  quiet_resolve_characteristics : quiet.

Lemma quiet_connect_locked : quiet (connect_locked T).
Proof. unfold connect_locked. eauto 20 with quiet. Qed.

Lemma quiet_ensure_connected : quiet (_ensure_connected T).
Proof.
  unfold _ensure_connected. pose proof quiet_connect_locked. eauto with quiet.
Qed.

End LinkLemmas.

(** Unfolding [bind] after the primitive computations. *)
Lemma bind_get {A B} (f : HILIGHTINGInstance -> A) (k : A -> M B) self h :
  bind (get f) k self h = k (f self) self h.
Proof.
  unfold bind, get. rewrite app_nil_r. by destruct (k (f self) self h) as [[? ?] ?].
Qed.

Lemma bind_assign {B} f (k : unit -> M B) self h :
  bind (assign f) k self h = k tt (f self) h.
Proof.
  unfold bind, assign. rewrite app_nil_r. by destruct (k tt (f self) h) as [[? ?] ?].
Qed.

Lemma bind_ret {A B} (a : A) (k : A -> M B) self h : bind (ret a) k self h = k a self h.
Proof.
  unfold bind, ret. rewrite app_nil_r. by destruct (k a self h) as [[? ?] ?].
Qed.

Lemma bind_lift_ok {A B} (a : A) (k : A -> M B) self h :
  bind (lift (Ok a)) k self h = k a self h.
Proof. apply (bind_ret a k). Qed.

Lemma bind_lift_raise {A B} e (k : A -> M B) self h :
  bind (lift (Raise e)) k self h = (Raise e, self, []).
Proof. reflexivity. Qed.

Lemma bind_emit {B} ev (k : unit -> M B) self h :
  bind (emit ev) k self h =
    (outcome (k tt self (h ++ [ev])), state_after (k tt self (h ++ [ev])),
     ev :: emitted (k tt self (h ++ [ev]))).
Proof. unfold bind, emit. by destruct (k tt self (h ++ [ev])) as [[? ?] ?]. Qed.

(** [m ;; assign f]: the assignment happens exactly when [m] returns. *)
Lemma then_assign {A} (m : M A) f self h :
  (m ;; assign f) self h =
    match outcome (m self h) with
    | Ok _ => (Ok tt, f (state_after (m self h)), emitted (m self h))
    | Raise e => (Raise e, state_after (m self h), emitted (m self h))
    end.
Proof.
  unfold bind, assign. destruct (m self h) as [[[a|e] self1] e1]; simpl; [|done].
  by rewrite app_nil_r.
Qed.

Lemma leaves_client_bind {A B} (m : M A) (k : A -> M B) :
  (forall a, leaves_client (k a)) -> leaves_client (bind m k).
Proof.
  intros Hk self h b.
  destruct (m self h) as [[[a|e] self1] e1] eqn:E.
  - rewrite (bind_ok _ _ _ _ _ _ _ E). apply Hk.
  - by rewrite (bind_raise _ _ _ _ _ _ _ E).
Qed.

Section WriteLemmas.

Variable T : transport.

Lemma client_and_connected_run self h :
  client_and_connected T self h =
    (Ok (match _client self with
         | Some c => t_is_connected T h c
         | None => false
         end), self, []).
Proof.
  unfold client_and_connected. rewrite bind_get.
  by destruct (_client self).
Qed.

(** Rearming the timer never raises and leaves the link fields alone. *)
Lemma reset_disconnect_timer_ok self h :
  outcome (_reset_disconnect_timer T self h) = Ok tt /\
  _client (state_after (_reset_disconnect_timer T self h)) = _client self /\
  _write_uuid (state_after (_reset_disconnect_timer T self h)) = _write_uuid self.
Proof.
  unfold _reset_disconnect_timer, bind, get, assign, emit, ret, call_later; simpl.
  repeat case_match; simplify_eq; done.
Qed.

Ltac rewrite_reset :=
  match goal with
  | |- context [_reset_disconnect_timer ?T ?s ?h] =>
      destruct (reset_disconnect_timer_ok s h) as (_ & -> & _)
  end.

Lemma leaves_client_connect_tail c :
  leaves_client
    (assign (upd_client (Some c)) ;;
     svc <- client_services T c ;;
     assign (upd_cached_services (Some svc)) ;;
     _reset_disconnect_timer T).
Proof.
  intros self h a _.
  rewrite bind_assign. erewrite bind_ok by reflexivity.
  unfold state_after at 1; simpl. rewrite bind_assign.
  rewrite_reset.
  by eexists.
Qed.

Lemma leaves_client_connect_locked : leaves_client (connect_locked T).
Proof.
  intros self h a. unfold connect_locked.
  rewrite (bind_ok _ _ _ _ _ _ _ (client_and_connected_run self h)).
  destruct (_client self) as [c|] eqn:Ec; [destruct (t_is_connected T h c)|].
  - intros _. unfold state_after at 1; simpl.
    rewrite_reset.
    rewrite Ec. by eexists.
  - revert a. do 6 (apply leaves_client_bind; intros ?).
    apply leaves_client_connect_tail.
  - revert a. do 6 (apply leaves_client_bind; intros ?).
    apply leaves_client_connect_tail.
Qed.

(** After [_ensure_connected] has returned there is a client to write to. *)
Lemma _ensure_connected_client : leaves_client (_ensure_connected T).
Proof.
  intros self h a. unfold _ensure_connected.
  rewrite (bind_ok _ _ _ _ _ _ _ (client_and_connected_run self h)).
  destruct (_client self) as [c|] eqn:Ec; [destruct (t_is_connected T h c)|].
  - intros _. unfold state_after at 1; simpl.
    rewrite_reset.
    rewrite Ec. by eexists.
  - apply leaves_client_connect_locked.
  - apply leaves_client_connect_locked.
Qed.

(** What [_write data] does: it works on the link, then either fails
    before any write, or makes one write, of [data], as its last
    action, and ends as that write ends. *)
Lemma write_run data self h :
  reported (state_after (_write T data self h)) = reported self /\
  sleeps (emitted (_write T data self h)) = [] /\
  retry_logs (emitted (_write T data self h)) = [] /\
  ((exists e, outcome (_write T data self h) = Raise e /\
              writes (emitted (_write T data self h)) = []) \/
   (exists pre c char,
       emitted (_write T data self h)
       = pre ++ [EvWrite c char data (outcome (_write T data self h))] /\
       writes pre = [])).
Proof.
  unfold _write.
  destruct (quiet_ensure_connected T self h) as (R & S & W & L).
  pose proof (_ensure_connected_client self h) as C.
  destruct (_ensure_connected T self h) as [[[[]|e] self1] e1] eqn:E.
  - rewrite (bind_ok _ _ _ _ _ _ _ E).
    unfold outcome, state_after, emitted in *; simpl in *.
    destruct (C tt eq_refl) as [c Hc].
    rewrite !bind_get, Hc, !bind_get. unfold write_gatt_char; simpl.
    rewrite sleeps_app, retry_logs_app, S, L. repeat split; [done..|].
    right. by exists e1, c, (_write_uuid self1).
  - rewrite (bind_raise _ _ _ _ _ _ _ E).
    unfold outcome, state_after, emitted in *; simpl in *.
    repeat split; [done..|]. left. by exists e.
Qed.

End WriteLemmas.

(** ** The decorator, unfolded *)

(** One iteration of the loop of [_async_wrap], by the outcome of [func]. *)
Lemma attempt_loop_cons {A} (name : string) (func : M A) attempt rest self h :
  attempt_loop name func (attempt :: rest) self h =
    match func self h with
    | (Ok a, self1, e1) => (Ok (Some a), self1, e1)
    | (Raise err, self1, e1) =>
        if transient err then
          if attempt =? DEFAULT_ATTEMPTS - 1 then
            (Raise err, self1, e1 ++ giving_up self1 name err)
          else
            let again :=
              attempt_loop name func rest self1 (h ++ e1 ++ backoff self1 name attempt err) in
            (outcome again, state_after again,
             e1 ++ backoff self1 name attempt err ++ emitted again)
        else (Raise err, self1, e1)
    end.
Proof.
  cbn [attempt_loop]. unfold bind at 1, catch.
  destruct (func self h) as [[[a|err] self1] e1] eqn:E.
  - rewrite (bind_ok _ _ _ _ _ _ _ E). cbn. by rewrite !app_nil_r.
  - rewrite (bind_raise _ _ _ _ _ _ _ E). rewrite bind_get.
    unfold transient, backoff, giving_up.
    destruct (exn_class_of err) eqn:C; cbn [raise]; rewrite ?app_nil_r; try done.
    + destruct (attempt =? DEFAULT_ATTEMPTS - 1).
      * unfold LOGGER. by rewrite bind_emit.
      * unfold LOGGER, asyncio_sleep. rewrite !bind_emit. cbn.
        destruct (attempt_loop _ _ _ _ _) as [[? ?] ?].
        by rewrite <- !app_assoc.
    + destruct (attempt =? DEFAULT_ATTEMPTS - 1).
      * unfold LOGGER. by rewrite bind_emit.
      * unfold LOGGER, asyncio_sleep. rewrite !bind_emit. cbn.
        destruct (attempt_loop _ _ _ _ _) as [[? ?] ?].
        by rewrite <- !app_assoc.
Qed.

Lemma range_DEFAULT_ATTEMPTS : range DEFAULT_ATTEMPTS = [0; 1; 2].
Proof. reflexivity. Qed.

Lemma invoke_unfold T c :
  invoke T c = attempt_loop (func_name c) (body T c) [0; 1; 2].
Proof. by destruct c. Qed.

Lemma outcome_run {A} (r : res A) s e : outcome (r, s, e) = r.
Proof. reflexivity. Qed.

Lemma state_after_run {A} (r : res A) s e : state_after (r, s, e) = s.
Proof. reflexivity. Qed.

Lemma emitted_run {A} (r : res A) s e : emitted (r, s, e) = e.
Proof. reflexivity. Qed.

Ltac run_proj := rewrite ?outcome_run, ?state_after_run, ?emitted_run in *.

(** *** What passes through the decorator *)

Section Decorator.

Context {A : Type} (name : string) (func : M A).

(** A function of the state that no attempt changes is not changed by
    the decorated call. *)
Lemma attempt_loop_frame {X} (f : HILIGHTINGInstance -> X) :
  (forall self h, f (state_after (func self h)) = f self) ->
  forall attempts self h,
    f (state_after (attempt_loop name func attempts self h)) = f self.
Proof.
  intros Hf attempts. induction attempts as [|attempt rest IH]; intros self h; [done|].
  rewrite attempt_loop_cons. specialize (Hf self h).
  destruct (func self h) as [[[a|err] self1] e1]; [done|].
  destruct (transient err); [|done].
  destruct (attempt =? DEFAULT_ATTEMPTS - 1); [done|].
  run_proj. by rewrite IH.
Qed.

(** A function of the state that no failed attempt changes is not
    changed by a decorated call that fails. *)
Lemma attempt_loop_failure_frame {X} (f : HILIGHTINGInstance -> X) :
  (forall self h e,
      outcome (func self h) = Raise e -> f (state_after (func self h)) = f self) ->
  forall attempts self h e,
    outcome (attempt_loop name func attempts self h) = Raise e ->
    f (state_after (attempt_loop name func attempts self h)) = f self.
Proof.
  intros Hf attempts. induction attempts as [|attempt rest IH]; intros self h e; [done|].
  rewrite attempt_loop_cons. specialize (Hf self h).
  destruct (func self h) as [[[a|err] self1] e1]; [done|].
  specialize (Hf err eq_refl).
  destruct (transient err); [|done].
  destruct (attempt =? DEFAULT_ATTEMPTS - 1); [done|].
  run_proj. intros E. by rewrite (IH _ _ _ E).
Qed.

(** What holds of the state and events of every attempt that returns,
    and keeps holding when earlier events are put in front, holds of a
    decorated call that returns a value. *)
Lemma attempt_loop_success (Q : HILIGHTINGInstance -> list event -> Prop) :
  (forall self h a,
      outcome (func self h) = Ok a ->
      Q (state_after (func self h)) (emitted (func self h))) ->
  (forall s pre e, Q s e -> Q s (pre ++ e)) ->
  forall attempts self h v,
    outcome (attempt_loop name func attempts self h) = Ok (Some v) ->
    Q (state_after (attempt_loop name func attempts self h))
      (emitted (attempt_loop name func attempts self h)).
Proof.
  intros Hf Hpre attempts.
  induction attempts as [|attempt rest IH]; intros self h v; [done|].
  rewrite attempt_loop_cons. specialize (Hf self h).
  destruct (func self h) as [[[a|err] self1] e1]; [intros _; by apply (Hf a)|].
  destruct (transient err); [|done].
  destruct (attempt =? DEFAULT_ATTEMPTS - 1); [done|].
  run_proj. intros E. do 2 apply Hpre. by apply (IH _ _ v).
Qed.

(** A property of the writes of every attempt is a property of the
    writes of the decorated call: the decorator itself never writes. *)
Lemma attempt_loop_writes (P : list Z * res unit -> Prop) :
  (forall self h, Forall P (writes (emitted (func self h)))) ->
  forall attempts self h,
    Forall P (writes (emitted (attempt_loop name func attempts self h))).
Proof.
  intros Hf attempts.
  induction attempts as [|attempt rest IH]; intros self h; [by constructor|].
  rewrite attempt_loop_cons. specialize (Hf self h).
  destruct (func self h) as [[[a|err] self1] e1]; [done|].
  destruct (transient err); [|done].
  destruct (attempt =? DEFAULT_ATTEMPTS - 1); run_proj.
  - rewrite writes_app. apply Forall_app. by split.
  - rewrite !writes_app. repeat (apply Forall_app; split); [done|done|apply IH].
Qed.

End Decorator.

(** ** The command bodies *)

Lemma bytearray_inv l p : bytearray l = Ok p -> p = l.
Proof. unfold bytearray. case_match; congruence. Qed.

Lemma bytearray_ok l : Forall (fun x => 0 <= x < 256) l -> bytearray l = Ok l.
Proof.
  intros H. unfold bytearray.
  replace (forallb _ l) with true; [done|].
  symmetry. apply forallb_forall. intros x Hx.
  rewrite Forall_forall in H. specialize (H x (proj2 (list_elem_of_In _ _) Hx)).
  apply andb_true_iff. split; [apply Z.leb_le | apply Z.ltb_lt]; lia.
Qed.

Section Bodies.

Variable T : transport.

Lemma calm_write data : calm (_write T data).
Proof. intros self h. by destruct (write_run T data self h) as (_ & ? & ? & _). Qed.

Lemma calm_then_assign {A} (m : M A) f : calm m -> calm (m ;; assign f).
Proof.
  intros Hm self h. rewrite then_assign. specialize (Hm self h).
  by destruct (outcome (m self h)).
Qed.

Lemma writes_only_write p : writes_only p (_write T p).
Proof.
  intros self h.
  destruct (write_run T p self h) as (_ & _ & _ & [(e & Ho & Hw)|(pre & c & ch & He & Hw)]).
  - rewrite Hw, Ho. by split.
  - rewrite He at 1. rewrite writes_app, Hw. split.
    + by repeat constructor.
    + intros [] Ho. exists pre, c, ch. by rewrite He at 1; rewrite Ho.
Qed.

Lemma writes_only_then_assign {A} p (m : M A) f :
  writes_only p m -> writes_only p (m ;; assign f).
Proof.
  intros Hm self h. rewrite then_assign. destruct (Hm self h) as [Hw Ho].
  destruct (outcome (m self h)) as [a|e] eqn:E; run_proj; [|done].
  split; [done|]. intros _ _. by apply (Ho a).
Qed.

(** The bodies, reduced to [_write] and the assignment after it. *)
Lemma turn_on_body_run self h :
  turn_on_body T self h = (_write T (_turn_on_cmd self) ;; assign (upd_is_on true)) self h.
Proof. unfold turn_on_body. by rewrite bind_get. Qed.

Lemma turn_off_body_run self h :
  turn_off_body T self h = (_write T (_turn_off_cmd self) ;; assign (upd_is_on false)) self h.
Proof. unfold turn_off_body. by rewrite bind_get. Qed.

Lemma set_rgb_color_body_run rgb self h :
  set_rgb_color_body T rgb self h =
    match bytearray [0x55; 0x07; 0x01; rgb.1.1; rgb.1.2; rgb.2] with
    | Ok packet => (_write T packet ;; assign (upd_effect EFFECT_OFF)) (upd_rgb_color rgb self) h
    | Raise e => (Raise e, upd_rgb_color rgb self, [])
    end.
Proof.
  unfold set_rgb_color_body. rewrite bind_assign.
  destruct (bytearray _); [by rewrite bind_lift_ok | by rewrite bind_lift_raise].
Qed.

Lemma set_brightness_body_run brightness self h :
  set_brightness_body T brightness self h =
    match brightness_byte brightness with
    | Ok b =>
        match bytearray [0x55; 0x03; 0x01; 0xff; b] with
        | Ok packet => _write T packet (upd_brightness brightness self) h
        | Raise e => (Raise e, upd_brightness brightness self, [])
        end
    | Raise e => (Raise e, upd_brightness brightness self, [])
    end.
Proof.
  unfold set_brightness_body. rewrite bind_assign.
  destruct (brightness_byte _); [rewrite bind_lift_ok | by rewrite bind_lift_raise].
  destruct (bytearray _); [by rewrite bind_lift_ok | by rewrite bind_lift_raise].
Qed.

Lemma set_effect_body_run effect self h :
  set_effect_body T effect self h =
    match EFFECT_MAP !! effect with
    | None => (Ok tt, self, [EvLog ERROR (UnsupportedEffect effect)])
    | Some effect_id =>
        match bytearray [0x55; 0x04; 0x01; effect_id] with
        | Ok packet => (_write T packet ;; assign (upd_effect effect)) self h
        | Raise e => (Raise e, self, [])
        end
    end.
Proof.
  unfold set_effect_body. destruct (EFFECT_MAP !! effect); [|done].
  destruct (bytearray _); [by rewrite bind_lift_ok | by rewrite bind_lift_raise].
Qed.

Lemma set_effect_speed_body_run speed self h :
  set_effect_speed_body T speed self h =
    match speed_byte speed with
    | Ok b =>
        match bytearray [0x55; 0x04; 0x04; b] with
        | Ok packet => _write T packet self h
        | Raise e => (Raise e, self, [])
        end
    | Raise e => (Raise e, self, [])
    end.
Proof.
  unfold set_effect_speed_body.
  destruct (speed_byte _); [rewrite bind_lift_ok | by rewrite bind_lift_raise].
  destruct (bytearray _); [by rewrite bind_lift_ok | by rewrite bind_lift_raise].
Qed.

(** No body sleeps, and none logs what the decorator logs. *)
Lemma calm_body c : calm (body T c).
Proof.
  intros self h. destruct c; cbn [body].
  - rewrite turn_on_body_run. apply calm_then_assign, calm_write.
  - rewrite turn_off_body_run. apply calm_then_assign, calm_write.
  - rewrite set_rgb_color_body_run. case_match; [|done].
    apply calm_then_assign, calm_write.
  - rewrite set_brightness_body_run. repeat case_match; try done. apply calm_write.
  - rewrite set_effect_body_run. repeat case_match; try done.
    apply calm_then_assign, calm_write.
  - rewrite set_effect_speed_body_run. repeat case_match; try done. apply calm_write.
Qed.

End Bodies.

(** The scenario of the module's use: each command on a fresh instance. *)
Example turn_on_lamp :
  turn_on T_ok lamp [] =
    (Ok (Some tt),
     upd_is_on true
       (upd_disconnect_timer (Some 2%nat)
          (upd_cached_services (Some (fun _ => Some 7%nat))
             (upd_client (Some 1%nat)
                (upd_model_number_char (Some 7%nat)
                   (upd_firmware_revision_char (Some 7%nat)
                      (upd_manufacturer_name_char (Some 7%nat)
                         (upd_write_uuid (Some 7%nat) lamp))))))),
     [EvLog DEBUG (Connecting "HILIGHTING-4A:2F"); EvEstablish (Ok 1%nat);
      EvCallLater 2%nat 30; EvWrite 1%nat (Some 7%nat) [0x55; 0x01; 0x02; 0x01] (Ok tt)]).
Proof. reflexivity. Qed.

Example set_brightness_200 :
  writes (emitted (set_brightness T_ok 200 lamp [])) = [([0x55; 0x03; 0x01; 0xff; 0x0c], Ok tt)].
Proof. reflexivity. Qed.

Example set_effect_3 :
  writes (emitted (set_effect T_ok "Effect 3" lamp [])) = [([0x55; 0x04; 0x01; 0x03], Ok tt)]
  /\ _effect (state_after (set_effect T_ok "Effect 3" lamp [])) = "Effect 3".
Proof. split; reflexivity. Qed.

(** ** Properties *)

(** *** The retry policy *)

(** C4.  When the three attempts of a command each raise an exception of
    a retrying clause ([BleakDBusError] or another member of
    [BLEAK_RETRY_EXCEPTIONS]), the decorated call consists of exactly
    these three runs of the body, with a warning and one sleep of
    [BLEAK_BACKOFF_TIME] = 250 ms after the first and after the second,
    an error message and no sleep after the third, and it raises what
    the third attempt raised. *)
Theorem retry_exhausted_after_three_attempts T c self h e1 e2 e3 :
  let a1 := body T c self h in
  let pause1 := backoff (state_after a1) (func_name c) 0 e1 in
  let h1 := h ++ emitted a1 ++ pause1 in
  let a2 := body T c (state_after a1) h1 in
  let pause2 := backoff (state_after a2) (func_name c) 1 e2 in
  let h2 := h1 ++ emitted a2 ++ pause2 in
  let a3 := body T c (state_after a2) h2 in
  outcome a1 = Raise e1 -> transient e1 = true ->
  outcome a2 = Raise e2 -> transient e2 = true ->
  outcome a3 = Raise e3 -> transient e3 = true ->
  invoke T c self h =
    (Raise e3, state_after a3,
     emitted a1 ++ pause1 ++ emitted a2 ++ pause2 ++ emitted a3
       ++ giving_up (state_after a3) (func_name c) e3) /\
  sleeps (emitted (invoke T c self h)) = [BLEAK_BACKOFF_TIME; BLEAK_BACKOFF_TIME] /\
  length (retry_logs (emitted (invoke T c self h))) = 3%nat /\
  (BLEAK_BACKOFF_TIME * 1000 == 250)%Q.
Proof.
  intros a1 pause1 h1 a2 pause2 h2 a3 O1 T1 O2 T2 O3 T3.
  assert (invoke T c self h =
    (Raise e3, state_after a3,
     emitted a1 ++ pause1 ++ emitted a2 ++ pause2 ++ emitted a3
       ++ giving_up (state_after a3) (func_name c) e3)) as E.
  { rewrite invoke_unfold, attempt_loop_cons.
    rewrite (run_split (body T c self h)). fold a1. rewrite O1, T1.
    change (0 =? DEFAULT_ATTEMPTS - 1) with false. cbv iota zeta.
    fold pause1 h1. rewrite attempt_loop_cons.
    rewrite (run_split (body T c (state_after a1) h1)). fold a2. rewrite O2, T2.
    change (1 =? DEFAULT_ATTEMPTS - 1) with false. cbv iota zeta.
    fold pause2 h2. rewrite attempt_loop_cons.
    rewrite (run_split (body T c (state_after a2) h2)). fold a3. rewrite O3, T3.
    change (2 =? DEFAULT_ATTEMPTS - 1) with true. cbv iota.
    by run_proj. }
  split; [exact E|]. rewrite E. run_proj.
  destruct (calm_body T c self h) as [S1 L1].
  destruct (calm_body T c (state_after a1) h1) as [S2 L2].
  destruct (calm_body T c (state_after a2) h2) as [S3 L3].
  fold a1 in S1, L1. fold a2 in S2, L2. fold a3 in S3, L3.
  rewrite !sleeps_app, !retry_logs_app, S1, S2, S3, L1, L2, L3.
  repeat split.
  unfold pause1, pause2, backoff, giving_up. cbn.
  by destruct (exn_class_of e1), (exn_class_of e2).
Qed.

Lemma retry_exhausted_after_three_attempts_witness :
  outcome (invoke T_down TurnOn lamp []) = Raise (Exn BleakDBusError "org.bluez.Error.Failed") /\
  sleeps (emitted (invoke T_down TurnOn lamp [])) = [BLEAK_BACKOFF_TIME; BLEAK_BACKOFF_TIME] /\
  length (retry_logs (emitted (invoke T_down TurnOn lamp []))) = 3%nat /\
  length (establishes (emitted (invoke T_down TurnOn lamp []))) = 3%nat.
Proof.
  pose proof (retry_exhausted_after_three_attempts T_down TurnOn lamp []
    (Exn BleakDBusError "org.bluez.Error.Failed")
    (Exn BleakDBusError "org.bluez.Error.Failed")
    (Exn BleakDBusError "org.bluez.Error.Failed")
    eq_refl eq_refl eq_refl eq_refl eq_refl eq_refl) as (E & S & L & _).
  split; [by rewrite E|]. split; [exact S|]. split; [exact L | reflexivity].
Defined.

(** C5.  When an attempt of a command raises [BleakNotFoundError], the
    decorated call is that one run of the body and nothing more: the
    exception goes to the caller, there is no sleep and no retry.  The
    same holds at any later iteration of the loop: whatever attempts
    were still to make, none is made after a [BleakNotFoundError]. *)
Theorem not_found_is_raised_at_once T c self h e :
  outcome (body T c self h) = Raise e ->
  exn_class_of e = BleakNotFoundError ->
  invoke T c self h =
    (Raise e, state_after (body T c self h), emitted (body T c self h)) /\
  sleeps (emitted (invoke T c self h)) = [] /\
  retry_logs (emitted (invoke T c self h)) = [] /\
  (forall attempt rest,
      attempt_loop (func_name c) (body T c) (attempt :: rest) self h =
        (Raise e, state_after (body T c self h), emitted (body T c self h))).
Proof.
  intros O C.
  assert (forall attempt rest,
      attempt_loop (func_name c) (body T c) (attempt :: rest) self h =
        (Raise e, state_after (body T c self h), emitted (body T c self h))) as E.
  { intros attempt rest. rewrite attempt_loop_cons.
    rewrite (run_split (body T c self h)) at 1. rewrite O.
    unfold transient. by rewrite C. }
  rewrite invoke_unfold, E. run_proj.
  split; [done|]. destruct (calm_body T c self h) as [S L]. by rewrite S, L.
Qed.

Lemma not_found_is_raised_at_once_witness :
  invoke T_unknown TurnOn lamp [] =
    (Raise (Exn BleakNotFoundError "device not found"), lamp,
     [EvLog DEBUG (Connecting "HILIGHTING-4A:2F");
      EvEstablish (Raise (Exn BleakNotFoundError "device not found"))]).
Proof.
  exact (proj1 (not_found_is_raised_at_once T_unknown TurnOn lamp []
                  (Exn BleakNotFoundError "device not found") eq_refl eq_refl)).
Defined.

(** *** The wire bytes *)

(** Checking a decidable property of the integers [0 .. n-1] by running
    it on each. *)
Lemma forall_range (P : Z -> bool) (n : Z) :
  forallb P (range n) = true -> forall z, 0 <= z < n -> P z = true.
Proof.
  intros H z Hz. rewrite forallb_forall in H. apply H.
  unfold range. apply in_map_iff. exists (Z.to_nat z). split; [lia|].
  apply in_seq. lia.
Qed.

(** The speed byte on the documented range: the binary64 product
    [s * 2.55] truncated.  The product falls short of 255 at [s = 100];
    below, truncation gives the integer quotient of [255 * s] by 100. *)
Lemma speed_byte_table s :
  0 <= s <= 100 ->
  speed_byte s = Ok (if s =? 100 then 254 else 255 * s / 100).
Proof.
  intros Hs.
  pose proof (forall_range
    (fun s => match speed_byte s with
              | Ok b => b =? (if s =? 100 then 254 else 255 * s / 100)
              | Raise _ => false
              end) 101 ltac:(vm_compute; reflexivity) s ltac:(lia)) as H.
  cbv beta in H. destruct (speed_byte s); [|done].
  apply Z.eqb_eq in H. by subst.
Qed.

(** The brightness byte on the documented range. *)
Lemma brightness_byte_table b :
  0 <= b <= 255 -> brightness_byte b = Ok (Z.min (6 * b / 100) 15).
Proof.
  intros Hb.
  pose proof (forall_range
    (fun b => match brightness_byte b with
              | Ok x => x =? Z.min (6 * b / 100) 15
              | Raise _ => false
              end) 256 ltac:(vm_compute; reflexivity) b ltac:(lia)) as H.
  cbv beta in H. destruct (brightness_byte b); [|done].
  apply Z.eqb_eq in H. by subst.
Qed.

(** The decorated call writes what its body writes. *)
Lemma writes_only_attempt_loop {A} p name (func : M A) attempts self h :
  writes_only p func ->
  Forall (fun w => w.1 = p) (writes (emitted (attempt_loop name func attempts self h))) /\
  (forall v, outcome (attempt_loop name func attempts self h) = Ok (Some v) ->
             exists pre c char,
               emitted (attempt_loop name func attempts self h)
               = pre ++ [EvWrite c char p (Ok tt)]).
Proof.
  intros Hf. split.
  - apply attempt_loop_writes. intros s k. apply Hf.
  - intros v.
    apply (attempt_loop_success name func
             (fun _ e => exists pre c char, e = pre ++ [EvWrite c char p (Ok tt)])).
    + intros s k a Ho. by apply (proj2 (Hf s k) a).
    + intros _ pre e (pre' & c & char & ->). exists (pre ++ pre'), c, char.
      by rewrite app_assoc.
Qed.

(** C2, as the code has it.  For a speed [s] in 0..100,
    [set_effect_speed] writes nothing but the packet [55 04 04 B], and
    ends on that write when it returns, where [B] is
    [min(max(int(s * 2.55), 0), 255)]: the binary64 product truncated
    toward zero, not rounded, with nothing left for the clamp to do.
    Up to 99 that is the integer quotient of [255*s] by 100; at 50 it is
    0x7F.  [B] does not decrease when [s] grows. *)
Theorem set_effect_speed_packet T s self h :
  0 <= s <= 100 ->
  exists B,
    speed_byte s = Ok B /\
    PyFloat.int_of_scaled s PyFloat.lit_2_55 = Some B /\
    (s <= 99 -> B = 255 * s / 100) /\
    (s = 50 -> B = 0x7f) /\
    Forall (fun w => w.1 = [0x55; 0x04; 0x04; B])
      (writes (emitted (set_effect_speed T s self h))) /\
    (outcome (set_effect_speed T s self h) = Ok (Some tt) ->
     exists pre c char,
       emitted (set_effect_speed T s self h)
       = pre ++ [EvWrite c char [0x55; 0x04; 0x04; B] (Ok tt)]) /\
    (forall s' B', s <= s' <= 100 -> speed_byte s' = Ok B' -> B <= B').
Proof.
  intros Hs. pose proof (speed_byte_table s Hs) as Hb.
  set (B := if s =? 100 then 254 else 255 * s / 100) in *.
  assert (0 <= B < 256) as HS.
  { unfold B. destruct (Z.eqb_spec s 100); [lia|].
    split; [apply Z.div_pos; lia | apply Z.div_lt_upper_bound; lia]. }
  exists B. split; [exact Hb|]. split.
  { unfold speed_byte in Hb. unfold PyFloat.int_of_scaled.
    destruct (PyFloat.of_int s) as [x|] eqn:Ex; [|done].
    destruct (PyFloat.to_int _) as [n|] eqn:En; [|done].
    pose proof (forall_range
      (fun s => match PyFloat.int_of_scaled s PyFloat.lit_2_55 with
                | Some n => (0 <=? n) && (n <=? 255)
                | None => false
                end) 101 ltac:(vm_compute; reflexivity) s ltac:(lia)) as Hn.
    cbv beta in Hn. unfold PyFloat.int_of_scaled in Hn. rewrite Ex, En in Hn.
    apply andb_true_iff in Hn as [H0 H255].
    apply Z.leb_le in H0, H255. f_equal. injection Hb as <-. lia. }
  split; [unfold B; intros; destruct (Z.eqb_spec s 100); [lia|done]|].
  split; [intros ->; reflexivity|].
  assert (writes_only [0x55; 0x04; 0x04; B] (set_effect_speed_body T s)) as W.
  { intros s0 k. rewrite set_effect_speed_body_run, Hb.
    rewrite bytearray_ok by (repeat constructor; lia).
    apply writes_only_write. }
  unfold set_effect_speed, retry_bluetooth_connection_error.
  destruct (writes_only_attempt_loop _ "set_effect_speed" _
              (range DEFAULT_ATTEMPTS) self h W) as [W1 W2].
  split; [exact W1|]. split; [apply W2|].
  intros s' B' Hs' Hb'. rewrite speed_byte_table in Hb' by lia. injection Hb' as <-.
  unfold B. destruct (Z.eqb_spec s 100), (Z.eqb_spec s' 100); try lia.
  - apply Z.div_le_upper_bound; lia.
  - apply Z.div_le_mono; lia.
Qed.

Lemma set_effect_speed_packet_witness :
  writes (emitted (set_effect_speed T_ok 50 lamp [])) = [([0x55; 0x04; 0x04; 0x7f], Ok tt)]
  /\ exists B, speed_byte 50 = Ok B /\ B = 0x7f.
Proof.
  split; [reflexivity|].
  destruct (set_effect_speed_packet T_ok 50 lamp [] ltac:(lia)) as (B & Hb & _ & _ & H50 & _).
  exists B. split; [exact Hb | exact (H50 eq_refl)].
Defined.

(** C2 as the specification words it fails at the specification's own
    example: for speed 50 the formula [clamp(round(s*2.55), 0, 255)]
    gives 0x80, and the packet written carries 0x7F. *)
Lemma set_effect_speed_50_is_not_0x80 :
  spec_speed_byte 50 = 0x80 /\
  writes (emitted (set_effect_speed T_ok 50 lamp [])) = [([0x55; 0x04; 0x04; 0x7f], Ok tt)] /\
  ~ Forall (fun w => w.1 = [0x55; 0x04; 0x04; spec_speed_byte 50])
      (writes (emitted (set_effect_speed T_ok 50 lamp []))).
Proof.
  split; [reflexivity|]. split; [reflexivity|].
  intros H. apply Forall_inv in H. discriminate H.
Qed.

(** C6.  For a brightness [b] in 0..255, [set_brightness] writes nothing
    but the packet [55 03 01 FF B], and ends on that write when it
    returns, where [B] is [min(floor(b*0.06), 15)]; [B] does not
    decrease when [b] grows. *)
Theorem set_brightness_packet T b self h :
  0 <= b <= 255 ->
  brightness_byte b = Ok (spec_brightness_byte b) /\
  Forall (fun w => w.1 = [0x55; 0x03; 0x01; 0xff; spec_brightness_byte b])
    (writes (emitted (set_brightness T b self h))) /\
  (outcome (set_brightness T b self h) = Ok (Some tt) ->
   exists pre c char,
     emitted (set_brightness T b self h)
     = pre ++ [EvWrite c char [0x55; 0x03; 0x01; 0xff; spec_brightness_byte b] (Ok tt)]) /\
  (forall b', b <= b' <= 255 -> spec_brightness_byte b <= spec_brightness_byte b').
Proof.
  intros Hb. pose proof (brightness_byte_table b Hb) as E.
  fold (spec_brightness_byte b) in E.
  assert (0 <= spec_brightness_byte b < 256) as HB.
  { unfold spec_brightness_byte. split; [|lia].
    apply Z.min_glb; [apply Z.div_pos; lia | lia]. }
  split; [exact E|].
  assert (writes_only [0x55; 0x03; 0x01; 0xff; spec_brightness_byte b]
            (set_brightness_body T b)) as W.
  { intros s0 k. rewrite set_brightness_body_run, E.
    rewrite bytearray_ok by (repeat constructor; lia).
    apply writes_only_write. }
  unfold set_brightness, retry_bluetooth_connection_error.
  destruct (writes_only_attempt_loop _ "set_brightness" _
              (range DEFAULT_ATTEMPTS) self h W) as [W1 W2].
  split; [exact W1|]. split; [apply W2|].
  intros b' Hb'. unfold spec_brightness_byte.
  apply Z.min_le_compat_r, Z.div_le_mono; lia.
Qed.

Lemma set_brightness_packet_witness :
  brightness_byte 200 = Ok 12 /\
  writes (emitted (set_brightness T_ok 200 lamp [])) = [([0x55; 0x03; 0x01; 0xff; 0x0c], Ok tt)].
Proof.
  split; [|reflexivity].
  exact (proj1 (set_brightness_packet T_ok 200 lamp [] ltac:(lia))).
Defined.

(** *** Effects *)

Lemma EFFECT_LIST_closed :
  EFFECT_LIST =
    ["Effect 0"; "Effect 1"; "Effect 2"; "Effect 3"; "Effect 4";
     "Effect 5"; "Effect 6"; "Effect 7"; "Effect 8"; "Effect 9"].
Proof. reflexivity. Qed.

Lemma EFFECT_MAP_unknown effect : effect ∉ EFFECT_LIST -> EFFECT_MAP !! effect = None.
Proof. intros H. by apply not_elem_of_list_to_map_1. Qed.

Lemma EFFECT_MAP_known (i : nat) :
  (i < 10)%nat -> EFFECT_MAP !! effect_name i = Some (Z.of_nat i).
Proof.
  intros H. do 10 (destruct i as [|i]; [reflexivity|]). lia.
Qed.

(** C7.  [set_effect] with a name outside "Effect 0" .. "Effect 9"
    returns without raising, leaves the whole instance as it was, and
    does nothing to the outside but log the name: no write. *)
Theorem set_effect_unsupported_name T effect self h :
  effect ∉ ["Effect 0"; "Effect 1"; "Effect 2"; "Effect 3"; "Effect 4";
            "Effect 5"; "Effect 6"; "Effect 7"; "Effect 8"; "Effect 9"] ->
  set_effect T effect self h
  = (Ok (Some tt), self, [EvLog ERROR (UnsupportedEffect effect)]) /\
  writes (emitted (set_effect T effect self h)) = [] /\
  reported (state_after (set_effect T effect self h)) = reported self.
Proof.
  intros H. rewrite <- EFFECT_LIST_closed in H. apply EFFECT_MAP_unknown in H.
  assert (set_effect T effect self h
          = (Ok (Some tt), self, [EvLog ERROR (UnsupportedEffect effect)])) as E.
  { unfold set_effect, retry_bluetooth_connection_error.
    rewrite range_DEFAULT_ATTEMPTS, attempt_loop_cons, set_effect_body_run. by rewrite H. }
  by rewrite E.
Qed.

Lemma set_effect_unsupported_name_witness :
  set_effect T_ok "Effect 10" lamp []
  = (Ok (Some tt), lamp, [EvLog ERROR (UnsupportedEffect "Effect 10")]).
Proof.
  refine (proj1 (set_effect_unsupported_name T_ok "Effect 10" lamp [] _)).
  intros H. repeat (apply elem_of_cons in H as [H|H]; [discriminate H|]).
  by apply elem_of_nil in H.
Defined.

(** *** Colour *)

(** C8.  A [set_rgb_color] that returns has written the packet
    [55 07 01 R G B] as its last action and nothing else to the
    characteristic, reports the colour [(r, g, b)] and reports the
    effect "off", whatever was reported before; the on/off flag, the
    brightness and the colour mode are as before. *)
Theorem set_rgb_color_success T r g b self h :
  outcome (set_rgb_color T (r, g, b) self h) = Ok (Some tt) ->
  let self' := state_after (set_rgb_color T (r, g, b) self h) in
  (exists pre c char,
      emitted (set_rgb_color T (r, g, b) self h)
      = pre ++ [EvWrite c char [0x55; 0x07; 0x01; r; g; b] (Ok tt)]) /\
  Forall (fun w => w.1 = [0x55; 0x07; 0x01; r; g; b])
    (writes (emitted (set_rgb_color T (r, g, b) self h))) /\
  _rgb_color self' = (r, g, b) /\
  _effect self' = EFFECT_OFF /\
  EFFECT_OFF = "off" /\
  _is_on self' = _is_on self /\
  _brightness self' = _brightness self /\
  _color_mode self' = _color_mode self.
Proof.
  intros Ho self'. subst self'.
  unfold set_rgb_color, retry_bluetooth_connection_error in *.
  set (p := [0x55; 0x07; 0x01; r; g; b]).
  assert (writes_only p (set_rgb_color_body T (r, g, b))) as W.
  { intros s k. rewrite set_rgb_color_body_run. cbn [fst snd]. fold p.
    destruct (bytearray p) as [packet|e] eqn:Eb; [|by split].
    apply bytearray_inv in Eb as ->.
    apply writes_only_then_assign, writes_only_write. }
  destruct (writes_only_attempt_loop _ "set_rgb_color" _
              (range DEFAULT_ATTEMPTS) self h W) as [W1 W2].
  split; [by apply (W2 tt)|]. split; [exact W1|].
  split; [|split; [|split; [done|]]].
  - apply (attempt_loop_success "set_rgb_color" (set_rgb_color_body T (r, g, b))
             (fun s _ => _rgb_color s = (r, g, b))) with (v := tt); [|done|done].
    intros s k a. rewrite set_rgb_color_body_run. cbn [fst snd].
    destruct (bytearray _); [|done]. rewrite then_assign.
    destruct (write_run T a0 (upd_rgb_color (r, g, b) s) k) as (R & _).
    destruct (outcome (_write T a0 _ k)); [|done]. intros _. run_proj.
    unfold reported in R. by simplify_eq/=.
  - apply (attempt_loop_success "set_rgb_color" (set_rgb_color_body T (r, g, b))
             (fun s _ => _effect s = EFFECT_OFF)) with (v := tt); [|done|done].
    intros s k a. rewrite set_rgb_color_body_run. cbn [fst snd].
    destruct (bytearray _); [|done]. rewrite then_assign.
    by destruct (outcome (_write T a0 _ k)).
  - assert (forall s k,
      (_is_on (state_after (set_rgb_color_body T (r, g, b) s k)),
       _brightness (state_after (set_rgb_color_body T (r, g, b) s k)),
       _color_mode (state_after (set_rgb_color_body T (r, g, b) s k)))
      = (_is_on s, _brightness s, _color_mode s)) as F.
    { intros s k. rewrite set_rgb_color_body_run. cbn [fst snd].
      destruct (bytearray _); [|done]. rewrite then_assign.
      destruct (write_run T a (upd_rgb_color (r, g, b) s) k) as (R & _).
      unfold reported in R.
      destruct (outcome (_write T a _ k)); run_proj;
        cbn [_is_on _rgb_color _brightness _effect _color_mode upd_effect upd_rgb_color]
          in *; congruence. }
    pose proof (attempt_loop_frame "set_rgb_color" (set_rgb_color_body T (r, g, b))
                  (fun s => (_is_on s, _brightness s, _color_mode s)) F
                  (range DEFAULT_ATTEMPTS) self h) as G.
    cbv beta in G. by simplify_eq.
Qed.

Lemma set_rgb_color_success_witness :
  _effect (upd_effect "Effect 3" lamp) = "Effect 3" /\
  writes (emitted (set_rgb_color T_ok (10, 20, 30) (upd_effect "Effect 3" lamp) []))
  = [([0x55; 0x07; 0x01; 0x0a; 0x14; 0x1e], Ok tt)] /\
  _rgb_color (state_after (set_rgb_color T_ok (10, 20, 30) (upd_effect "Effect 3" lamp) []))
  = (10, 20, 30) /\
  _effect (state_after (set_rgb_color T_ok (10, 20, 30) (upd_effect "Effect 3" lamp) []))
  = "off".
Proof.
  destruct (set_rgb_color_success T_ok 10 20 30 (upd_effect "Effect 3" lamp) [] eq_refl)
    as (_ & _ & C & E & _).
  split; [reflexivity|]. split; [reflexivity|]. split; [exact C | exact E].
Defined.

(** *** Reported state *)

(** C10.  [set_effect_speed] never changes the reported state: the
    on/off flag, the colour, the brightness, the effect and the colour
    mode after the call are those before it, whether it returned or
    raised. *)
Theorem set_effect_speed_keeps_reported T speed self h :
  reported (state_after (set_effect_speed T speed self h)) = reported self.
Proof.
  unfold set_effect_speed, retry_bluetooth_connection_error.
  apply (attempt_loop_frame "set_effect_speed" (set_effect_speed_body T speed) reported).
  intros s k. rewrite set_effect_speed_body_run.
  repeat case_match; try done. apply write_run.
Qed.

(** The four commands that assign after the write: when the decorated
    call raises, the reported state is the one before the call. *)
Lemma assign_after_write_failure T c self h e :
  match c with SetRgbColor _ | SetBrightness _ => False | _ => True end ->
  outcome (invoke T c self h) = Raise e ->
  reported (state_after (invoke T c self h)) = reported self.
Proof.
  intros Hc. rewrite invoke_unfold.
  apply attempt_loop_failure_frame. clear self h e. intros self h e.
  destruct c; try done; cbn [body].
  - rewrite turn_on_body_run, then_assign.
    destruct (outcome (_write T _ self h)) eqn:E; [done|]. intros _. apply write_run.
  - rewrite turn_off_body_run, then_assign.
    destruct (outcome (_write T _ self h)) eqn:E; [done|]. intros _. apply write_run.
  - rewrite set_effect_body_run. repeat case_match; try done.
    rewrite then_assign.
    destruct (outcome (_write T _ self h)) eqn:E; [done|]. intros _. apply write_run.
  - rewrite set_effect_speed_body_run. repeat case_match; try done.
    intros _. apply write_run.
Qed.

(** C1 fails on [set_rgb_color] and [set_brightness], which assign
    before they write.  Out of range ([T_down]: three attempts, all
    failing on the bus), [set_rgb_color((10, 20, 30))] raises and the
    reported colour is (10, 20, 30), no longer (255, 255, 255); at an
    unknown address ([T_unknown]), [set_brightness(10)] raises at once
    and the reported brightness is 10, no longer 255. *)
Theorem failed_command_changes_reported_state :
  (outcome (set_rgb_color T_down (10, 20, 30) lamp [])
   = Raise (Exn BleakDBusError "org.bluez.Error.Failed") /\
   writes (emitted (set_rgb_color T_down (10, 20, 30) lamp [])) = [] /\
   _rgb_color lamp = (255, 255, 255) /\
   _rgb_color (state_after (set_rgb_color T_down (10, 20, 30) lamp [])) = (10, 20, 30)) /\
  (outcome (set_brightness T_unknown 10 lamp [])
   = Raise (Exn BleakNotFoundError "device not found") /\
   writes (emitted (set_brightness T_unknown 10 lamp [])) = [] /\
   _brightness lamp = 255 /\
   _brightness (state_after (set_brightness T_unknown 10 lamp [])) = 10).
Proof. repeat split; reflexivity. Qed.

(** *** Idle disconnect *)

(** C3, as the code has it.  When [_execute_disconnect] has run to its
    end, [_client] and [_write_uuid] are [None]; the references to the
    manufacturer, firmware and model characteristics are the ones
    before the call. *)
Theorem execute_disconnect_clears T self h :
  outcome (_execute_disconnect T self h) = Ok tt ->
  let self' := state_after (_execute_disconnect T self h) in
  _client self' = None /\
  _write_uuid self' = None /\
  _manufacturer_name_char self' = _manufacturer_name_char self /\
  _firmware_revision_char self' = _firmware_revision_char self /\
  _model_number_char self' = _model_number_char self.
Proof.
  unfold _execute_disconnect, client_and_connected, client_disconnect, is_connected,
    LOGGER, bind, get, assign, emit, ret, outcome, state_after.
  destruct (_client self) as [c|] eqn:Ec; cbn; [|done].
  destruct (t_is_connected T (h ++ []) c); cbn; [|done].
  rewrite Ec. by destruct (t_disconnect T _ c) as [[]|e].
Qed.

Lemma execute_disconnect_clears_witness :
  _client (state_after (_execute_disconnect T_ok lamp_connected (emitted (turn_on T_ok lamp []))))
  = None /\
  _write_uuid
    (state_after (_execute_disconnect T_ok lamp_connected (emitted (turn_on T_ok lamp []))))
  = None.
Proof.
  destruct (execute_disconnect_clears T_ok lamp_connected (emitted (turn_on T_ok lamp []))
              eq_refl) as (C & W & _).
  by split.
Defined.

(** C3 as the specification words it fails: after a command on a light
    in range and then the idle disconnect, which does disconnect the
    client, the three information characteristics are still set. *)
Lemma execute_disconnect_keeps_info_characteristics :
  let h := emitted (turn_on T_ok lamp []) in
  let self' := state_after (_execute_disconnect T_ok lamp_connected h) in
  outcome (_execute_disconnect T_ok lamp_connected h) = Ok tt /\
  emitted (_execute_disconnect T_ok lamp_connected h)
  = [EvDisconnect 1%nat (Ok tt); EvLog DEBUG (Disconnected "HILIGHTING-4A:2F")] /\
  _client self' = None /\
  _write_uuid self' = None /\
  _manufacturer_name_char self' = Some 7%nat /\
  _firmware_revision_char self' = Some 7%nat /\
  _model_number_char self' = Some 7%nat /\
  ~ (_client self' = None /\ _write_uuid self' = None /\
     _manufacturer_name_char self' = None /\ _firmware_revision_char self' = None /\
     _model_number_char self' = None).
Proof.
  repeat split; try reflexivity. intros (_ & _ & H & _). discriminate H.
Qed.

(** ** Coroutines calling [_ensure_connected] at the same time: properties *)

Import Interleaving.

(** *** The blocks, by the state they start in *)

Section BlockLemmas.

Variable T : transport.

Lemma reset_disconnect_timer_establishes self h :
  establishes (emitted (_reset_disconnect_timer T self h)) = [].
Proof.
  unfold _reset_disconnect_timer, bind, get, assign, emit, ret, call_later; simpl.
  repeat case_match; simplify_eq; done.
Qed.

Lemma then_ret {A B} (m : M A) (v : B) self h :
  (m ;; ret v) self h =
    match outcome (m self h) with
    | Ok _ => (Ok v, state_after (m self h), emitted (m self h))
    | Raise e => (Raise e, state_after (m self h), emitted (m self h))
    end.
Proof.
  unfold bind, ret. destruct (m self h) as [[[a|e] self1] e1]; cbn; [|done].
  by rewrite app_nil_r.
Qed.

Lemma resolve_characteristics_run svc self h :
  _resolve_characteristics svc self h
  = (Ok (forallb (fun x : option characteristic => bool_decide (is_Some x))
           [svc WRITE_CHARACTERISTIC_UUID; svc MANUFACTURER_NAME_UUID;
            svc FIRMWARE_REVISION_UUID; svc SW_NUMBER_UUID]),
     resolved svc self, []).
Proof. reflexivity. Qed.

Lemma finish_connect_run c self h :
  outcome (finish_connect T c self h) = Ok tt /\
  _client (state_after (finish_connect T c self h)) = Some c /\
  establishes (emitted (finish_connect T c self h)) = [].
Proof.
  unfold finish_connect. rewrite bind_assign.
  erewrite bind_ok by reflexivity. run_proj. rewrite bind_assign. cbn [app].
  match goal with
  | |- context [_reset_disconnect_timer T ?s ?k] =>
      destruct (reset_disconnect_timer_ok T s k) as (-> & -> & _)
  end.
  by rewrite reset_disconnect_timer_establishes.
Qed.

(** A connected client is found by either check: the timer is
    rearmed and the coroutine is done. *)
Lemma block_connected (m : M pc) c self h :
  (m = block_top T true \/ m = block_top T false \/ m = block_locked T) ->
  _client self = Some c ->
  t_is_connected T h c = true ->
  outcome (m self h) = Ok (Finished (Ok tt)) /\
  _client (state_after (m self h)) = Some c /\
  establishes (emitted (m self h)) = [].
Proof.
  intros Hm Hc Hconn.
  assert (m self h = (_reset_disconnect_timer T ;; ret (Finished (Ok tt))) self h) as ->.
  { destruct Hm as [->|[->| ->]]; unfold block_top, block_locked;
      rewrite (bind_ok _ _ _ _ _ _ _ (client_and_connected_run T self h)),
        Hc, Hconn, app_nil_r; cbn [app]; by rewrite <- run_split. }
  rewrite then_ret.
  destruct (reset_disconnect_timer_ok T self h) as (-> & Hcl & _).
  pose proof (reset_disconnect_timer_establishes self h) as He.
  run_proj. split; [done|]. split; [congruence | exact He].
Qed.

Lemma block_top_disconnected lock_held self h :
  _client self = None ->
  block_top T lock_held self h
  = if lock_held then (Ok WaitLock, self, []) else block_locked T self h.
Proof.
  intros Hc. unfold block_top.
  rewrite (bind_ok _ _ _ _ _ _ _ (client_and_connected_run T self h)), Hc, app_nil_r.
  cbn [app]. destruct lock_held; [done|]. by rewrite <- run_split.
Qed.

Lemma block_locked_disconnected self h :
  _client self = None ->
  block_locked T self h
  = (Ok (InEstablish (t_establish T (h ++ [EvLog DEBUG (Connecting (_name self))]))),
     self,
     [EvLog DEBUG (Connecting (_name self));
      EvEstablish (t_establish T (h ++ [EvLog DEBUG (Connecting (_name self))]))]).
Proof.
  intros Hc. unfold block_locked.
  rewrite (bind_ok _ _ _ _ _ _ _ (client_and_connected_run T self h)), Hc, app_nil_r.
  cbn [app]. run_proj. rewrite bind_get. unfold LOGGER. rewrite bind_emit.
  unfold bind, call_establish, ret. cbn. done.
Qed.

(** With a connection in hand, the coroutine finishes connecting, or
    asks for the services again; it makes no further connection. *)
Lemma block_established_run c self h :
  let x := block_established T (Ok c) self h in
  establishes (emitted x) = [] /\
  ((outcome x = Ok (Finished (Ok tt)) /\ _client (state_after x) = Some c) \/
   (exists r, outcome x = Ok (InGetServices c r) /\
              r = t_get_services T (h ++ [EvLog DEBUG InitialResolveFailed]) c /\
              _client (state_after x) = _client self)).
Proof.
  unfold block_established. rewrite bind_lift_ok.
  erewrite bind_ok by reflexivity. run_proj. cbn [app].
  erewrite bind_ok by apply resolve_characteristics_run. run_proj. cbn [app].
  destruct (forallb _ _).
  - rewrite then_ret.
    match goal with
    | |- context [finish_connect T c ?s ?k] =>
        destruct (finish_connect_run c s k) as (-> & Fc & Fe)
    end.
    run_proj. split; [done|]. by left.
  - unfold LOGGER. rewrite bind_emit. run_proj.
    unfold bind, call_get_services, ret. cbn. split; [done|]. right.
    eexists. split; [reflexivity|]. rewrite !app_nil_r. by split.
Qed.

Lemma block_refreshed_run c self h :
  let x := block_refreshed T c (Ok tt) self h in
  establishes (emitted x) = [] /\
  outcome x = Ok (Finished (Ok tt)) /\ _client (state_after x) = Some c.
Proof.
  unfold block_refreshed. rewrite bind_lift_ok.
  erewrite bind_ok by reflexivity. run_proj. cbn [app].
  erewrite bind_ok by apply resolve_characteristics_run. run_proj. cbn [app].
  rewrite then_ret.
  match goal with
  | |- context [finish_connect T c ?s ?k] =>
      destruct (finish_connect_run c s k) as (-> & Fc & Fe)
  end.
  by run_proj.
Qed.

End BlockLemmas.

(** *** One connection for all *)

Lemma waiting_settled p : waiting p -> settled p.
Proof. by left. Qed.

Lemma settled_insert (l : list pc) k0 p' :
  (forall j q, j <> k0 -> l !! j = Some q -> waiting q) ->
  settled p' ->
  Forall settled (<[k0 := p']> l).
Proof.
  intros Hw Hp. apply Forall_lookup. intros j q Hq.
  apply list_lookup_insert_Some in Hq as [(-> & -> & _) | (Hj & Hq)]; [done|].
  apply waiting_settled. by apply (Hw j q).
Qed.

Lemma step_phase T h0 k cfg cfg' :
  healthy T -> phase h0 cfg -> step T k cfg = Some cfg' -> phase h0 cfg'.
Proof.
  intros [Hest Hget Hconn] Hph Hstep. unfold step in Hstep.
  destruct (tasks cfg !! k) as [p|] eqn:Hk; [|done]. cbn in Hstep.
  destruct (next T p (locked cfg)) as [m|] eqn:Hm; [|done]. cbn in Hstep.
  injection Hstep as <-.
  destruct Hph as [new Hh He Hc Hl Hw | new k0 c p0 Hh He Hc Hl Hk0 Hp0 Hw
                   | new c Hh He Hc Hl Hs].
  - (* nobody has connected yet: the coroutine takes the lock and calls *)
    assert (m (inst cfg) (hist cfg) = block_locked T (inst cfg) (hist cfg)) as ->.
    { pose proof (proj1 (Forall_lookup _ _) Hw k p Hk) as [-> | ->];
        cbn in Hm; rewrite Hl in Hm; injection Hm as <-; [|done].
      by rewrite block_top_disconnected. }
    rewrite block_locked_disconnected by done.
    destruct (Hest (hist cfg ++ [EvLog DEBUG (Connecting (_name (inst cfg)))]))
      as [c Hc'].
    rewrite Hc'. run_proj. cbn [holds orb].
    eapply (Linking _ _ (new ++ _) k c); cbn [inst hist locked tasks].
    + by rewrite app_assoc, <- Hh.
    + by rewrite establishes_app, He.
    + done.
    + done.
    + apply list_lookup_insert_eq. by eapply lookup_lt_Some.
    + by left.
    + intros j q Hj. rewrite list_lookup_insert_ne by done.
      intros Hq. by apply (proj1 (Forall_lookup _ _) Hw j q).
  - destruct (decide (k = k0)) as [->|Hne].
    + (* the coroutine under the lock goes on *)
      rewrite Hk0 in Hk. injection Hk as <-.
      destruct Hp0 as [-> | ->]; cbn in Hm; injection Hm as <-.
      * destruct (block_established_run T c (inst cfg) (hist cfg))
          as (Ee & [[Eo Ec] | (r & Eo & Er & Ec)]); rewrite Eo.
        -- eapply (Linked _ _ (new ++ _) c); cbn [inst hist locked tasks holds orb].
           ++ by rewrite app_assoc, <- Hh.
           ++ by rewrite establishes_app, He, Ee.
           ++ done.
           ++ by rewrite andb_false_r.
           ++ apply settled_insert; [done | by right].
        -- rewrite Hget in Er. subst r.
           eapply (Linking _ _ (new ++ _) k0 c); cbn [inst hist locked tasks holds orb].
           ++ by rewrite app_assoc, <- Hh.
           ++ by rewrite establishes_app, He, Ee.
           ++ congruence.
           ++ done.
           ++ apply list_lookup_insert_eq. by eapply lookup_lt_Some.
           ++ by right.
           ++ intros j q Hj. rewrite list_lookup_insert_ne by done. by apply Hw.
      * destruct (block_refreshed_run T c (inst cfg) (hist cfg)) as (Ee & Eo & Ec).
        rewrite Eo.
        eapply (Linked _ _ (new ++ _) c); cbn [inst hist locked tasks holds orb].
        -- by rewrite app_assoc, <- Hh.
        -- by rewrite establishes_app, He, Ee.
        -- done.
        -- by rewrite andb_false_r.
        -- apply settled_insert; [done | by right].
    + (* another coroutine finds no client and the lock held: it waits *)
      destruct (Hw k p Hne Hk) as [-> | ->]; cbn in Hm; rewrite Hl in Hm; [|done].
      injection Hm as <-. rewrite block_top_disconnected by done. run_proj.
      eapply (Linking _ _ new k0 c p0); cbn [inst hist locked tasks holds orb negb andb].
      * by rewrite app_nil_r.
      * done.
      * done.
      * by rewrite Hl.
      * by rewrite list_lookup_insert_ne.
      * done.
      * intros j q Hj Hq.
        apply list_lookup_insert_Some in Hq as [(_ & <- & _) | (Hjk & Hq)]; [by right|].
        by apply (Hw j q).
  - (* connected: either check finds the client *)
    assert (Ok c ∈ establishes (hist cfg)) as Hin.
    { rewrite Hh, establishes_app, He. apply elem_of_app. right. by left. }
    assert (m = block_top T true \/ m = block_top T false \/ m = block_locked T) as Hb.
    { pose proof (proj1 (Forall_lookup _ _) Hs k p Hk) as [[-> | ->] | ->];
        cbn in Hm; rewrite ?Hl in Hm; [| |done]; injection Hm as <-; auto. }
    destruct (block_connected T m c (inst cfg) (hist cfg) Hb Hc (Hconn _ _ Hin))
      as (Eo & Ec & Ee).
    rewrite Eo.
    assert (holds p = false) as Hp.
    { by pose proof (proj1 (Forall_lookup _ _) Hs k p Hk) as [[-> | ->] | ->]. }
    eapply (Linked _ _ (new ++ _) c); cbn [inst hist locked tasks holds orb].
    + by rewrite app_assoc, <- Hh.
    + by rewrite establishes_app, He, Ee.
    + done.
    + by rewrite Hl.
    + apply Forall_insert; [done | by right].
Qed.

Lemma run_phase T h0 schedule cfg :
  healthy T -> phase h0 cfg -> phase h0 (run T schedule cfg).
Proof.
  intros HT. revert cfg. induction schedule as [|k rest IH]; intros cfg Hph; [done|].
  cbn [run]. apply IH. destruct (step T k cfg) as [cfg'|] eqn:E; [|done].
  by apply (step_phase T h0 k cfg).
Qed.

Lemma start_phase self h0 n : _client self = None -> phase h0 (start self h0 n).
Proof.
  intros Hc. apply (Unlinked _ _ []); cbn; [by rewrite app_nil_r|done..|].
  apply Forall_replicate. by left.
Qed.

(** *** Every burst runs to its end *)

Lemma lands_bind {A} P (m : M A) (k : A -> M pc) :
  (forall a, lands P (k a)) -> lands P (bind m k).
Proof.
  intros Hk self h p.
  destruct (m self h) as [[[a|e] self1] e1] eqn:E.
  - rewrite (bind_ok _ _ _ _ _ _ _ E). apply Hk.
  - by rewrite (bind_raise _ _ _ _ _ _ _ E).
Qed.

Lemma lands_ret (P : pc -> Prop) p : P p -> lands P (ret p).
Proof. intros Hp self h q [= <-]. exact Hp. Qed.

Section Forward.

Variable T : transport.

Lemma lands_block_locked : lands (fun p => (rank p <= 2)%nat) (block_locked T).
Proof.
  unfold block_locked. apply lands_bind. intros [].
  - apply lands_bind. intros _. apply lands_ret. cbn. lia.
  - do 3 (apply lands_bind; intros ?). apply lands_ret. cbn. lia.
Qed.

Lemma lands_block_top lock_held : lands (fun p => (rank p <= 3)%nat) (block_top T lock_held).
Proof.
  unfold block_top. apply lands_bind. intros [].
  - apply lands_bind. intros _. apply lands_ret. cbn. lia.
  - destruct lock_held; [apply lands_ret; cbn; lia|].
    intros self h p Hp. pose proof (lands_block_locked self h p Hp) as Hr.
    cbn beta in Hr. lia.
Qed.

Lemma lands_block_established r : lands (fun p => (rank p <= 1)%nat) (block_established T r).
Proof.
  unfold block_established. do 3 (apply lands_bind; intros ?). destruct a1.
  - apply lands_bind. intros _. apply lands_ret. cbn. lia.
  - do 2 (apply lands_bind; intros ?). apply lands_ret. cbn. lia.
Qed.

Lemma lands_block_refreshed c r : lands (fun p => (rank p <= 0)%nat) (block_refreshed T c r).
Proof.
  unfold block_refreshed. do 4 (apply lands_bind; intros ?). apply lands_ret. cbn. lia.
Qed.

(** Each block takes its coroutine strictly nearer to its end. *)
Lemma next_forward p lock_held m self h :
  next T p lock_held = Some m ->
  (rank (match outcome (m self h) with
         | Ok p' => p'
         | Raise e => Finished (Raise e)
         end) < rank p)%nat.
Proof.
  intros Hm.
  assert (forall n, lands (fun p => (rank p <= n)%nat) m -> (n < rank p)%nat ->
    (rank (match outcome (m self h) with
           | Ok p' => p'
           | Raise e => Finished (Raise e)
           end) < rank p)%nat) as Hl.
  { intros n Hn Hlt. specialize (Hn self h).
    destruct (outcome (m self h)) as [p'|e]; [|cbn; lia].
    specialize (Hn p' eq_refl). cbn beta in Hn. lia. }
  destruct p; cbn in Hm.
  - injection Hm as <-. apply (Hl 3%nat); [apply lands_block_top | cbn; lia].
  - destruct lock_held; [done|]. injection Hm as <-.
    apply (Hl 2%nat); [apply lands_block_locked | cbn; lia].
  - injection Hm as <-. apply (Hl 1%nat); [apply lands_block_established | cbn; lia].
  - injection Hm as <-. apply (Hl 0%nat); [apply lands_block_refreshed | cbn; lia].
  - done.
Qed.

Lemma sum_list_with_insert (l : list pc) k p p' :
  l !! k = Some p ->
  (sum_list_with rank (<[k := p']> l) + rank p = sum_list_with rank l + rank p')%nat.
Proof.
  revert k. induction l as [|q l IH]; intros [|k] Hk; try done; simpl in *.
  - injection Hk as ->. lia.
  - specialize (IH k Hk). lia.
Qed.

Lemma step_weight k cfg cfg' :
  step T k cfg = Some cfg' -> (weight cfg' < weight cfg)%nat.
Proof.
  unfold step. intros Hstep.
  destruct (tasks cfg !! k) as [p|] eqn:Hk; [|done]. cbn in Hstep.
  destruct (next T p (locked cfg)) as [m|] eqn:Hm; [|done]. cbn in Hstep.
  injection Hstep as <-. unfold weight. cbn [tasks].
  pose proof (next_forward p (locked cfg) m (inst cfg) (hist cfg) Hm) as Hr.
  pose proof (sum_list_with_insert (tasks cfg) k p
    (match outcome (m (inst cfg) (hist cfg)) with
     | Ok p' => p'
     | Raise e => Finished (Raise e)
     end) Hk). lia.
Qed.

End Forward.

Lemma finished_dec p : {finished p} + {~ finished p}.
Proof.
  destruct p; [right | right | right | right | left; by eexists];
    by intros [? ?].
Qed.

(** In each phase a coroutine that is not through can run, or the one
    under the lock can. *)
Lemma phase_progress T h0 cfg k p :
  phase h0 cfg ->
  tasks cfg !! k = Some p -> ~ finished p ->
  exists j cfg', step T j cfg = Some cfg'.
Proof.
  intros Hph Hk Hp.
  assert (forall j q m, tasks cfg !! j = Some q -> next T q (locked cfg) = Some m ->
                        exists j cfg', step T j cfg = Some cfg') as Hstep.
  { intros j q m Hj Hm. exists j. unfold step. rewrite Hj. cbn. rewrite Hm. by eexists. }
  destruct Hph as [new _ _ _ Hl Hw | new k0 c p0 _ _ _ Hl Hk0 Hp0 _ | new c _ _ _ Hl Hs].
  - destruct (proj1 (Forall_lookup _ _) Hw k p Hk) as [-> | ->].
    + by eapply (Hstep k Ready).
    + eapply (Hstep k WaitLock); [done|]. cbn. by rewrite Hl.
  - destruct Hp0 as [-> | ->]; by eapply (Hstep k0).
  - destruct (proj1 (Forall_lookup _ _) Hs k p Hk) as [[-> | ->] | ->].
    + by eapply (Hstep k Ready).
    + eapply (Hstep k WaitLock); [done|]. cbn. by rewrite Hl.
    + destruct Hp. by eexists.
Qed.

(** From every configuration of a burst on a healthy transport, some
    schedule takes every coroutine to its end. *)
Lemma burst_completes T h0 cfg :
  healthy T -> phase h0 cfg ->
  exists schedule, Forall finished (tasks (run T schedule cfg)).
Proof.
  intros HT. remember (weight cfg) as w eqn:Hw.
  revert cfg Hw. induction (lt_wf w) as [w _ IH]. intros cfg -> Hph.
  destruct (Forall_Exists_dec finished (fun p => ~ finished p)
              (fun p => finished_dec p) (tasks cfg)) as [Hall | Hex].
  - by exists [].
  - apply Exists_exists in Hex as (p & Hin & Hp).
    apply list_elem_of_lookup in Hin as [k Hk].
    destruct (phase_progress T h0 cfg k p Hph Hk Hp) as (j & cfg' & Hstep).
    destruct (IH (weight cfg') (step_weight T j cfg cfg' Hstep) cfg' eq_refl
                (step_phase T h0 j cfg cfg' HT Hph Hstep)) as [schedule Hfin].
    exists (j :: schedule). cbn [run]. by rewrite Hstep.
Qed.

(** *** One coroutine alone: the sequential semantics *)

#[export] Instance meq_equivalence {A} : Equivalence (@meq A).
Proof.
  split.
  - by intros m self h.
  - intros m m' H self h. by rewrite H.
  - intros m1 m2 m3 H1 H2 self h. by rewrite H1, H2.
Qed.

#[export] Instance bind_proper {A B} :
  Proper (meq ==> pointwise_relation A meq ==> meq) (@bind A B).
Proof.
  intros m m' Hm k k' Hk self h. unfold bind. rewrite Hm.
  destruct (m' self h) as [[[a|e] s1] e1]; [|done]. by rewrite (Hk a).
Qed.

Lemma bind_assoc {A B C} (m : M A) (k : A -> M B) (k' : B -> M C) :
  meq (bind (bind m k) k') (bind m (fun a => bind (k a) k')).
Proof.
  intros self h. unfold bind.
  destruct (m self h) as [[[a|e] s1] e1]; [|done].
  destruct (k a s1 (h ++ e1)) as [[[b|e] s2] e2]; [|done].
  rewrite <- app_assoc.
  destruct (k' b s2 (h ++ e1 ++ e2)) as [[r s3] e3]. by rewrite app_assoc.
Qed.

Lemma bind_ret_l {A B} (a : A) (k : A -> M B) : meq (bind (ret a) k) (k a).
Proof. intros self h. apply bind_ret. Qed.

Lemma bind_ret_unit (m : M unit) : meq (m ;; ret tt) m.
Proof.
  intros self h. unfold bind, ret.
  destruct (m self h) as [[[[]|e] s1] e1]; [|done]. by rewrite app_nil_r.
Qed.

Lemma bind_lift_ok_unit (m : M unit) : meq (m ;; lift (Ok tt)) m.
Proof. apply bind_ret_unit. Qed.

Lemma bind_map {A B C} (m : M A) (f : A -> B) (k : B -> M C) :
  meq (bind (bind m (fun x => ret (f x))) k) (bind m (fun x => k (f x))).
Proof.
  rewrite bind_assoc. f_equiv. intros x. apply bind_ret_l.
Qed.

Section Through.
Variable T : transport.

Lemma establish_connection_call :
  meq (establish_connection T) (r <- call_establish T ;; lift r).
Proof.
  intros self h. unfold bind, call_establish, establish_connection, lift.
  by destruct (t_establish T h).
Qed.

Lemma get_services_call c :
  meq (get_services T c) (r <- call_get_services T c ;; lift r).
Proof.
  intros self h. unfold bind, call_get_services, get_services, lift.
  by destruct (t_get_services T h c).
Qed.

Lemma ensure_connected_through : meq (_ensure_connected T) (through T).
Proof.
  unfold through, _ensure_connected, block_top. rewrite bind_assoc.
  f_equiv. intros [].
  { rewrite bind_map. cbn [after1 after3]. by rewrite bind_lift_ok_unit. }
  unfold connect_locked, block_locked. rewrite bind_assoc.
  f_equiv. intros [].
  { rewrite bind_map. cbn [after1 after3]. by rewrite bind_lift_ok_unit. }
  rewrite bind_assoc. f_equiv. intros name.
  rewrite bind_assoc. f_equiv. intros _.
  rewrite bind_map, establish_connection_call, bind_assoc. f_equiv. intros r.
  cbn [after1]. unfold block_established.
  rewrite bind_assoc. f_equiv. intros client.
  rewrite bind_assoc. f_equiv. intros svc.
  rewrite bind_assoc. f_equiv. intros [].
  - rewrite bind_ret_l, bind_map. cbn [after2 after3]. by rewrite bind_lift_ok_unit.
  - rewrite (bind_assoc (LOGGER _ _)), (bind_assoc (LOGGER _ _)). f_equiv. intros _.
    rewrite bind_map, bind_assoc, get_services_call, bind_assoc. f_equiv. intros r2.
    cbn [after2]. unfold block_refreshed.
    rewrite (bind_assoc (lift r2) _ after3). f_equiv. intros _.
    rewrite (bind_assoc (client_services T client)), (bind_assoc (client_services T client)).
    f_equiv. intros svc'.
    rewrite (bind_assoc (_resolve_characteristics svc')),
      (bind_assoc (_resolve_characteristics svc')).
    f_equiv. intros _.
    rewrite bind_ret_l, bind_map. cbn [after3]. by rewrite bind_lift_ok_unit.
Qed.

End Through.

Section Alone.
Variable T : transport.

Lemma lands_block_locked_at :
  lands (fun p => match p with Finished _ | InEstablish _ => True | _ => False end)
    (block_locked T).
Proof.
  unfold block_locked. apply lands_bind. intros [].
  - apply lands_bind. intros _. by apply lands_ret.
  - do 3 (apply lands_bind; intros ?). by apply lands_ret.
Qed.

Lemma lands_block_top_at :
  lands (fun p => match p with Finished _ | InEstablish _ => True | _ => False end)
    (block_top T false).
Proof.
  unfold block_top. apply lands_bind. intros [].
  - apply lands_bind. intros _. by apply lands_ret.
  - apply lands_block_locked_at.
Qed.

Lemma lands_block_established_at r :
  lands (fun p => match p with Finished _ | InGetServices _ _ => True | _ => False end)
    (block_established T r).
Proof.
  unfold block_established. do 3 (apply lands_bind; intros ?). destruct a1.
  - apply lands_bind. intros _. by apply lands_ret.
  - do 2 (apply lands_bind; intros ?). by apply lands_ret.
Qed.

Lemma lands_block_refreshed_at c r :
  lands (fun p => match p with Finished _ => True | _ => False end) (block_refreshed T c r).
Proof.
  unfold block_refreshed. do 4 (apply lands_bind; intros ?). by apply lands_ret.
Qed.

Lemma step_single self h l p m :
  next T p l = Some m ->
  step T 0 {| inst := self; hist := h; locked := l; tasks := [p] |}
  = Some {| inst := state_after (m self h);
            hist := h ++ emitted (m self h);
            locked :=
              holds (match outcome (m self h) with
                     | Ok p' => p'
                     | Raise e => Finished (Raise e)
                     end) || (l && negb (holds p));
            tasks := [match outcome (m self h) with
                      | Ok p' => p'
                      | Raise e => Finished (Raise e)
                      end] |}.
Proof. intros Hm. unfold step. cbn. by rewrite Hm. Qed.

Lemma run_finished schedule self h l r :
  run T (repeat 0%nat schedule) {| inst := self; hist := h; locked := l; tasks := [Finished r] |}
  = {| inst := self; hist := h; locked := l; tasks := [Finished r] |}.
Proof. induction schedule as [|n IH]; [done|]. cbn [repeat run]. exact IH. Qed.

Lemma ended_raise (m : M pc) (k : pc -> M unit) self h e :
  outcome (m self h) = Raise e ->
  ended (bind m k) self h
  = {| inst := state_after (m self h); hist := h ++ emitted (m self h); locked := false;
       tasks := [Finished (Raise e)] |}.
Proof.
  intros Ho. unfold ended.
  rewrite (bind_raise m k self h e (state_after (m self h)) (emitted (m self h)))
    by (by rewrite (run_split (m self h)) at 1; rewrite Ho).
  by run_proj.
Qed.

Lemma ended_ok (m : M pc) (k : pc -> M unit) self h p :
  outcome (m self h) = Ok p ->
  ended (bind m k) self h = ended (k p) (state_after (m self h)) (h ++ emitted (m self h)).
Proof.
  intros Ho. unfold ended.
  rewrite (bind_ok m k self h p (state_after (m self h)) (emitted (m self h)))
    by (by rewrite (run_split (m self h)) at 1; rewrite Ho).
  run_proj. by rewrite app_assoc.
Qed.

Lemma ended_lift r self h :
  ended (lift r) self h = {| inst := self; hist := h; locked := false; tasks := [Finished r] |}.
Proof. unfold ended, lift. run_proj. by rewrite app_nil_r. Qed.

(** From [get_services] on. *)
Lemma run_refreshed n c r self h :
  run T (repeat 0%nat (S n))
    {| inst := self; hist := h; locked := true; tasks := [InGetServices c r] |}
  = ended (p3 <- block_refreshed T c r ;; after3 p3) self h.
Proof.
  change (repeat 0%nat (S n)) with (0%nat :: repeat 0%nat n).
  cbn [run]. rewrite (step_single _ _ _ _ (block_refreshed T c r)) by done.
  cbn [default from_option id holds negb andb].
  destruct (outcome (block_refreshed T c r self h)) as [p|e] eqn:Ho.
  - pose proof (lands_block_refreshed_at c r self h p Ho) as Hp.
    destruct p; try done. cbn [holds orb].
    rewrite run_finished, (ended_ok _ _ _ _ _ Ho). cbn [after3].
    by rewrite ended_lift.
  - cbn [holds orb]. by rewrite run_finished, (ended_raise _ _ _ _ _ Ho).
Qed.

(** From [establish_connection] on. *)
Lemma run_established n r self h :
  run T (repeat 0%nat (S (S n)))
    {| inst := self; hist := h; locked := true; tasks := [InEstablish r] |}
  = ended (p2 <- block_established T r ;; after2 T p2) self h.
Proof.
  change (repeat 0%nat (S (S n))) with (0%nat :: repeat 0%nat (S n)).
  cbn [run]. rewrite (step_single _ _ _ _ (block_established T r)) by done.
  cbn [default from_option id holds negb andb].
  destruct (outcome (block_established T r self h)) as [p|e] eqn:Ho.
  - pose proof (lands_block_established_at r self h p Ho) as Hp.
    rewrite (ended_ok _ _ _ _ _ Ho).
    destruct p; try done; cbn [holds orb after2].
    + by rewrite (run_refreshed n).
    + rewrite (run_finished (S n)). cbn [after3]. by rewrite ended_lift.
  - cbn [holds orb]. by rewrite (run_finished (S n)), (ended_raise _ _ _ _ _ Ho).
Qed.

(** A coroutine alone runs through [through]. *)
Lemma run_through n self h :
  run T (repeat 0%nat (S (S (S n)))) (start self h 1) = ended (through T) self h.
Proof.
  unfold start, through. cbn [replicate].
  change (repeat 0%nat (S (S (S n)))) with (0%nat :: repeat 0%nat (S (S n))).
  cbn [run]. rewrite (step_single _ _ _ _ (block_top T false)) by done.
  cbn [default from_option id holds negb andb].
  destruct (outcome (block_top T false self h)) as [p|e] eqn:Ho.
  - pose proof (lands_block_top_at self h p Ho) as Hp.
    rewrite (ended_ok _ _ _ _ _ Ho).
    destruct p; try done; cbn [holds orb after1].
    + by rewrite (run_established n).
    + rewrite (run_finished (S (S n))). cbn [after3]. by rewrite ended_lift.
  - cbn [holds orb]. by rewrite (run_finished (S (S n))), (ended_raise _ _ _ _ _ Ho).
Qed.

(** The two semantics agree: one coroutine, run alone for three steps
    or more, leaves the instance, the events and the outcome of
    [_ensure_connected], and the lock free. *)
Lemma alone_is_ensure_connected n self h :
  run T (repeat 0%nat (S (S (S n)))) (start self h 1) = ended (_ensure_connected T) self h.
Proof.
  rewrite run_through. unfold ended. by rewrite (ensure_connected_through T self h).
Qed.

End Alone.

(** Through the second resolution, on a light whose cached services
    are stale. *)
Example alone_second_resolution :
  hist (run T_stale [0; 0; 0]%nat (start lamp [] 1))
  = [EvLog DEBUG (Connecting "HILIGHTING-4A:2F"); EvEstablish (Ok 1%nat);
     EvLog DEBUG InitialResolveFailed; EvGetServices 1%nat (Ok tt); EvCallLater 4%nat 30]
  /\ emitted (_ensure_connected T_stale lamp [])
     = hist (run T_stale [0; 0; 0]%nat (start lamp [] 1)).
Proof. split; vm_compute; reflexivity. Qed.

Lemma run_length T schedule cfg :
  length (tasks (run T schedule cfg)) = length (tasks cfg).
Proof.
  revert cfg. induction schedule as [|k rest IH]; intros cfg; [done|].
  cbn [run]. rewrite IH. destruct (step T k cfg) as [cfg'|] eqn:E; [|done].
  unfold step in E.
  destruct (tasks cfg !! k) as [p|]; [|done]. cbn in E.
  destruct (next T p (locked cfg)) as [m|]; [|done]. cbn in E.
  injection E as <-. cbn [tasks]. apply length_insert.
Qed.

(** What a phase says about the calls of [establish_connection], the
    coroutines that are through, and the lock. *)
Lemma phase_facts h0 cfg :
  phase h0 cfg ->
  exists new,
    hist cfg = h0 ++ new /\
    (length (establishes new) <= 1)%nat /\
    (forall k r, tasks cfg !! k = Some (Finished r) ->
                 r = Ok tt /\ length (establishes new) = 1%nat) /\
    (forall j k p q, tasks cfg !! j = Some p -> tasks cfg !! k = Some q ->
                     holds p = true -> holds q = true -> j = k).
Proof.
  intros [new Hh He _ _ Hw | new k0 c p0 Hh He _ _ Hk0 Hp0 Hw | new c Hh He _ _ Hs];
    exists new; rewrite He; cbn [length].
  - split; [done|]. split; [lia|]. split.
    + intros k r Hk. by destruct (proj1 (Forall_lookup _ _) Hw k _ Hk).
    + intros j k p q Hj _ Hp. by destruct (proj1 (Forall_lookup _ _) Hw j _ Hj) as [-> | ->].
  - split; [done|]. split; [lia|]. split.
    + intros k r Hk. destruct (decide (k = k0)) as [->|Hne].
      * rewrite Hk0 in Hk. by destruct Hp0 as [-> | ->].
      * by destruct (Hw k _ Hne Hk).
    + intros j k p q Hj Hk Hp Hq.
      destruct (decide (j = k0)) as [->|Hj0].
      * destruct (decide (k = k0)) as [->|Hk0']; [done|].
        by destruct (Hw k _ Hk0' Hk) as [-> | ->].
      * by destruct (Hw j _ Hj0 Hj) as [-> | ->].
  - split; [done|]. split; [lia|]. split.
    + intros k r Hk.
      destruct (proj1 (Forall_lookup _ _) Hs k _ Hk) as [[|]|]; by simplify_eq.
    + intros j k p q Hj _ Hp.
      by destruct (proj1 (Forall_lookup _ _) Hs j _ Hj) as [[-> | ->] | ->].
Qed.

(** The connection step by itself.  On a healthy transport, coroutines
    that call [_ensure_connected] on an instance without a client, in
    whatever order they run, make at most one call of
    [establish_connection]; as soon as one of them is through, exactly
    one call has been made, and every coroutine that is through has
    returned normally.  At any time at most one coroutine is under the
    lock.  From wherever they stand the coroutines can all be run to
    their end, and then all have returned normally on exactly one call
    of [establish_connection]. *)
Lemma one_connection_for_concurrent_links T self h0 n schedule :
  healthy T ->
  _client self = None ->
  let cfg := run T schedule (start self h0 n) in
  (exists new,
      hist cfg = h0 ++ new /\
      (length (establishes new) <= 1)%nat /\
      (forall k r, tasks cfg !! k = Some (Finished r) ->
                   r = Ok tt /\ length (establishes new) = 1%nat) /\
      (forall j k p q, tasks cfg !! j = Some p -> tasks cfg !! k = Some q ->
                       holds p = true -> holds q = true -> j = k)) /\
  (exists rest new,
      hist (run T rest cfg) = h0 ++ new /\
      tasks (run T rest cfg) = replicate n (Finished (Ok tt)) /\
      ((0 < n)%nat -> length (establishes new) = 1%nat)).
Proof.
  intros HT Hc cfg.
  pose proof (run_phase T h0 schedule _ HT (start_phase self h0 n Hc)) as Hph.
  fold cfg in Hph. split; [by apply phase_facts|].
  destruct (burst_completes T h0 cfg HT Hph) as [rest Hfin].
  pose proof (run_phase T h0 rest cfg HT Hph) as Hph'.
  destruct (phase_facts h0 _ Hph') as (new & Hh & _ & Hf & _).
  assert (length (tasks (run T rest cfg)) = n) as Hlen.
  { unfold cfg. rewrite !run_length. cbn [start tasks]. apply length_replicate. }
  assert (forall k p, tasks (run T rest cfg) !! k = Some p -> p = Finished (Ok tt)) as Hall.
  { intros k p Hk. destruct (proj1 (Forall_lookup _ _) Hfin k p Hk) as [r ->].
    by destruct (Hf k r Hk) as [-> _]. }
  exists rest, new. split; [exact Hh|]. split.
  - apply list_eq. intros k. destruct (tasks (run T rest cfg) !! k) as [p|] eqn:Hk.
    + rewrite (Hall k p Hk). symmetry. apply lookup_replicate_2.
      apply lookup_lt_Some in Hk. lia.
    + symmetry. apply lookup_replicate_None. apply lookup_ge_None in Hk. lia.
  - intros Hn. destruct (lookup_lt_is_Some_2 (tasks (run T rest cfg)) 0 ltac:(lia)) as [p Hk].
    rewrite (Hall 0%nat p Hk) in Hk. by destruct (Hf _ _ Hk).
Qed.

Lemma established_establishes c h : Ok c ∈ establishes h -> established c h = true.
Proof.
  intros (ev & Hev & Hf)%list_elem_of_omap.
  apply existsb_exists. exists ev. split; [by apply list_elem_of_In|].
  destruct ev; try done. injection Hf as ->. apply Nat.eqb_refl.
Qed.

Lemma T_ok_healthy : healthy T_ok.
Proof.
  split; cbn; [by eexists | done | intros h c; apply established_establishes].
Qed.

(** ** The whole module: invariants, error paths and compositions *)

Lemma keeps_ret I {A} (a : A) : keeps I (ret a).
Proof. intros self h H. cbn. by rewrite app_nil_r. Qed.

Lemma keeps_raise I {A} e : keeps I (@raise A e).
Proof. intros self h H. cbn. by rewrite app_nil_r. Qed.

Lemma keeps_get I {A} (f : HILIGHTINGInstance -> A) : keeps I (get f).
Proof. intros self h H. cbn. by rewrite app_nil_r. Qed.

Lemma keeps_lift I {A} (r : res A) : keeps I (lift r).
Proof. intros self h H. cbn. by rewrite app_nil_r. Qed.

Lemma keeps_bind I {A B} (m : M A) (k : A -> M B) :
  keeps I m -> (forall a, keeps I (k a)) -> keeps I (bind m k).
Proof.
  intros Hm Hk self h H. specialize (Hm self h H).
  destruct (m self h) as [[[a|e] self1] e1] eqn:E; run_proj.
  - rewrite (bind_ok _ _ _ _ _ _ _ E). run_proj. rewrite app_assoc. by apply Hk.
  - by rewrite (bind_raise _ _ _ _ _ _ _ E).
Qed.

Lemma keeps_assign (I : HILIGHTINGInstance -> list event -> Prop) f :
  (forall self h, I self h -> I (f self) h) -> keeps I (assign f).
Proof. intros Hf self h H. cbn. rewrite app_nil_r. by apply Hf. Qed.

Lemma keeps_emit (I : HILIGHTINGInstance -> list event -> Prop) ev :
  (forall self h, I self h -> I self (h ++ [ev])) -> keeps I (emit ev).
Proof. intros Hf self h H. by apply Hf. Qed.

Lemma keeps_is_connected T I c : keeps I (is_connected T c).
Proof. intros self h H. cbn. by rewrite app_nil_r. Qed.

Lemma keeps_client_services T I c : keeps I (client_services T c).
Proof. intros self h H. cbn. by rewrite app_nil_r. Qed.

Lemma keeps_client_and_connected T I : keeps I (client_and_connected T).
Proof.
  intros self h H. rewrite client_and_connected_run. run_proj. by rewrite app_nil_r.
Qed.

(** The decorator keeps what the function under it keeps, when the
    invariant does not look at logs and sleeps. *)
Lemma keeps_attempt_loop (I : HILIGHTINGInstance -> list event -> Prop)
    {A} name (func : M A) attempts :
  (forall ev self h, outward ev = true -> I self h -> I self (h ++ [ev])) ->
  keeps I func -> keeps I (attempt_loop name func attempts).
Proof.
  intros Hev Hf. induction attempts as [|attempt rest IH]; intros self h H.
  { cbn. by rewrite app_nil_r. }
  rewrite attempt_loop_cons. specialize (Hf self h H).
  destruct (func self h) as [[[a|err] self1] e1]; run_proj; [done|].
  destruct (transient err); [|done].
  destruct (attempt =? DEFAULT_ATTEMPTS - 1); run_proj.
  - unfold giving_up. rewrite app_assoc. by apply Hev.
  - assert (I self1 (h ++ e1 ++ backoff self1 name attempt err)) as H1.
    { unfold backoff. rewrite app_assoc.
      change [?a; ?b] with ([a] ++ [b]). rewrite app_assoc.
      apply Hev; [done|]. by apply Hev. }
    specialize (IH _ _ H1). by rewrite <- !app_assoc in *.
Qed.

Section Keeps.

Variable T : transport.
Variable I : HILIGHTINGInstance -> list event -> Prop.
Hypothesis HI : aloof I.
Hypothesis Hlink : keeps I (_ensure_connected T).

Lemma keeps_write data : keeps I (_write T data).
Proof.
  unfold _write. apply keeps_bind; [done|]. intros _.
  apply keeps_bind; [apply keeps_get|]. intros [c|]; [|apply keeps_raise].
  apply keeps_bind; [apply keeps_get|]. intros char.
  intros self h H. by apply (aloof_event I HI).
Qed.

Lemma keeps_write_then_assign data f :
  (forall self h, I self h -> I (f self) h) ->
  keeps I (_write T data ;; assign f).
Proof.
  intros Hf. apply keeps_bind; [apply keeps_write|]. intros _. by apply keeps_assign.
Qed.

Lemma keeps_body c : keeps I (body T c).
Proof.
  destruct HI as [H1 H2 H3 H4 H5].
  destruct c; cbn [body].
  - unfold turn_on_body. apply keeps_bind; [apply keeps_get|]. intros cmd.
    apply keeps_write_then_assign; auto.
  - unfold turn_off_body. apply keeps_bind; [apply keeps_get|]. intros cmd.
    apply keeps_write_then_assign; auto.
  - unfold set_rgb_color_body. apply keeps_bind; [apply keeps_assign; auto|]. intros _.
    apply keeps_bind; [apply keeps_lift|]. intros packet.
    apply keeps_write_then_assign; auto.
  - unfold set_brightness_body. apply keeps_bind; [apply keeps_assign; auto|]. intros _.
    apply keeps_bind; [apply keeps_lift|]. intros b.
    apply keeps_bind; [apply keeps_lift|]. intros packet. apply keeps_write.
  - unfold set_effect_body. destruct (EFFECT_MAP !! effect).
    + apply keeps_bind; [apply keeps_lift|]. intros packet.
      apply keeps_write_then_assign; auto.
    + apply keeps_emit. intros self h. by apply H5.
  - unfold set_effect_speed_body.
    apply keeps_bind; [apply keeps_lift|]. intros b.
    apply keeps_bind; [apply keeps_lift|]. intros packet. apply keeps_write.
Qed.

(** What the connection check keeps, every command keeps. *)
Lemma keeps_invoke c : keeps I (invoke T c).
Proof.
  rewrite invoke_unfold. apply keeps_attempt_loop; [apply HI | apply keeps_body].
Qed.

End Keeps.

Section Link.

Variable T : transport.

(** [_reset_disconnect_timer], run: the timer held is cancelled, the
    disconnect is no longer expected, and with a delay a new timer is
    armed and held. *)
Lemma reset_disconnect_timer_run self h :
  let cancel := match _disconnect_timer self with
                | Some t => [EvTimerCancel t]
                | None => []
                end in
  let t := t_call_later T (h ++ cancel) in
  _reset_disconnect_timer T self h =
    if _delay self =? 0 then (Ok tt, upd_expected_disconnect false self, cancel)
    else (Ok tt, upd_disconnect_timer (Some t) (upd_expected_disconnect false self),
          cancel ++ [EvCallLater t (_delay self)]).
Proof.
  unfold _reset_disconnect_timer, bind, get, assign, emit, ret, call_later; simpl.
  destruct (_disconnect_timer self), (_delay self =? 0); simpl; rewrite ?app_nil_r; done.
Qed.

Section Connect.

Variable I : HILIGHTINGInstance -> list event -> Prop.
Hypothesis HI : detached I.
Hypothesis Hreset : keeps I (_reset_disconnect_timer T).

Lemma keeps_resolve_characteristics svc : keeps I (_resolve_characteristics svc).
Proof.
  intros self h H. rewrite resolve_characteristics_run. run_proj. rewrite app_nil_r.
  unfold resolved. destruct HI. auto.
Qed.

Lemma keeps_connect_locked : keeps I (connect_locked T).
Proof.
  pose proof keeps_resolve_characteristics as Hres.
  destruct HI as [H1 H2 H3 H4 H5 H6 H7].
  unfold connect_locked.
  apply keeps_bind; [apply keeps_client_and_connected|]. intros [|]; [done|].
  apply keeps_bind; [apply keeps_get|]. intros name.
  apply keeps_bind; [apply keeps_emit; intros; by apply H7|]. intros _.
  apply keeps_bind; [intros self h; by apply H7|]. intros client.
  apply keeps_bind; [apply keeps_client_services|]. intros svc.
  apply keeps_bind; [apply Hres|]. intros ok.
  apply keeps_bind.
  { destruct ok; [apply keeps_ret|].
    apply keeps_bind; [apply keeps_emit; intros; by apply H7|]. intros _.
    apply keeps_bind; [intros self h; by apply H7|]. intros _.
    apply keeps_bind; [apply keeps_client_services|]. intros svc'.
    apply keeps_bind; [apply Hres|]. intros _. apply keeps_ret. }
  intros _.
  apply keeps_bind; [apply keeps_assign; auto|]. intros _.
  apply keeps_bind; [apply keeps_client_services|]. intros svc'.
  apply keeps_bind; [apply keeps_assign; auto|]. intros _. done.
Qed.

(** What re-arming the timer keeps, the connection check keeps. *)
Lemma keeps_ensure_connected : keeps I (_ensure_connected T).
Proof.
  unfold _ensure_connected.
  apply keeps_bind; [apply keeps_client_and_connected|]. intros [|]; [done|].
  apply keeps_connect_locked.
Qed.

End Connect.

End Link.

Section Closed.

Variable T : transport.

Lemma finish_connect_eq c self h :
  finish_connect T c self h = _reset_disconnect_timer T (with_client T c self h) h.
Proof.
  unfold finish_connect. rewrite bind_assign.
  erewrite bind_ok by reflexivity. run_proj. rewrite bind_assign. cbn [app].
  rewrite app_nil_r. by rewrite <- run_split.
Qed.

Lemma bind_call_establish {B} (k : res client -> M B) self h :
  bind (call_establish T) k self h =
    (outcome (k (t_establish T h) self (h ++ [EvEstablish (t_establish T h)])),
     state_after (k (t_establish T h) self (h ++ [EvEstablish (t_establish T h)])),
     EvEstablish (t_establish T h)
       :: emitted (k (t_establish T h) self (h ++ [EvEstablish (t_establish T h)]))).
Proof.
  unfold bind, call_establish.
  by destruct (k _ self (h ++ [EvEstablish (t_establish T h)])) as [[? ?] ?].
Qed.

Lemma bind_call_get_services {B} c (k : res unit -> M B) self h :
  bind (call_get_services T c) k self h =
    (outcome (k (t_get_services T h c) self (h ++ [EvGetServices c (t_get_services T h c)])),
     state_after (k (t_get_services T h c) self (h ++ [EvGetServices c (t_get_services T h c)])),
     EvGetServices c (t_get_services T h c)
       :: emitted (k (t_get_services T h c) self
                     (h ++ [EvGetServices c (t_get_services T h c)]))).
Proof.
  unfold bind, call_get_services.
  by destruct (k _ self (h ++ [EvGetServices c (t_get_services T h c)])) as [[? ?] ?].
Qed.

Lemma reset_disconnect_timer_outcome self h :
  outcome (_reset_disconnect_timer T self h) = Ok tt.
Proof. apply reset_disconnect_timer_ok. Qed.

Lemma block_refreshed_eq c r self h :
  block_refreshed T c r self h =
    match r with
    | Raise e => (Raise e, self, [])
    | Ok _ =>
        let x := _reset_disconnect_timer T
                   (with_client T c (resolved (t_services T h c) self) h) h in
        (Ok (Finished (Ok tt)), state_after x, emitted x)
    end.
Proof.
  unfold block_refreshed. destruct r as [[]|e]; [|by rewrite bind_lift_raise].
  rewrite bind_lift_ok.
  erewrite bind_ok by reflexivity. run_proj. cbn [app].
  erewrite bind_ok by apply resolve_characteristics_run. run_proj. cbn [app].
  rewrite then_ret, finish_connect_eq, !app_nil_r.
  rewrite reset_disconnect_timer_outcome. run_proj. reflexivity.
Qed.

Lemma block_established_eq r self h :
  block_established T r self h =
    match r with
    | Raise e => (Raise e, self, [])
    | Ok c =>
        let svc := t_services T h c in
        if all_resolved svc then
          let x := _reset_disconnect_timer T (with_client T c (resolved svc self) h) h in
          (Ok (Finished (Ok tt)), state_after x, emitted x)
        else
          let r2 := t_get_services T (h ++ [EvLog DEBUG InitialResolveFailed]) c in
          (Ok (InGetServices c r2), resolved svc self,
           [EvLog DEBUG InitialResolveFailed; EvGetServices c r2])
    end.
Proof.
  unfold block_established. destruct r as [c|e]; [|by rewrite bind_lift_raise].
  rewrite bind_lift_ok.
  erewrite bind_ok by reflexivity. run_proj. cbn [app].
  erewrite bind_ok by apply resolve_characteristics_run. run_proj. cbn [app].
  rewrite !app_nil_r. fold (all_resolved (t_services T h c)).
  destruct (all_resolved _).
  - rewrite then_ret, finish_connect_eq. rewrite reset_disconnect_timer_outcome. run_proj. reflexivity.
  - unfold LOGGER. rewrite bind_emit, bind_call_get_services. run_proj.
    done.
Qed.

Lemma block_locked_eq self h :
  block_locked T self h =
    if connected_now T self h then
      let x := _reset_disconnect_timer T self h in
      (Ok (Finished (Ok tt)), state_after x, emitted x)
    else
      let log := EvLog DEBUG (Connecting (_name self)) in
      let r := t_establish T (h ++ [log]) in
      (Ok (InEstablish r), self, [log; EvEstablish r]).
Proof.
  unfold block_locked.
  rewrite (bind_ok _ _ _ _ _ _ _ (client_and_connected_run T self h)).
  fold (connected_now T self h). rewrite app_nil_r. cbn [app].
  destruct (connected_now T self h).
  - rewrite then_ret, reset_disconnect_timer_outcome. reflexivity.
  - rewrite bind_get. unfold LOGGER. rewrite bind_emit, bind_call_establish. run_proj.
    done.
Qed.

Lemma block_top_eq lock_held self h :
  block_top T lock_held self h =
    if connected_now T self h then
      let x := _reset_disconnect_timer T self h in
      (Ok (Finished (Ok tt)), state_after x, emitted x)
    else if lock_held then (Ok WaitLock, self, [])
    else block_locked T self h.
Proof.
  unfold block_top.
  rewrite (bind_ok _ _ _ _ _ _ _ (client_and_connected_run T self h)).
  fold (connected_now T self h). rewrite app_nil_r. cbn [app].
  destruct (connected_now T self h).
  - rewrite then_ret, reset_disconnect_timer_outcome. reflexivity.
  - destruct lock_held; [done|]. by rewrite <- run_split.
Qed.

(** [_ensure_connected], run: by what the checks find and how the
    calls into the transport end. *)
Lemma ensure_connected_run self h :
  _ensure_connected T self h =
    if connected_now T self h then _reset_disconnect_timer T self h
    else
      let log := EvLog DEBUG (Connecting (_name self)) in
      let r := t_establish T (h ++ [log]) in
      match r with
      | Raise e => (Raise e, self, [log; EvEstablish r])
      | Ok c =>
          let pre := [log; EvEstablish r] in
          let svc := t_services T (h ++ pre) c in
          if all_resolved svc then
            let x := _reset_disconnect_timer T
                       (with_client T c (resolved svc self) (h ++ pre)) (h ++ pre) in
            (Ok tt, state_after x, pre ++ emitted x)
          else
            let r2 := t_get_services T (h ++ pre ++ [EvLog DEBUG InitialResolveFailed]) c in
            let pre2 := pre ++ [EvLog DEBUG InitialResolveFailed; EvGetServices c r2] in
            match r2 with
            | Raise e => (Raise e, resolved svc self, pre2)
            | Ok _ =>
                let svc2 := t_services T (h ++ pre2) c in
                let x := _reset_disconnect_timer T
                           (with_client T c (resolved svc2 (resolved svc self)) (h ++ pre2))
                           (h ++ pre2) in
                (Ok tt, state_after x, pre2 ++ emitted x)
            end
      end.
Proof.
  rewrite (ensure_connected_through T self h). unfold through.
  pose proof (block_top_eq false self h) as E1.
  destruct (connected_now T self h) eqn:Hc.
  { erewrite bind_ok by exact E1. cbn [after1 after3]. unfold lift. run_proj.
    rewrite app_nil_r. symmetry. etransitivity; [apply run_split|].
    by rewrite reset_disconnect_timer_outcome. }
  rewrite block_locked_eq, Hc in E1. cbv zeta in E1.
  erewrite bind_ok by exact E1. cbn [after1]. clear E1.
  set (log := EvLog DEBUG (Connecting (_name self))).
  set (r := t_establish T (h ++ [log])).
  set (pre := [log; EvEstablish r]).
  pose proof (block_established_eq r self (h ++ pre)) as E2.
  destruct r as [c|e] eqn:Hr; cbv zeta.
  2:{ erewrite bind_raise by exact E2. reflexivity. }
  cbv zeta in E2.
  set (svc := t_services T (h ++ pre) c) in *.
  destruct (all_resolved svc).
  { erewrite bind_ok by exact E2. cbn [after2 after3]. unfold lift. run_proj.
    rewrite app_nil_r. reflexivity. }
  erewrite bind_ok by exact E2. cbn [after2]. clear E2.
  rewrite <- !(app_assoc h pre).
  set (r2 := t_get_services T (h ++ pre ++ [EvLog DEBUG InitialResolveFailed]) c).
  set (pre2 := pre ++ [EvLog DEBUG InitialResolveFailed; EvGetServices c r2]).
  fold pre2.
  pose proof (block_refreshed_eq c r2 (resolved svc self) (h ++ pre2)) as E3.
  destruct r2 as [[]|e]; cbv zeta in E3.
  2:{ erewrite bind_raise by exact E3. reflexivity. }
  erewrite bind_ok by exact E3. cbn [after3]. unfold lift. run_proj.
  rewrite app_nil_r. unfold pre2. rewrite <- app_assoc. reflexivity.
Qed.

End Closed.

Lemma keeps_execute_disconnect T (I : HILIGHTINGInstance -> list event -> Prop) :
  (forall v self h, I self h -> I (upd_expected_disconnect v self) h) ->
  (forall v self h, I self h -> I (upd_client v self) h) ->
  (forall v self h, I self h -> I (upd_write_uuid v self) h) ->
  (forall c r self h, I self h -> I self (h ++ [EvDisconnect c r])) ->
  (forall l r self h, I self h -> I self (h ++ [EvLog l r])) ->
  keeps I (_execute_disconnect T).
Proof.
  intros H1 H2 H3 H4 H5. unfold _execute_disconnect.
  apply keeps_bind; [apply keeps_client_and_connected|]. intros connected.
  apply keeps_bind.
  { destruct connected; [|apply keeps_ret].
    apply keeps_bind; [apply keeps_assign; auto|]. intros _.
    apply keeps_bind; [apply keeps_get|]. intros c.
    apply keeps_bind.
    { destruct c as [c|]; [|apply keeps_ret]. intros self h. apply H4. }
    intros _. apply keeps_bind; [apply keeps_get|]. intros name.
    apply keeps_emit. auto. }
  intros _. apply keeps_bind; [apply keeps_assign; auto|]. intros _.
  apply keeps_assign; auto.
Qed.

Lemma keeps_disconnected (I : HILIGHTINGInstance -> list event -> Prop) :
  (forall l r self h, I self h -> I self (h ++ [EvLog l r])) ->
  keeps I _disconnected.
Proof.
  intros H. unfold _disconnected.
  apply keeps_bind; [apply keeps_get|]. intros expected.
  apply keeps_bind; [apply keeps_get|]. intros name.
  destruct expected; apply keeps_emit; auto.
Qed.

Section Constant.

Variable T : transport.
Variable v : string * string * Z * ColorMode * list Z * list Z.


Lemma constant_aloof : aloof (constant_is v).
Proof. by split. Qed.

Lemma constant_detached : detached (constant_is v).
Proof. by split. Qed.

Lemma constant_reset : keeps (constant_is v) (_reset_disconnect_timer T).
Proof.
  intros self h H. rewrite reset_disconnect_timer_run. cbv zeta.
  by destruct (_delay self =? 0); run_proj.
Qed.

Lemma constant_ensure_connected : keeps (constant_is v) (_ensure_connected T).
Proof. apply keeps_ensure_connected; [apply constant_detached | apply constant_reset]. Qed.

Lemma constant_invoke c : keeps (constant_is v) (invoke T c).
Proof. apply keeps_invoke; [apply constant_aloof | apply constant_ensure_connected]. Qed.

Lemma constant_write data : keeps (constant_is v) (_write T data).
Proof. apply keeps_write; [apply constant_aloof | apply constant_ensure_connected]. Qed.

Lemma constant_disconnect : keeps (constant_is v) (_disconnect T).
Proof.
  unfold _disconnect. apply keeps_bind; [by apply keeps_assign|]. intros _.
  by apply keeps_execute_disconnect.
Qed.

End Constant.

(** X1.  The name, the address, the idle delay, the colour mode and the
    two switch packets are those [__init__] set: no command, no
    connection check, no idle disconnect and no disconnect callback
    changes them, however it ends.  An instance made by [__init__]
    therefore always reports the colour mode RGB. *)
Theorem construction_fields_never_change T self h :
  (forall c, constant (state_after (invoke T c self h)) = constant self) /\
  constant (state_after (_ensure_connected T self h)) = constant self /\
  constant (state_after (_disconnect T self h)) = constant self /\
  constant (state_after (_disconnected self h)) = constant self /\
  (forall name mac delay,
      constant (init name mac delay)
      = (name, mac, delay, RGB, [0x55; 0x01; 0x02; 0x01], [0x55; 0x01; 0x02; 0x00])).
Proof.
  split; [intros c; by apply (constant_invoke T (constant self) c self h)|].
  split; [by apply (constant_ensure_connected T (constant self) self h)|].
  split; [by apply (constant_disconnect T (constant self) self h)|].
  split; [|done].
  by apply (keeps_disconnected (constant_is (constant self))).
Qed.

Lemma pending_app live a b : pending live (a ++ b) = pending (pending live a) b.
Proof. apply fold_left_app. Qed.

Lemma pending_outward live ev : outward ev = true -> pending live [ev] = live.
Proof. by destruct ev. Qed.

Lemma pending_connecting live ev : connecting ev = true -> pending live [ev] = live.
Proof. by destruct ev. Qed.

Lemma call_laters_app a b : call_laters (a ++ b) = call_laters a ++ call_laters b.
Proof. apply omap_app. Qed.

Lemma prefix_snoc_inv {A} (p l : list A) x :
  p `prefix_of` l ++ [x] -> p `prefix_of` l \/ p = l ++ [x].
Proof.
  intros [k Hk]. destruct (decide (k = [])) as [->|Hne].
  - right. by rewrite app_nil_r in Hk.
  - left. destruct (exists_last Hne) as (k' & y & ->).
    rewrite app_assoc in Hk. apply app_inj_tail in Hk as [-> _]. by exists k'.
Qed.

Section Timer.

Variable T : transport.
Variable h0 : list event.
Variable live0 : list timer.


Lemma tidy_length live self : tidy live self -> (length live <= 1)%nat.
Proof. destruct live as [|? [|? ?]]; cbn; [lia | lia | done]. Qed.

Lemma timer_event ev self h :
  (forall live, pending live [ev] = live) -> (one_timer h0 live0) self h -> (one_timer h0 live0) self (h ++ [ev]).
Proof.
  intros Hev (new & -> & Ht & Hp). exists (new ++ [ev]).
  split; [by rewrite app_assoc|]. rewrite pending_app, Hev. split; [done|].
  intros p [Hpre | ->]%prefix_snoc_inv; [by apply Hp|].
  rewrite pending_app, Hev. by eapply tidy_length.
Qed.

Lemma timer_aloof : aloof (one_timer h0 live0).
Proof.
  split; try (intros v self h (new & -> & Ht & Hp); by exists new).
  intros ev self h Hev. apply timer_event.
  intros live. by apply pending_outward.
Qed.

Lemma timer_detached : detached (one_timer h0 live0).
Proof.
  split; try (intros v self h (new & -> & Ht & Hp); by exists new).
  intros ev self h Hev. apply timer_event.
  intros live. by apply pending_connecting.
Qed.

Lemma timer_reset : keeps (one_timer h0 live0) (_reset_disconnect_timer T).
Proof.
  intros self h (new & -> & Ht & Hp). rewrite reset_disconnect_timer_run. cbv zeta.
  set (cancel := match _disconnect_timer self with
                 | Some t => [EvTimerCancel t]
                 | None => []
                 end).
  assert (pending live0 (new ++ cancel) = []) as Hc.
  { rewrite pending_app. unfold cancel, tidy in *.
    destruct (_disconnect_timer self) as [t|]; cbn.
    - destruct (pending live0 new) as [|t' [|? ?]]; [done| |done].
      injection Ht as ->. cbn. by rewrite decide_False by (by intros ?; auto).
    - by destruct (pending live0 new) as [|t' [|? ?]]. }
  assert (forall p, p `prefix_of` new ++ cancel -> (length (pending live0 p) <= 1)%nat) as Hp'.
  { unfold cancel. destruct (_disconnect_timer self) as [t|]; [|by rewrite app_nil_r].
    intros p [Hpre | ->]%prefix_snoc_inv; [by apply Hp|].
    fold cancel. rewrite Hc. cbn. lia. }
  destruct (_delay self =? 0); run_proj.
  - exists (new ++ cancel). split; [by rewrite app_assoc|]. split; [by rewrite Hc|done].
  - exists (new ++ cancel ++ [EvCallLater (t_call_later T ((h0 ++ new) ++ cancel)) (_delay self)]).
    split; [by rewrite !app_assoc|]. rewrite app_assoc, pending_app, Hc. split; [done|].
    intros p [Hpre | ->]%prefix_snoc_inv; [by apply Hp'|].
    rewrite pending_app, Hc. cbn. lia.
Qed.

Lemma timer_invoke c : keeps (one_timer h0 live0) (invoke T c).
Proof.
  apply keeps_invoke; [apply timer_aloof|].
  apply keeps_ensure_connected; [apply timer_detached | apply timer_reset].
Qed.

End Timer.

(** X2.  During a command at most one idle timer is armed at any time,
    and a timer armed at the end is the one in [_disconnect_timer]:
    the timer held is cancelled before another is scheduled.  The
    timer the instance holds when the command starts counts as armed. *)
Theorem at_most_one_idle_timer T c self h :
  let x := invoke T c self h in
  let armed := pending (option_list (_disconnect_timer self)) in
  (forall p, p `prefix_of` emitted x -> (length (armed p) <= 1)%nat) /\
  (forall t, t ∈ armed (emitted x) -> _disconnect_timer (state_after x) = Some t).
Proof.
  intros x armed.
  destruct (timer_invoke T h (option_list (_disconnect_timer self)) c self h)
    as (new & Hh & Ht & Hp).
  { exists []. split; [by rewrite app_nil_r|]. split.
    - unfold pending, tidy. cbn. by destruct (_disconnect_timer self).
    - intros p ->%prefix_nil_inv. unfold pending. cbn.
      destruct (_disconnect_timer self); cbn; lia. }
  apply app_inv_head in Hh as <-. split; [exact Hp|].
  intros t Hin. fold x in Ht. subst armed. cbv beta in Hin.
  unfold tidy in Ht. destruct (pending _ (emitted x)) as [|t' [|? ?]]; [|by apply list_elem_of_singleton in Hin as ->|done].
  by apply elem_of_nil in Hin.
Qed.

Section NoIdle.

Variable T : transport.
Variable h0 : list event.
Variable t0 : option timer.


Lemma no_idle_event ev self h :
  call_laters [ev] = [] -> (never_armed h0 t0) self h -> (never_armed h0 t0) self (h ++ [ev]).
Proof.
  intros Hev (Hd & Ht & new & -> & Hn). split; [done|]. split; [done|].
  exists (new ++ [ev]). split; [by rewrite app_assoc|]. by rewrite call_laters_app, Hn, Hev.
Qed.

Lemma no_idle_aloof : aloof (never_armed h0 t0).
Proof.
  split; try (intros v self h (Hd & Ht & new & -> & Hn); repeat split; try done; by exists new).
  intros ev self h Hev. apply no_idle_event. by destruct ev.
Qed.

Lemma no_idle_detached : detached (never_armed h0 t0).
Proof.
  split; try (intros v self h (Hd & Ht & new & -> & Hn); repeat split; try done; by exists new).
  intros ev self h Hev. apply no_idle_event. by destruct ev.
Qed.

Lemma no_idle_reset : keeps (never_armed h0 t0) (_reset_disconnect_timer T).
Proof.
  intros self h (Hd & Ht & new & -> & Hn). rewrite reset_disconnect_timer_run. cbv zeta.
  rewrite Hd. cbn [Z.eqb]. run_proj.
  split; [done|]. split; [done|].
  eexists. split; [by rewrite <- app_assoc|]. rewrite call_laters_app, Hn.
  by destruct (_disconnect_timer self).
Qed.

Lemma no_idle_invoke c : keeps (never_armed h0 t0) (invoke T c).
Proof.
  apply keeps_invoke; [apply no_idle_aloof|].
  apply keeps_ensure_connected; [apply no_idle_detached | apply no_idle_reset].
Qed.

End NoIdle.

(** X3.  With an idle delay of 0 no command ever schedules a timer: no
    [call_later] is made and [_disconnect_timer] stays what it was, so
    that the connection is never closed for idleness. *)
Theorem no_timer_without_delay T c self h :
  _delay self = 0 ->
  call_laters (emitted (invoke T c self h)) = [] /\
  _disconnect_timer (state_after (invoke T c self h)) = _disconnect_timer self.
Proof.
  intros Hd.
  destruct (no_idle_invoke T h (_disconnect_timer self) c self h)
    as (_ & Ht & new & Hh & Hn).
  { split; [done|]. split; [done|]. exists []. by rewrite app_nil_r. }
  apply app_inv_head in Hh as <-. by split.
Qed.

Lemma no_timer_without_delay_witness :
  outcome (invoke T_ok TurnOn lamp_no_idle []) = Ok (Some tt) /\
  call_laters (emitted (invoke T_ok TurnOn lamp_no_idle [])) = [] /\
  _disconnect_timer (state_after (invoke T_ok TurnOn lamp_no_idle [])) = None.
Proof.
  split; [reflexivity|].
  exact (no_timer_without_delay T_ok TurnOn lamp_no_idle [] eq_refl).
Defined.

Section Reuse.

Variable T : transport.
Variable h0 : list event.
Variable cl : client.
Hypothesis Hconn : forall new, t_is_connected T (h0 ++ new) cl = true.


Lemma reuse_aloof : aloof (reusing h0 cl).
Proof.
  split; try (intros v self h (Hc & new & -> & Hn); split; [done|]; by exists new).
  intros ev self h Hev (Hc & new & -> & Hn). split; [done|].
  exists (new ++ [ev]). split; [by rewrite app_assoc|].
  rewrite establishes_app, Hn. by destruct ev.
Qed.

Lemma reuse_ensure_connected : keeps (reusing h0 cl) (_ensure_connected T).
Proof.
  intros self h (Hc & new & -> & Hn). rewrite ensure_connected_run.
  unfold connected_now. rewrite Hc, Hconn.
  rewrite reset_disconnect_timer_run. cbv zeta.
  destruct (_delay self =? 0); run_proj; (split; [done|]);
    (eexists; split; [by rewrite <- app_assoc|]);
    rewrite ?establishes_app, Hn; by destruct (_disconnect_timer self).
Qed.

Lemma reuse_invoke c : keeps (reusing h0 cl) (invoke T c).
Proof. apply keeps_invoke; [apply reuse_aloof | apply reuse_ensure_connected]. Qed.

End Reuse.

(** X4.  A command on an instance whose client stays connected makes no
    call of [establish_connection], in none of its attempts, and
    leaves that client in place: the connection is reused. *)
Theorem connection_is_reused T c self h cl :
  _client self = Some cl ->
  (forall new, t_is_connected T (h ++ new) cl = true) ->
  establishes (emitted (invoke T c self h)) = [] /\
  _client (state_after (invoke T c self h)) = Some cl.
Proof.
  intros Hc Hconn.
  destruct (reuse_invoke T h cl Hconn c self h) as (Hc' & new & Hh & Hn).
  { split; [done|]. exists []. by rewrite app_nil_r. }
  apply app_inv_head in Hh as <-. by split.
Qed.

Lemma connection_is_reused_witness :
  establishes (emitted (turn_on T_ok lamp [])) = [Ok 1%nat] /\
  establishes (emitted (invoke T_ok (SetBrightness 200) lamp_connected
                          (emitted (turn_on T_ok lamp [])))) = [] /\
  _client (state_after (invoke T_ok (SetBrightness 200) lamp_connected
                          (emitted (turn_on T_ok lamp [])))) = Some 1%nat.
Proof.
  split; [reflexivity|].
  apply (connection_is_reused T_ok (SetBrightness 200) lamp_connected
           (emitted (turn_on T_ok lamp [])) 1%nat); [reflexivity|].
  intros new. reflexivity.
Defined.

Section Runs.

Variable T : transport.

(** [_write], run. *)
Lemma write_eq data self h :
  _write T data self h =
    let x := _ensure_connected T self h in
    match outcome x with
    | Raise e => (Raise e, state_after x, emitted x)
    | Ok _ =>
        match _client (state_after x) with
        | Some c =>
            let r := t_write T (h ++ emitted x) c (_write_uuid (state_after x)) data in
            (r, state_after x, emitted x ++ [EvWrite c (_write_uuid (state_after x)) data r])
        | None => (Raise (Exn BleakRetryException "AttributeError"), state_after x, emitted x)
        end
    end.
Proof.
  unfold _write. cbv zeta.
  destruct (_ensure_connected T self h) as [[[[]|e] s1] e1] eqn:E; run_proj.
  - rewrite (bind_ok _ _ _ _ _ _ _ E). rewrite bind_get.
    destruct (_client s1) as [c|].
    + rewrite bind_get. unfold write_gatt_char. by run_proj.
    + unfold raise. run_proj. by rewrite app_nil_r.
  - by rewrite (bind_raise _ _ _ _ _ _ _ E).
Qed.

(** [_execute_disconnect], run. *)
Lemma execute_disconnect_run self h :
  _execute_disconnect T self h =
    match _client self with
    | Some c =>
        if t_is_connected T h c then
          match t_disconnect T h c with
          | Ok _ =>
              (Ok tt, upd_write_uuid None (upd_client None (upd_expected_disconnect true self)),
               [EvDisconnect c (Ok tt); EvLog DEBUG (Disconnected (_name self))])
          | Raise e =>
              (Raise e, upd_expected_disconnect true self, [EvDisconnect c (Raise e)])
          end
        else (Ok tt, upd_write_uuid None (upd_client None self), [])
    | None => (Ok tt, upd_write_uuid None (upd_client None self), [])
    end.
Proof.
  unfold _execute_disconnect, client_and_connected, client_disconnect, is_connected,
    LOGGER, bind, get, assign, emit, ret.
  destruct (_client self) as [c|] eqn:Ec; cbn; rewrite ?app_nil_r; [|done].
  destruct (t_is_connected T h c); cbn; [|done].
  rewrite Ec, !app_nil_r. by destruct (t_disconnect T h c) as [[]|e].
Qed.

End Runs.

Lemma disconnected_run self h :
  _disconnected self h =
    (Ok tt, self,
     [if _expected_disconnect self then EvLog DEBUG (DisconnectedExpected (_name self))
      else EvLog WARNING (UnexpectedDisconnect (_name self))]).
Proof.
  unfold _disconnected. rewrite !bind_get. by destruct (_expected_disconnect self).
Qed.

(** Re-arming the timer with a delay: the new timer is the last event
    and is held; the disconnect is not expected. *)
Lemma reset_disconnect_timer_rearms T self h :
  _delay self <> 0 ->
  let x := _reset_disconnect_timer T self h in
  (exists pre t, emitted x = pre ++ [EvCallLater t (_delay self)] /\
                 _disconnect_timer (state_after x) = Some t) /\
  _expected_disconnect (state_after x) = false /\
  _client (state_after x) = _client self /\
  _name (state_after x) = _name self.
Proof.
  intros Hd. cbv zeta. rewrite reset_disconnect_timer_run. cbv zeta.
  destruct (Z.eqb_spec (_delay self) 0) as [|_]; [done|]. run_proj.
  split; [|done]. by eexists _, _.
Qed.

(** X5.  A connection check that returns has re-armed the idle timer as
    its last action, with the delay of the instance, and holds it;
    there is a client, and a disconnect that comes now is not expected:
    the callback logs it as a warning. *)
Theorem ensure_connected_rearms_timer T self h :
  outcome (_ensure_connected T self h) = Ok tt ->
  _delay self <> 0 ->
  let x := _ensure_connected T self h in
  (exists pre t, emitted x = pre ++ [EvCallLater t (_delay self)] /\
                 _disconnect_timer (state_after x) = Some t) /\
  _expected_disconnect (state_after x) = false /\
  is_Some (_client (state_after x)) /\
  emitted (_disconnected (state_after x) (h ++ emitted x))
  = [EvLog WARNING (UnexpectedDisconnect (_name self))].
Proof.
  intros Ho Hd x.
  assert ((exists pre t, emitted x = pre ++ [EvCallLater t (_delay self)] /\
                         _disconnect_timer (state_after x) = Some t) /\
          _expected_disconnect (state_after x) = false /\
          _name (state_after x) = _name self) as (H1 & H2 & H3).
  { subst x. revert Ho. rewrite ensure_connected_run.
    destruct (connected_now T self h).
    { intros _. by destruct (reset_disconnect_timer_rearms T self h Hd) as (? & ? & ? & ?). }
    cbv zeta. destruct (t_establish T _) as [c|e]; [|done].
    set (pre := [EvLog DEBUG (Connecting (_name self)); EvEstablish (Ok c)]).
    destruct (all_resolved _).
    - intros _. run_proj.
      match goal with
      | |- context [_reset_disconnect_timer T ?s ?k] =>
          destruct (reset_disconnect_timer_rearms T s k Hd) as ((p & t & -> & Ht) & He & _ & Hn)
      end.
      split; [|by split]. exists (pre ++ p), t.
      split; [rewrite !app_assoc; reflexivity | exact Ht].
    - destruct (t_get_services T _ c) as [[]|e]; [|done]. intros _. run_proj.
      match goal with
      | |- context [_reset_disconnect_timer T ?s ?k] =>
          destruct (reset_disconnect_timer_rearms T s k Hd) as ((p & t & -> & Ht) & He & _ & Hn)
      end.
      split; [|by split]. eexists (_ ++ p), t.
      split; [rewrite !app_assoc; reflexivity | exact Ht]. }
  split; [exact H1|]. split; [exact H2|].
  split; [by apply (_ensure_connected_client T self h tt)|].
  rewrite disconnected_run. run_proj. by rewrite H2, H3.
Qed.

Lemma ensure_connected_rearms_timer_witness :
  emitted (_ensure_connected T_ok lamp [])
  = [EvLog DEBUG (Connecting "HILIGHTING-4A:2F"); EvEstablish (Ok 1%nat); EvCallLater 2%nat 30] /\
  exists pre t, emitted (_ensure_connected T_ok lamp []) = pre ++ [EvCallLater t 30] /\
                _disconnect_timer (state_after (_ensure_connected T_ok lamp [])) = Some t.
Proof.
  split; [reflexivity|].
  exact (proj1 (ensure_connected_rearms_timer T_ok lamp [] eq_refl ltac:(done))).
Defined.

(** X6.  A connection check raises only where [establish_connection]
    or [get_services] raised, and that call is its last event.  It
    then leaves the client, the cached services, the timer and the
    expected-disconnect flag as they were, and the reported state too;
    it arms and cancels no timer.  When it is [get_services] that
    raised, the client just established is neither stored nor
    disconnected, and the four characteristics are those of the first,
    incomplete resolution. *)
Theorem ensure_connected_failure T self h e :
  outcome (_ensure_connected T self h) = Raise e ->
  let x := _ensure_connected T self h in
  let log := EvLog DEBUG (Connecting (_name self)) in
  connected_now T self h = false /\
  link_fields (state_after x) = link_fields self /\
  reported (state_after x) = reported self /\
  ((emitted x = [log; EvEstablish (Raise e)] /\ state_after x = self) \/
   (exists c,
       emitted x = [log; EvEstablish (Ok c); EvLog DEBUG InitialResolveFailed;
                    EvGetServices c (Raise e)] /\
       all_resolved (t_services T (h ++ [log; EvEstablish (Ok c)]) c) = false /\
       state_after x = resolved (t_services T (h ++ [log; EvEstablish (Ok c)]) c) self)).
Proof.
  intros Ho x log. subst x. revert Ho. rewrite ensure_connected_run.
  destruct (connected_now T self h).
  { by rewrite reset_disconnect_timer_outcome. }
  cbv zeta. fold log. destruct (t_establish T (h ++ [log])) as [c|e'].
  2:{ intros [= ->]. run_proj. split; [done|]. split; [done|]. split; [done|]. by left. }
  destruct (all_resolved _) eqn:Hall; [done|].
  destruct (t_get_services T _ c) as [[]|e']; [done|].
  intros [= ->]. run_proj. split; [done|]. split; [done|]. split; [done|].
  right. by exists c.
Qed.

Lemma ensure_connected_failure_witness :
  (emitted (_ensure_connected T_down lamp [])
   = [EvLog DEBUG (Connecting "HILIGHTING-4A:2F");
      EvEstablish (Raise (Exn BleakDBusError "org.bluez.Error.Failed"))] /\
   state_after (_ensure_connected T_down lamp []) = lamp) /\
  (emitted (_ensure_connected T_blind lamp [])
   = [EvLog DEBUG (Connecting "HILIGHTING-4A:2F"); EvEstablish (Ok 1%nat);
      EvLog DEBUG InitialResolveFailed;
      EvGetServices 1%nat (Raise (Exn BleakRetryException "failed to discover services"))] /\
   link_fields (state_after (_ensure_connected T_blind lamp [])) = link_fields lamp).
Proof.
  split; [split; reflexivity|]. split; [reflexivity|].
  exact (proj1 (proj2 (ensure_connected_failure T_blind lamp []
                         (Exn BleakRetryException "failed to discover services") eq_refl))).
Defined.

(** X7.  When [client.disconnect()] raises, [_execute_disconnect]
    raises the same and clears nothing: the client and the write
    characteristic are still held, and the disconnect stays marked as
    expected. *)
Theorem execute_disconnect_failure T self h e :
  outcome (_execute_disconnect T self h) = Raise e ->
  let x := _execute_disconnect T self h in
  exists c,
    _client self = Some c /\
    t_disconnect T h c = Raise e /\
    emitted x = [EvDisconnect c (Raise e)] /\
    state_after x = upd_expected_disconnect true self /\
    _client (state_after x) = Some c /\
    _write_uuid (state_after x) = _write_uuid self /\
    _expected_disconnect (state_after x) = true.
Proof.
  intros Ho x. subst x. revert Ho. rewrite execute_disconnect_run.
  destruct (_client self) as [c|] eqn:Ec; [|done].
  destruct (t_is_connected T h c); [|done].
  destruct (t_disconnect T h c) as [[]|e'] eqn:Ed; [done|].
  intros [= ->]. run_proj. by exists c.
Qed.

Lemma execute_disconnect_failure_witness :
  let self := state_after (turn_on T_stuck lamp []) in
  let h := emitted (turn_on T_stuck lamp []) in
  outcome (_execute_disconnect T_stuck self h)
  = Raise (Exn BleakRetryException "disconnect timed out") /\
  _client (state_after (_execute_disconnect T_stuck self h)) = Some 1%nat /\
  _write_uuid (state_after (_execute_disconnect T_stuck self h)) = Some 7%nat /\
  _expected_disconnect (state_after (_execute_disconnect T_stuck self h)) = true.
Proof.
  intros self h. split; [reflexivity|].
  destruct (execute_disconnect_failure T_stuck self h
              (Exn BleakRetryException "disconnect timed out") eq_refl)
    as (c & _ & _ & _ & _ & Hc & Hw & He).
  split; [reflexivity|]. split; [exact Hw | exact He].
Defined.

(** X8.  The idle disconnect, by what it finds.  With a connected
    client it marks the disconnect as expected before it calls
    [disconnect], so that the callback logs the disconnect at debug
    level, not as a warning.  Without one it calls nothing, leaves the
    mark as it was, and still clears the client and the write
    characteristic. *)
Theorem idle_disconnect_by_cases T self h :
  let x := _execute_disconnect T self h in
  if connected_now T self h then
    exists c,
      _client self = Some c /\
      emitted x = EvDisconnect c (t_disconnect T h c)
                    :: match t_disconnect T h c with
                       | Ok _ => [EvLog DEBUG (Disconnected (_name self))]
                       | Raise _ => []
                       end /\
      outcome x = t_disconnect T h c /\
      _expected_disconnect (state_after x) = true /\
      _disconnected (state_after x) (h ++ emitted x)
      = (Ok tt, state_after x, [EvLog DEBUG (DisconnectedExpected (_name self))])
  else
    x = (Ok tt, upd_write_uuid None (upd_client None self), []).
Proof.
  cbv zeta. rewrite execute_disconnect_run, disconnected_run. unfold connected_now.
  destruct (_client self) as [c|] eqn:Ec; [|done].
  destruct (t_is_connected T h c); [|done].
  exists c. split; [done|].
  by destruct (t_disconnect T h c) as [[]|e].
Qed.

Lemma establishes_ensure_connected T self h :
  establishes (emitted (_ensure_connected T self h)) =
    if connected_now T self h then []
    else [t_establish T (h ++ [EvLog DEBUG (Connecting (_name self))])].
Proof.
  rewrite ensure_connected_run.
  destruct (connected_now T self h); [apply reset_disconnect_timer_establishes|].
  cbv zeta. destruct (t_establish T _) as [c|e]; [|done].
  destruct (all_resolved _).
  - run_proj. by rewrite establishes_app, reset_disconnect_timer_establishes.
  - destruct (t_get_services T _ c) as [[]|e]; [|done]. run_proj.
    by rewrite !establishes_app, reset_disconnect_timer_establishes.
Qed.

Lemma establishes_write T data self h :
  establishes (emitted (_write T data self h)) = establishes (emitted (_ensure_connected T self h)).
Proof.
  rewrite write_eq. cbv zeta.
  destruct (outcome (_ensure_connected T self h)); [|done].
  destruct (_client _); [|done]. run_proj. by rewrite establishes_app, app_nil_r.
Qed.

(** X9.  When the idle timer has fired and the disconnect has run to
    its end, no timer is held and none was scheduled, there is no
    client, and the next write calls [establish_connection], once. *)
Theorem reconnects_after_idle_disconnect T data self h :
  outcome (_disconnect T self h) = Ok tt ->
  let s := state_after (_disconnect T self h) in
  let h' := h ++ emitted (_disconnect T self h) in
  _disconnect_timer s = None /\
  _client s = None /\
  call_laters (emitted (_disconnect T self h)) = [] /\
  establishes (emitted (_write T data s h'))
  = [t_establish T (h' ++ [EvLog DEBUG (Connecting (_name self))])].
Proof.
  intros Ho. cbv zeta.
  assert (_disconnect T self h = _execute_disconnect T (upd_disconnect_timer None self) h) as E.
  { unfold _disconnect. by rewrite bind_assign. }
  rewrite E in *. clear E. revert Ho. rewrite execute_disconnect_run.
  cbn [_client _name upd_disconnect_timer].
  set (out := match _client self with Some c => _ | None => _ end).
  intros Ho.
  assert (_disconnect_timer (state_after out) = None /\ _client (state_after out) = None /\
          _name (state_after out) = _name self /\ call_laters (emitted out) = [])
    as (Ht & Hc & Hn & Hl).
  { subst out. destruct (_client self) as [c|]; [|done].
    destruct (t_is_connected T h c); [|done].
    by destruct (t_disconnect T h c) as [[]|e]. }
  split; [exact Ht|]. split; [exact Hc|]. split; [exact Hl|].
  rewrite establishes_write, establishes_ensure_connected.
  unfold connected_now. by rewrite Hc, Hn.
Qed.

Lemma reconnects_after_idle_disconnect_witness :
  let h := emitted (turn_on T_ok lamp []) in
  establishes h = [Ok 1%nat] /\
  emitted (_disconnect T_ok lamp_connected h)
  = [EvDisconnect 1%nat (Ok tt); EvLog DEBUG (Disconnected "HILIGHTING-4A:2F")] /\
  establishes (emitted (_write T_ok turn_off_cmd (state_after (_disconnect T_ok lamp_connected h))
                          (h ++ emitted (_disconnect T_ok lamp_connected h))))
  = [Ok 1%nat].
Proof.
  intros h. split; [reflexivity|]. split; [reflexivity|].
  exact (proj2 (proj2 (proj2 (reconnects_after_idle_disconnect T_ok turn_off_cmd
                                lamp_connected h eq_refl)))).
Defined.

(** X10.  When the write characteristic is found neither in the cached
    services nor in those fetched afresh, the connection check still
    returns and keeps the client: the second resolution's result is
    not looked at.  The write that follows is made on that client with
    no characteristic ([None]). *)
Theorem write_without_characteristic T data self h c :
  connected_now T self h = false ->
  t_establish T (h ++ [EvLog DEBUG (Connecting (_name self))]) = Ok c ->
  (forall h', t_services T h' c WRITE_CHARACTERISTIC_UUID = None) ->
  (forall h', t_get_services T h' c = Ok tt) ->
  let x := _ensure_connected T self h in
  outcome x = Ok tt /\
  _client (state_after x) = Some c /\
  _write_uuid (state_after x) = None /\
  (exists rest,
      emitted x = [EvLog DEBUG (Connecting (_name self)); EvEstablish (Ok c);
                   EvLog DEBUG InitialResolveFailed; EvGetServices c (Ok tt)] ++ rest) /\
  (exists r,
      _write T data self h
      = (r, state_after x, emitted x ++ [EvWrite c None data r])).
Proof.
  intros Hc He Hs Hg. cbv zeta.
  assert (forall h', all_resolved (t_services T h' c) = false) as Hall.
  { intros h'. unfold all_resolved. cbn [forallb]. by rewrite Hs. }
  pose proof (ensure_connected_run T self h) as E.
  rewrite Hc in E. cbv zeta in E. rewrite He, Hall, Hg in E.
  match type of E with
  | context [_reset_disconnect_timer T ?s ?k] =>
      destruct (reset_disconnect_timer_ok T s k) as (Ho & Hcl & Hw);
      destruct (_reset_disconnect_timer T s k) as [[r s'] evs]
  end.
  run_proj. subst r.
  rewrite write_eq. cbv zeta. rewrite E. run_proj.
  cbn [_client _write_uuid with_client resolved upd_client upd_cached_services upd_write_uuid
         upd_manufacturer_name_char upd_firmware_revision_char upd_model_number_char]
    in Hcl, Hw.
  rewrite Hs in Hw. rewrite Hcl, Hw.
  split; [done|]. split; [done|]. split; [done|].
  split; [by eexists|]. by eexists.
Qed.

Lemma write_without_characteristic_witness :
  _client (state_after (_ensure_connected T_bare lamp [])) = Some 1%nat /\
  writes (emitted (_write T_bare turn_on_cmd lamp []))
  = [(turn_on_cmd, Raise (Exn BleakRetryException "Characteristic None was not found!"))] /\
  exists r, _write T_bare turn_on_cmd lamp []
            = (r, state_after (_ensure_connected T_bare lamp []),
               emitted (_ensure_connected T_bare lamp [])
                 ++ [EvWrite 1%nat None turn_on_cmd r]).
Proof.
  destruct (write_without_characteristic T_bare turn_on_cmd lamp [] 1%nat
              eq_refl eq_refl (fun _ => eq_refl) (fun _ => eq_refl))
    as (_ & Hc & _ & _ & Hw).
  split; [exact Hc|]. split; [reflexivity | exact Hw].
Defined.

(** Two functions that agree on the states they are run from make the
    same decorated call. *)
Lemma attempt_loop_agree {A} name (func func' : M A) (J : HILIGHTINGInstance -> Prop) :
  (forall s h, J s -> func s h = func' s h /\ J (state_after (func s h))) ->
  forall attempts s h,
    J s -> attempt_loop name func attempts s h = attempt_loop name func' attempts s h.
Proof.
  intros H attempts. induction attempts as [|attempt rest IH]; intros s h Hs; [done|].
  rewrite !attempt_loop_cons. destruct (H s h Hs) as [<- Hs'].
  destruct (func s h) as [[[a|err] s1] e1]; [done|]. run_proj.
  destruct (transient err); [|done].
  destruct (attempt =? DEFAULT_ATTEMPTS - 1); [done|].
  by rewrite IH.
Qed.

Section Switch.

Variable T : transport.


Lemma switch_success on self h :
  outcome (switch T on self h) = Ok (Some tt) ->
  let x := switch T on self h in
  (exists pre c char, emitted x = pre ++ [EvWrite c char (switch_cmd on self) (Ok tt)]) /\
  Forall (fun w => w.1 = switch_cmd on self) (writes (emitted x)) /\
  _is_on (state_after x) = on /\
  _rgb_color (state_after x) = _rgb_color self /\
  _brightness (state_after x) = _brightness self /\
  _effect (state_after x) = _effect self.
Proof.
  intros Ho x. subst x.
  set (c := if on then TurnOn else TurnOff).
  assert (switch T on = attempt_loop (func_name c) (body T c) [0; 1; 2]) as E.
  { rewrite <- invoke_unfold. by destruct on. }
  rewrite E in *. clear E.
  set (p := switch_cmd on self).
  set (func' := (_write T p ;; assign (upd_is_on on))).
  assert (forall s k, switch_cmd on s = p -> body T c s k = func' s k) as Hb.
  { intros s k Hs. subst c func'. destruct on; cbn [body switch_cmd] in *.
    - by rewrite turn_on_body_run, Hs.
    - by rewrite turn_off_body_run, Hs. }
  assert (attempt_loop (func_name c) (body T c) [0; 1; 2] self h
          = attempt_loop (func_name c) func' [0; 1; 2] self h) as E.
  { apply (attempt_loop_agree _ _ _ (fun s => constant s = constant self)); [|done].
    intros s k Hs. split.
    - apply Hb. unfold constant in Hs. subst p. unfold switch_cmd. destruct on; congruence.
    - by apply (keeps_body T _ (constant_aloof (constant self))
                  (constant_ensure_connected T (constant self)) c s k). }
  assert (writes_only p func') as W.
  { apply writes_only_then_assign, writes_only_write. }
  destruct (writes_only_attempt_loop p (func_name c) func' [0; 1; 2] self h W) as [W1 W2].
  split; [rewrite E in *; by apply (W2 tt)|]. split; [by rewrite E|]. clear E W W1 W2.
  assert (forall s k, body T c s k = (_write T (switch_cmd on s) ;; assign (upd_is_on on)) s k) as Hb'.
  { intros s k. subst c. destruct on; cbn [body switch_cmd].
    - apply turn_on_body_run.
    - apply turn_off_body_run. }
  split.
  - apply (attempt_loop_success (func_name c) (body T c) (fun s _ => _is_on s = on))
      with (v := tt); [|done|done].
    intros s k a. rewrite Hb', then_assign.
    by destruct (outcome (_write T _ s k)).
  - assert (forall s k,
        (_rgb_color (state_after (body T c s k)), _brightness (state_after (body T c s k)),
         _effect (state_after (body T c s k)))
        = (_rgb_color s, _brightness s, _effect s)) as F.
    { intros s k. rewrite Hb', then_assign.
      destruct (write_run T (switch_cmd on s) s k) as (R & _). unfold reported in R.
      destruct (outcome (_write T _ s k)); run_proj;
        cbn [_rgb_color _brightness _effect upd_is_on]; congruence. }
    pose proof (attempt_loop_frame (func_name c) (body T c)
                  (fun s => (_rgb_color s, _brightness s, _effect s)) F [0; 1; 2] self h) as G.
    cbv beta in G. by simplify_eq.
Qed.

End Switch.

(** X11.  A [turn_on] that returns has written the packet held in
    [_turn_on_cmd] (55 01 02 01 since [__init__]) as its last action
    and nothing else to the characteristic, in any of its attempts, and
    the instance reports the light as on; colour, brightness and
    effect are as before. *)
Theorem turn_on_success T self h :
  outcome (turn_on T self h) = Ok (Some tt) ->
  let x := turn_on T self h in
  (exists pre c char, emitted x = pre ++ [EvWrite c char (_turn_on_cmd self) (Ok tt)]) /\
  Forall (fun w => w.1 = _turn_on_cmd self) (writes (emitted x)) /\
  _is_on (state_after x) = true /\
  _rgb_color (state_after x) = _rgb_color self /\
  _brightness (state_after x) = _brightness self /\
  _effect (state_after x) = _effect self.
Proof. apply (switch_success T true). Qed.

Lemma turn_on_success_witness :
  writes (emitted (turn_on T_ok lamp [])) = [([0x55; 0x01; 0x02; 0x01], Ok tt)] /\
  _is_on lamp = false /\
  _is_on (state_after (turn_on T_ok lamp [])) = true.
Proof.
  destruct (turn_on_success T_ok lamp [] eq_refl) as (_ & _ & H & _).
  split; [reflexivity|]. split; [reflexivity | exact H].
Defined.

(** X12.  A [turn_off] that returns has written the packet held in
    [_turn_off_cmd] (55 01 02 00 since [__init__]) as its last action
    and nothing else to the characteristic, and the instance reports
    the light as off; colour, brightness and effect are as before. *)
Theorem turn_off_success T self h :
  outcome (turn_off T self h) = Ok (Some tt) ->
  let x := turn_off T self h in
  (exists pre c char, emitted x = pre ++ [EvWrite c char (_turn_off_cmd self) (Ok tt)]) /\
  Forall (fun w => w.1 = _turn_off_cmd self) (writes (emitted x)) /\
  _is_on (state_after x) = false /\
  _rgb_color (state_after x) = _rgb_color self /\
  _brightness (state_after x) = _brightness self /\
  _effect (state_after x) = _effect self.
Proof. apply (switch_success T false). Qed.

Lemma turn_off_success_witness :
  let h := emitted (turn_on T_ok lamp []) in
  writes (emitted (turn_off T_ok lamp_connected h)) = [([0x55; 0x01; 0x02; 0x00], Ok tt)] /\
  _is_on lamp_connected = true /\
  _is_on (state_after (turn_off T_ok lamp_connected h)) = false.
Proof.
  intros h.
  destruct (turn_off_success T_ok lamp_connected h eq_refl) as (_ & _ & H & _).
  split; [reflexivity|]. split; [reflexivity | exact H].
Defined.

Lemma EFFECT_MAP_inv effect effect_id :
  EFFECT_MAP !! effect = Some effect_id ->
  0 <= effect_id <= 9 /\ effect = effect_name (Z.to_nat effect_id).
Proof.
  intros H. apply elem_of_list_to_map_2 in H.
  apply list_elem_of_fmap in H as (i & [= -> ->] & Hi).
  apply elem_of_seq in Hi. rewrite Nat2Z.id. split; [lia | done].
Qed.

(** X13.  [set_effect] with a name of [EFFECT_MAP]: the name is
    "Effect i" for the identifier i it maps to, 0 to 9; nothing but the
    packet [55 04 01 i] is written; a call that returns has written it
    as its last action and reports the effect [effect]; a call that
    raises reports the effect as before.  The on/off flag, the colour
    and the brightness are never changed. *)
Theorem set_effect_supported T effect effect_id self h :
  EFFECT_MAP !! effect = Some effect_id ->
  let x := set_effect T effect self h in
  (0 <= effect_id <= 9 /\ effect = effect_name (Z.to_nat effect_id)) /\
  Forall (fun w => w.1 = [0x55; 0x04; 0x01; effect_id]) (writes (emitted x)) /\
  (outcome x = Ok (Some tt) ->
   (exists pre c char,
       emitted x = pre ++ [EvWrite c char [0x55; 0x04; 0x01; effect_id] (Ok tt)]) /\
   _effect (state_after x) = effect) /\
  (forall e, outcome x = Raise e -> _effect (state_after x) = _effect self) /\
  _is_on (state_after x) = _is_on self /\
  _rgb_color (state_after x) = _rgb_color self /\
  _brightness (state_after x) = _brightness self.
Proof.
  intros Hm x. subst x. pose proof (EFFECT_MAP_inv _ _ Hm) as Hi.
  split; [exact Hi|]. destruct Hi as [Hi _].
  unfold set_effect, retry_bluetooth_connection_error. rewrite range_DEFAULT_ATTEMPTS.
  set (p := [0x55; 0x04; 0x01; effect_id]).
  assert (forall s k, set_effect_body T effect s k
                      = (_write T p ;; assign (upd_effect effect)) s k) as Hb.
  { intros s k. rewrite set_effect_body_run, Hm.
    by rewrite bytearray_ok by (repeat constructor; lia). }
  assert (writes_only p (set_effect_body T effect)) as W.
  { intros s k. rewrite Hb. apply writes_only_then_assign, writes_only_write. }
  destruct (writes_only_attempt_loop p "set_effect" _ [0; 1; 2] self h W) as [W1 W2].
  split; [exact W1|]. split; [|split].
  - intros Ho. split; [by apply (W2 tt)|]. revert Ho.
    apply (attempt_loop_success "set_effect" (set_effect_body T effect)
             (fun s _ => _effect s = effect)); [|done].
    intros s k a. rewrite Hb, then_assign. by destruct (outcome (_write T _ s k)).
  - intros e. apply attempt_loop_failure_frame. intros s k e'.
    rewrite Hb, then_assign.
    destruct (write_run T p s k) as (R & _). unfold reported in R.
    destruct (outcome (_write T _ s k)); [done|]. run_proj. intros _. congruence.
  - assert (forall s k,
        (_is_on (state_after (set_effect_body T effect s k)),
         _rgb_color (state_after (set_effect_body T effect s k)),
         _brightness (state_after (set_effect_body T effect s k)))
        = (_is_on s, _rgb_color s, _brightness s)) as F.
    { intros s k. rewrite Hb, then_assign.
      destruct (write_run T p s k) as (R & _). unfold reported in R.
      destruct (outcome (_write T _ s k)); run_proj;
        cbn [_is_on _rgb_color _brightness upd_effect]; congruence. }
    pose proof (attempt_loop_frame "set_effect" (set_effect_body T effect)
                  (fun s => (_is_on s, _rgb_color s, _brightness s)) F [0; 1; 2] self h) as G.
    cbv beta in G. repeat split; congruence.
Qed.

Lemma set_effect_supported_witness :
  writes (emitted (set_effect T_ok "Effect 3" lamp [])) = [([0x55; 0x04; 0x01; 0x03], Ok tt)] /\
  _effect lamp = "off" /\
  _effect (state_after (set_effect T_ok "Effect 3" lamp [])) = "Effect 3".
Proof.
  destruct (set_effect_supported T_ok "Effect 3" 3 lamp [] eq_refl) as (_ & _ & H & _).
  split; [reflexivity|]. split; [reflexivity|]. exact (proj2 (H eq_refl)).
Defined.

(** X14.  [set_rgb_color] with a component outside 0..255: building the
    packet raises [ValueError], which no clause of the decorator
    takes; the call raises at once, with no connection attempt, no
    write, no log and no sleep.  The colour was assigned before the
    packet was built: the instance reports the invalid colour. *)
Theorem set_rgb_color_out_of_range T r g b self h :
  ~ (0 <= r < 256 /\ 0 <= g < 256 /\ 0 <= b < 256) ->
  set_rgb_color T (r, g, b) self h
  = (Raise (ValueError "byte must be in range(0, 256)"), upd_rgb_color (r, g, b) self, []) /\
  _rgb_color (state_after (set_rgb_color T (r, g, b) self h)) = (r, g, b).
Proof.
  intros Hr.
  assert (bytearray [0x55; 0x07; 0x01; r; g; b]
          = Raise (ValueError "byte must be in range(0, 256)")) as Eb.
  { unfold bytearray. destruct (forallb _ _) eqn:Ef; [|done].
    cbn in Ef. rewrite !andb_true_iff in Ef.
    destruct Ef as ((? & ?) & (? & ?) & (? & ?) & _). destruct Hr. lia. }
  assert (set_rgb_color T (r, g, b) self h
          = (Raise (ValueError "byte must be in range(0, 256)"), upd_rgb_color (r, g, b) self, []))
    as E.
  { unfold set_rgb_color, retry_bluetooth_connection_error.
    rewrite range_DEFAULT_ATTEMPTS, attempt_loop_cons, set_rgb_color_body_run.
    cbn [fst snd]. by rewrite Eb. }
  by rewrite E.
Qed.

Lemma set_rgb_color_out_of_range_witness :
  outcome (set_rgb_color T_ok (300, 0, 0) lamp [])
  = Raise (ValueError "byte must be in range(0, 256)") /\
  emitted (set_rgb_color T_ok (300, 0, 0) lamp []) = [] /\
  _rgb_color (state_after (set_rgb_color T_ok (300, 0, 0) lamp [])) = (300, 0, 0).
Proof.
  destruct (set_rgb_color_out_of_range T_ok 300 0 0 lamp [] ltac:(lia)) as [E C].
  split; [by rewrite E|]. split; [by rewrite E | exact C].
Defined.

(** What every run of the function establishes, a decorated call that
    makes a run at all establishes. *)
Lemma attempt_loop_established {A} name (func : M A) (P : HILIGHTINGInstance -> Prop) :
  (forall s h, P (state_after (func s h))) ->
  forall rest attempt s h, P (state_after (attempt_loop name func (attempt :: rest) s h)).
Proof.
  intros Hf rest. induction rest as [|attempt' rest IH]; intros attempt s h.
  - rewrite attempt_loop_cons. specialize (Hf s h).
    destruct (func s h) as [[[a|err] s1] e1]; [done|].
    destruct (transient err); [|done].
    by destruct (attempt =? DEFAULT_ATTEMPTS - 1).
  - rewrite attempt_loop_cons. specialize (Hf s h).
    destruct (func s h) as [[[a|err] s1] e1]; [done|].
    destruct (transient err); [|done].
    destruct (attempt =? DEFAULT_ATTEMPTS - 1); [done|]. run_proj. apply IH.
Qed.

(** [set_brightness] reports the brightness it was called with,
    however it ends, and changes nothing else of the reported state. *)
Lemma set_brightness_reports T brightness self h :
  let x := set_brightness T brightness self h in
  _brightness (state_after x) = brightness /\
  _is_on (state_after x) = _is_on self /\
  _rgb_color (state_after x) = _rgb_color self /\
  _effect (state_after x) = _effect self.
Proof.
  cbv zeta.
  assert (forall s k,
      reported (state_after (set_brightness_body T brightness s k))
      = reported (upd_brightness brightness s)) as F.
  { intros s k. rewrite set_brightness_body_run. repeat case_match; try done.
    apply write_run. }
  unfold set_brightness, retry_bluetooth_connection_error. rewrite range_DEFAULT_ATTEMPTS.
  split.
  - apply (attempt_loop_established "set_brightness" (set_brightness_body T brightness)
             (fun s => _brightness s = brightness)).
    intros s k. specialize (F s k). unfold reported in F.
    cbn [_is_on _rgb_color _brightness _effect _color_mode upd_brightness] in F. congruence.
  - assert (forall s k,
        (_is_on (state_after (set_brightness_body T brightness s k)),
         _rgb_color (state_after (set_brightness_body T brightness s k)),
         _effect (state_after (set_brightness_body T brightness s k)))
        = (_is_on s, _rgb_color s, _effect s)) as Fb.
    { intros s k. specialize (F s k). unfold reported in F.
      cbn [_is_on _rgb_color _brightness _effect _color_mode upd_brightness] in F.
      congruence. }
    pose proof (attempt_loop_frame "set_brightness" (set_brightness_body T brightness)
                  (fun s => (_is_on s, _rgb_color s, _effect s)) Fb [0; 1; 2] self h) as G.
    cbv beta in G. repeat split; congruence.
Qed.

(** [set_rgb_color] reports the colour it was called with, however it
    ends, and changes neither the on/off flag nor the brightness. *)
Lemma set_rgb_color_reports T rgb self h :
  let x := set_rgb_color T rgb self h in
  _rgb_color (state_after x) = rgb /\
  _is_on (state_after x) = _is_on self /\
  _brightness (state_after x) = _brightness self.
Proof.
  cbv zeta.
  assert (forall s k,
      let s' := state_after (set_rgb_color_body T rgb s k) in
      _rgb_color s' = rgb /\ _is_on s' = _is_on s /\ _brightness s' = _brightness s) as F.
  { intros s k. cbv zeta. rewrite set_rgb_color_body_run.
    destruct (bytearray _) as [packet|e]; [|done]. rewrite then_assign.
    destruct (write_run T packet (upd_rgb_color rgb s) k) as (R & _).
    unfold reported in R.
    cbn [_is_on _rgb_color _brightness _effect _color_mode upd_rgb_color] in R.
    destruct (outcome (_write T packet _ k)); run_proj;
      cbn [_is_on _rgb_color _brightness upd_effect]; repeat split; congruence. }
  unfold set_rgb_color, retry_bluetooth_connection_error. rewrite range_DEFAULT_ATTEMPTS.
  split.
  - apply (attempt_loop_established "set_rgb_color" (set_rgb_color_body T rgb)
             (fun s => _rgb_color s = rgb)).
    intros s k. apply F.
  - assert (forall s k,
        (_is_on (state_after (set_rgb_color_body T rgb s k)),
         _brightness (state_after (set_rgb_color_body T rgb s k)))
        = (_is_on s, _brightness s)) as Fb.
    { intros s k. destruct (F s k) as (_ & -> & ->). done. }
    pose proof (attempt_loop_frame "set_rgb_color" (set_rgb_color_body T rgb)
                  (fun s => (_is_on s, _brightness s)) Fb [0; 1; 2] self h) as G.
    cbv beta in G. repeat split; congruence.
Qed.

(** X15.  [set_brightness] and [set_rgb_color] assign before they build
    the packet and write: whatever the call does next, and however it
    ends, the instance reports the brightness, or the colour, it was
    called with.  [set_brightness] changes nothing else of the
    reported state; [set_rgb_color] changes besides only the effect. *)
Theorem assigned_before_the_write T self h :
  (forall brightness,
      let x := set_brightness T brightness self h in
      _brightness (state_after x) = brightness /\
      _is_on (state_after x) = _is_on self /\
      _rgb_color (state_after x) = _rgb_color self /\
      _effect (state_after x) = _effect self) /\
  (forall rgb,
      let x := set_rgb_color T rgb self h in
      _rgb_color (state_after x) = rgb /\
      _is_on (state_after x) = _is_on self /\
      _brightness (state_after x) = _brightness self).
Proof.
  split; [intros b; apply set_brightness_reports | intros rgb; apply set_rgb_color_reports].
Qed.

Section Counting.

Context {A : Type} (name : string) (func : M A).

(** The decorator adds nothing to what is counted in the runs of the
    function, when its own events do not count. *)
Lemma attempt_loop_count {X} (g : list event -> list X) (n : nat) :
  (forall a b, g (a ++ b) = g a ++ g b) ->
  (forall s attempt e, g (backoff s name attempt e) = []) ->
  (forall s e, g (giving_up s name e) = []) ->
  (forall s h, (length (g (emitted (func s h))) <= n)%nat) ->
  forall attempts s h,
    (length (g (emitted (attempt_loop name func attempts s h))) <= n * length attempts)%nat.
Proof.
  intros Happ Hb Hg Hf attempts.
  assert (g [] = []) as Hnil.
  { pose proof (Happ [] []) as H. cbn in H. destruct (g []); [done|].
    apply (f_equal length) in H. rewrite length_app in H. cbn in H. lia. }
  induction attempts as [|attempt rest IH]; intros s h.
  { cbn. rewrite Hnil. cbn. lia. }
  rewrite attempt_loop_cons. specialize (Hf s h). cbn [length]. rewrite Nat.mul_succ_r.
  destruct (func s h) as [[[a|err] s1] e1]; run_proj; [lia|].
  destruct (transient err); run_proj; [|lia].
  destruct (attempt =? DEFAULT_ATTEMPTS - 1); run_proj.
  - rewrite Happ, Hg, app_nil_r. lia.
  - rewrite !Happ, Hb, !length_app. cbn [app].
    specialize (IH s1 (h ++ e1 ++ backoff s1 name attempt err)).
    cbn [length]. lia.
Qed.

(** The sleeps and the messages of the decorator: one sleep of
    [BLEAK_BACKOFF_TIME] after each attempt given another try, one
    message for each of these and one more when it gives up. *)
Lemma attempt_loop_sleeps :
  calm func ->
  forall attempts s h,
    let x := attempt_loop name func attempts s h in
    exists k : nat,
      sleeps (emitted x) = replicate k BLEAK_BACKOFF_TIME /\
      (k <= length (filter (fun a : Z => a <> (DEFAULT_ATTEMPTS - 1)%Z) attempts))%nat /\
      (k <= length (retry_logs (emitted x)) <= k + 1)%nat /\
      (forall v, outcome x = Ok v -> length (retry_logs (emitted x)) = k).
Proof.
  intros Hc attempts. induction attempts as [|attempt rest IH]; intros s h; cbv zeta.
  { exists 0%nat. cbn. repeat split; lia || done. }
  rewrite attempt_loop_cons. destruct (Hc s h) as [Hs Hl].
  destruct (func s h) as [[[a|err] s1] e1]; run_proj.
  { exists 0%nat. rewrite Hs, Hl. cbn. repeat split; lia || done. }
  destruct (transient err); run_proj.
  2:{ exists 0%nat. rewrite Hs, Hl. cbn. repeat split; lia || done. }
  rewrite filter_cons.
  destruct (Z.eqb_spec attempt (DEFAULT_ATTEMPTS - 1)) as [->|Hne]; run_proj.
  - exists 0%nat. rewrite sleeps_app, retry_logs_app, Hs, Hl. cbn. repeat split; lia || done.
  - destruct (IH s1 (h ++ e1 ++ backoff s1 name attempt err)) as (k & Ek & Hk & Hr & Ho).
    exists (S k). rewrite !sleeps_app, !retry_logs_app, Hs, Hl, Ek.
    rewrite decide_True by done.
    assert (sleeps (backoff s1 name attempt err) = [BLEAK_BACKOFF_TIME]) as -> by done.
    assert (length (retry_logs (backoff s1 name attempt err)) = 1%nat) as Hb.
    { unfold backoff. by destruct (exn_class_of err). }
    cbn [app replicate length]. rewrite length_app, Hb.
    split; [done|]. split; [lia|]. split; [lia|].
    intros v Hv. rewrite (Ho v Hv). lia.
Qed.

End Counting.

Section BodyCounts.

Variable T : transport.

Lemma writes_ensure_connected self h : writes (emitted (_ensure_connected T self h)) = [].
Proof. apply quiet_ensure_connected. Qed.

Lemma write_counts data self h :
  (length (writes (emitted (_write T data self h))) <= 1)%nat /\
  (length (establishes (emitted (_write T data self h))) <= 1)%nat.
Proof.
  split.
  - destruct (write_run T data self h) as (_ & _ & _ & [(e & _ & ->)|(pre & c & ch & -> & Hw)]).
    + cbn. lia.
    + rewrite writes_app, Hw. cbn. lia.
  - rewrite establishes_write, establishes_ensure_connected.
    destruct (connected_now T self h); cbn; lia.
Qed.

Lemma then_assign_emitted {A} (m : M A) f self h :
  emitted ((m ;; assign f) self h) = emitted (m self h).
Proof. rewrite then_assign. by destruct (outcome (m self h)). Qed.

(** A run of a command's body writes at most once and calls
    [establish_connection] at most once. *)
Lemma body_counts c self h :
  (length (writes (emitted (body T c self h))) <= 1)%nat /\
  (length (establishes (emitted (body T c self h))) <= 1)%nat.
Proof.
  destruct c; cbn [body].
  - rewrite turn_on_body_run, then_assign_emitted. apply write_counts.
  - rewrite turn_off_body_run, then_assign_emitted. apply write_counts.
  - rewrite set_rgb_color_body_run. destruct (bytearray _); [|cbn; lia].
    rewrite then_assign_emitted. apply write_counts.
  - rewrite set_brightness_body_run. destruct (brightness_byte _); [|cbn; lia].
    destruct (bytearray _); [|cbn; lia]. apply write_counts.
  - rewrite set_effect_body_run. destruct (EFFECT_MAP !! effect); [|cbn; lia].
    destruct (bytearray _); [|cbn; lia].
    rewrite then_assign_emitted. apply write_counts.
  - rewrite set_effect_speed_body_run. destruct (speed_byte _); [|cbn; lia].
    destruct (bytearray _); [|cbn; lia]. apply write_counts.
Qed.

End BodyCounts.

Section Iteration.

Context {A : Type} (name : string) (func : M A).

Lemma attempt_loop_cons_ok attempt rest self h a :
  outcome (func self h) = Ok a ->
  attempt_loop name func (attempt :: rest) self h
  = (Ok (Some a), state_after (func self h), emitted (func self h)).
Proof.
  rewrite attempt_loop_cons. destruct (func self h) as [[r s1] e1]. run_proj. by intros ->.
Qed.

Lemma attempt_loop_cons_raise attempt rest self h e :
  outcome (func self h) = Raise e -> transient e = false ->
  attempt_loop name func (attempt :: rest) self h
  = (Raise e, state_after (func self h), emitted (func self h)).
Proof.
  rewrite attempt_loop_cons. destruct (func self h) as [[r s1] e1]. run_proj.
  by intros -> ->.
Qed.

Lemma attempt_loop_cons_retry attempt rest self h e :
  outcome (func self h) = Raise e -> transient e = true ->
  attempt <> DEFAULT_ATTEMPTS - 1 ->
  let pause := backoff (state_after (func self h)) name attempt e in
  let again := attempt_loop name func rest (state_after (func self h))
                 (h ++ emitted (func self h) ++ pause) in
  attempt_loop name func (attempt :: rest) self h
  = (outcome again, state_after again, emitted (func self h) ++ pause ++ emitted again).
Proof.
  rewrite attempt_loop_cons. destruct (func self h) as [[r s1] e1]. run_proj.
  intros -> -> Hne. by destruct (Z.eqb_spec attempt (DEFAULT_ATTEMPTS - 1)).
Qed.

End Iteration.

Lemma attempt_loop_not_none {A} name (func : M A) rest attempt s h :
  last (attempt :: rest) = Some (DEFAULT_ATTEMPTS - 1) ->
  outcome (attempt_loop name func (attempt :: rest) s h) <> Ok None.
Proof.
  revert attempt s h. induction rest as [|attempt' rest IH]; intros attempt s h Hl.
  - rewrite attempt_loop_cons. injection Hl as ->.
    destruct (func s h) as [[[a|err] s1] e1]; [done|].
    destruct (transient err); [|done]. by rewrite Z.eqb_refl.
  - rewrite attempt_loop_cons.
    destruct (func s h) as [[[a|err] s1] e1]; [done|].
    destruct (transient err); [|done].
    destruct (attempt =? DEFAULT_ATTEMPTS - 1); [done|]. run_proj. by apply IH.
Qed.

(** X16.  Whatever the transport does, a decorated command sleeps at most
    twice, each time for [BLEAK_BACKOFF_TIME], writes at most three
    times and calls [establish_connection] at most three times; the
    decorator logs once per sleep, and once more when it gives up.
    The loop never runs out: the call returns what its body returned,
    or raises. *)
Theorem decorated_call_bounds T c self h :
  let x := invoke T c self h in
  (exists k : nat,
      sleeps (emitted x) = replicate k BLEAK_BACKOFF_TIME /\ (k <= 2)%nat /\
      (k <= length (retry_logs (emitted x)) <= k + 1)%nat /\
      (forall v, outcome x = Ok v -> length (retry_logs (emitted x)) = k)) /\
  (length (writes (emitted x)) <= 3)%nat /\
  (length (establishes (emitted x)) <= 3)%nat /\
  ((exists e, outcome x = Raise e) \/ outcome x = Ok (Some tt)).
Proof.
  cbv zeta. rewrite invoke_unfold. split; [|split; [|split]].
  - destruct (attempt_loop_sleeps (func_name c) (body T c) (calm_body T c) [0; 1; 2] self h)
      as (k & Ek & Hk & Hr & Ho).
    exists k. split; [done|]. split; [|by split]. 
    replace (length (filter _ _)) with 2%nat in Hk by (vm_compute; reflexivity). exact Hk.
  - apply (attempt_loop_count (func_name c) (body T c) writes 1 writes_app);
      [by intros; unfold backoff; destruct (exn_class_of _) | done |].
    intros s k. apply body_counts.
  - apply (attempt_loop_count (func_name c) (body T c) establishes 1 establishes_app);
      [by intros; unfold backoff; destruct (exn_class_of _) | done |].
    intros s k. apply body_counts.
  - pose proof (attempt_loop_not_none (func_name c) (body T c) [1; 2] 0 self h eq_refl) as Hn.
    destruct (outcome (attempt_loop _ _ _ self h)) as [[[]|]|e]; [by right|done|left; by eexists].
Qed.

(** X17.  After a first attempt that raised an exception of a retrying
    clause, the decorator logs a warning, sleeps [BLEAK_BACKOFF_TIME]
    and runs the body again from the state the first attempt left.
    When the second attempt returns, the call returns: its events are
    those of the two attempts around the one backoff, and the state
    is the one the second attempt left.  When the second attempt
    raises outside the retrying clauses, the call raises that, with
    no further message. *)
Theorem retry_then_success T c self h e1 :
  let a1 := body T c self h in
  let pause1 := backoff (state_after a1) (func_name c) 0 e1 in
  let h1 := h ++ emitted a1 ++ pause1 in
  let a2 := body T c (state_after a1) h1 in
  outcome a1 = Raise e1 -> transient e1 = true ->
  (_name (state_after a1) = _name self /\
   sleeps pause1 = [BLEAK_BACKOFF_TIME] /\ length (retry_logs pause1) = 1%nat) /\
  (outcome a2 = Ok tt ->
   invoke T c self h = (Ok (Some tt), state_after a2, emitted a1 ++ pause1 ++ emitted a2) /\
   sleeps (emitted (invoke T c self h)) = [BLEAK_BACKOFF_TIME] /\
   length (retry_logs (emitted (invoke T c self h))) = 1%nat) /\
  (forall e2, outcome a2 = Raise e2 -> transient e2 = false ->
   invoke T c self h = (Raise e2, state_after a2, emitted a1 ++ pause1 ++ emitted a2) /\
   sleeps (emitted (invoke T c self h)) = [BLEAK_BACKOFF_TIME] /\
   length (retry_logs (emitted (invoke T c self h))) = 1%nat).
Proof.
  intros a1 pause1 h1 a2 O1 T1.
  assert (length (retry_logs pause1) = 1%nat) as Hp.
  { subst pause1. unfold backoff. by destruct (exn_class_of e1). }
  split.
  { split; [|by split].
    pose proof (keeps_body T _ (constant_aloof (constant self))
                  (constant_ensure_connected T (constant self)) c self h eq_refl) as Hk.
    unfold constant_is, constant in Hk. fold a1 in Hk. congruence. }
  destruct (calm_body T c self h) as [S1 L1]. fold a1 in S1, L1.
  destruct (calm_body T c (state_after a1) h1) as [S2 L2]. fold a2 in S2, L2.
  rewrite invoke_unfold.
  rewrite (attempt_loop_cons_retry (func_name c) (body T c) 0 [1; 2] self h e1 O1 T1
             ltac:(done)). cbv zeta.
  fold a1 pause1 h1. run_proj.
  split.
  - intros O2. rewrite (attempt_loop_cons_ok (func_name c) (body T c) 1 [2] _ h1 tt O2). fold a2. run_proj.
    split; [done|]. rewrite !sleeps_app, !retry_logs_app, S1, S2, L1, L2, !app_nil_r.
    by split.
  - intros e2 O2 T2. rewrite (attempt_loop_cons_raise (func_name c) (body T c) 1 [2] _ h1 e2 O2 T2).
    fold a2. run_proj.
    split; [done|]. rewrite !sleeps_app, !retry_logs_app, S1, S2, L1, L2, !app_nil_r.
    by split.
Qed.

Lemma retry_then_success_witness :
  invoke T_flaky TurnOn lamp [] =
    (Ok (Some tt), state_after (invoke T_flaky TurnOn lamp []),
     [EvLog DEBUG (Connecting "HILIGHTING-4A:2F");
      EvEstablish (Raise (Exn BleakDBusError "org.bluez.Error.Failed"));
      EvLog WARNING
        (RetryDueTo "HILIGHTING-4A:2F" 1 3 "turn_on"
           (Exn BleakDBusError "org.bluez.Error.Failed"));
      EvSleep (1 # 4);
      EvLog DEBUG (Connecting "HILIGHTING-4A:2F"); EvEstablish (Ok 1%nat);
      EvCallLater 6%nat 30; EvWrite 1%nat (Some 7%nat) [0x55; 0x01; 0x02; 0x01] (Ok tt)]) /\
  sleeps (emitted (invoke T_flaky TurnOn lamp [])) = [BLEAK_BACKOFF_TIME].
Proof.
  destruct (retry_then_success T_flaky TurnOn lamp []
              (Exn BleakDBusError "org.bluez.Error.Failed") eq_refl eq_refl)
    as (_ & H & _).
  destruct (H eq_refl) as (E & S & _).
  split; [|exact S]. vm_compute. reflexivity.
Defined.


Lemma forall_from_spec (P : Z -> bool) (lo : Z) (n : N) :
  forall_from P lo n = true -> forall z, lo <= z < lo + Z.of_N n -> P z = true.
Proof.
  unfold forall_from.
  set (f := fun p : bool * Z => (fst p && P (snd p), snd p + 1)).
  assert (forall n, snd (N.iter n f (true, lo)) = lo + Z.of_N n) as Hsnd.
  { intros m. induction m as [|m IH] using N.peano_ind; [cbn; lia|].
    rewrite N.iter_succ. unfold f at 1. cbn [snd]. rewrite IH. lia. }
  induction n as [|n IH] using N.peano_ind; [intros _ z; lia|].
  rewrite N.iter_succ. unfold f at 1. cbn [fst]. rewrite Hsnd.
  intros [H1 H2]%andb_true_iff z Hz.
  destruct (decide (z = lo + Z.of_N n)) as [->|Hne]; [done|].
  apply IH; [done | lia].
Qed.

(** The speed byte outside the documented range, for every 16-bit
    integer: the clamp gives 0 below 0 and 255 above 100. *)
Lemma speed_byte_outside s :
  -32768 <= s < 0 \/ 100 < s <= 32767 ->
  speed_byte s = Ok (if s <? 0 then 0 else 255).
Proof.
  intros Hs.
  pose proof (forall_from_spec
    (fun s => if (0 <=? s) && (s <=? 100) then true else
              match speed_byte s with
              | Ok b => b =? (if s <? 0 then 0 else 255)
              | Raise _ => false
              end) (-32768) 65536 ltac:(vm_compute; reflexivity) s ltac:(lia)) as H.
  cbv beta in H.
  destruct (Z.leb_spec 0 s), (Z.leb_spec s 100); cbn [andb] in H; try lia;
    (destruct (speed_byte s); [|done]; apply Z.eqb_eq in H; by subst).
Qed.

(** The brightness byte outside the documented range, for every 16-bit
    integer: [int] truncates toward zero, so that -16..-1 give 0, and
    anything lower a negative number; above 255 the cap gives 15. *)
Lemma brightness_byte_outside b :
  -32768 <= b < 0 \/ 255 < b <= 32767 ->
  exists n, brightness_byte b = Ok n /\
            if b <? -16 then n < 0 else n = (if b <? 0 then 0 else 15).
Proof.
  intros Hb.
  pose proof (forall_from_spec
    (fun b => match brightness_byte b with
              | Ok n => if b <? -16 then n <? 0
                        else if b <? 0 then n =? 0
                        else if b <=? 255 then true else n =? 15
              | Raise _ => false
              end) (-32768) 65536 ltac:(vm_compute; reflexivity) b ltac:(lia)) as H.
  cbv beta in H. destruct (brightness_byte b) as [n|]; [|done]. exists n. split; [done|].
  destruct (Z.ltb_spec b (-16)); [by apply Z.ltb_lt|].
  destruct (Z.ltb_spec b 0); [by apply Z.eqb_eq|].
  destruct (Z.leb_spec b 255); [lia|]. by apply Z.eqb_eq.
Qed.

(** X18.  [set_effect_speed] outside the documented range 0..100, for
    every 16-bit integer: the clamp makes the speed byte 0 for a
    negative speed and 255 for a speed above 100, and nothing but the
    packet [55 04 04 B] with that byte is written. *)
Theorem set_effect_speed_outside_range T s self h :
  -32768 <= s < 0 \/ 100 < s <= 32767 ->
  let B := if s <? 0 then 0 else 255 in
  speed_byte s = Ok B /\
  Forall (fun w => w.1 = [0x55; 0x04; 0x04; B]) (writes (emitted (set_effect_speed T s self h))) /\
  (outcome (set_effect_speed T s self h) = Ok (Some tt) ->
   exists pre c char,
     emitted (set_effect_speed T s self h) = pre ++ [EvWrite c char [0x55; 0x04; 0x04; B] (Ok tt)]).
Proof.
  intros Hs B. pose proof (speed_byte_outside s Hs) as Hb. fold B in Hb.
  split; [exact Hb|].
  assert (writes_only [0x55; 0x04; 0x04; B] (set_effect_speed_body T s)) as W.
  { intros s0 k. rewrite set_effect_speed_body_run, Hb.
    rewrite bytearray_ok by (subst B; destruct (s <? 0); repeat constructor; lia).
    apply writes_only_write. }
  unfold set_effect_speed, retry_bluetooth_connection_error.
  destruct (writes_only_attempt_loop _ "set_effect_speed" _
              (range DEFAULT_ATTEMPTS) self h W) as [W1 W2].
  split; [exact W1 | apply W2].
Qed.

Lemma set_effect_speed_outside_range_witness :
  writes (emitted (set_effect_speed T_ok 1000 lamp [])) = [([0x55; 0x04; 0x04; 0xff], Ok tt)] /\
  speed_byte 1000 = Ok 255.
Proof.
  split; [reflexivity|].
  exact (proj1 (set_effect_speed_outside_range T_ok 1000 lamp [] ltac:(lia))).
Defined.

(** X19.  [set_brightness] outside the documented range 0..255, for
    every 16-bit integer.  Above 255 the cap makes the byte 15.  From
    -16 to -1 the product truncates toward zero and the byte is 0.
    Below -16 the byte would be negative: building the packet raises
    [ValueError], which goes to the caller at once, before any
    connection attempt.  In every case the instance reports the
    brightness it was called with. *)
Theorem set_brightness_outside_range T b self h :
  -32768 <= b < 0 \/ 255 < b <= 32767 ->
  _brightness (state_after (set_brightness T b self h)) = b /\
  if b <? -16 then
    set_brightness T b self h
    = (Raise (ValueError "byte must be in range(0, 256)"), upd_brightness b self, [])
  else
    let B := if b <? 0 then 0 else 15 in
    brightness_byte b = Ok B /\
    Forall (fun w => w.1 = [0x55; 0x03; 0x01; 0xff; B])
      (writes (emitted (set_brightness T b self h))) /\
    (outcome (set_brightness T b self h) = Ok (Some tt) ->
     exists pre c char,
       emitted (set_brightness T b self h)
       = pre ++ [EvWrite c char [0x55; 0x03; 0x01; 0xff; B] (Ok tt)]).
Proof.
  intros Hb. split; [apply (set_brightness_reports T b self h)|].
  destruct (brightness_byte_outside b Hb) as (n & En & Hn).
  destruct (b <? -16).
  - unfold set_brightness, retry_bluetooth_connection_error.
    rewrite range_DEFAULT_ATTEMPTS, attempt_loop_cons, set_brightness_body_run, En.
    assert (bytearray [0x55; 0x03; 0x01; 0xff; n]
            = Raise (ValueError "byte must be in range(0, 256)")) as ->; [|done].
    unfold bytearray. destruct (forallb _ _) eqn:Ef; [|done].
    cbn in Ef. rewrite !andb_true_iff in Ef. lia.
  - cbv zeta. subst n. split; [exact En|].
    assert (writes_only [0x55; 0x03; 0x01; 0xff; if b <? 0 then 0 else 15]
              (set_brightness_body T b)) as W.
    { intros s0 k. rewrite set_brightness_body_run, En.
      rewrite bytearray_ok by (destruct (b <? 0); repeat constructor; lia).
      apply writes_only_write. }
    unfold set_brightness, retry_bluetooth_connection_error.
    destruct (writes_only_attempt_loop _ "set_brightness" _
                (range DEFAULT_ATTEMPTS) self h W) as [W1 W2].
    split; [exact W1 | apply W2].
Qed.

Lemma set_brightness_outside_range_witness :
  (writes (emitted (set_brightness T_ok 1000 lamp [])) = [([0x55; 0x03; 0x01; 0xff; 0x0f], Ok tt)] /\
   _brightness (state_after (set_brightness T_ok 1000 lamp [])) = 1000) /\
  set_brightness T_ok (-17) lamp []
  = (Raise (ValueError "byte must be in range(0, 256)"), upd_brightness (-17) lamp, []).
Proof.
  split.
  - split; [reflexivity|].
    exact (proj1 (set_brightness_outside_range T_ok 1000 lamp [] ltac:(lia))).
  - exact (proj2 (set_brightness_outside_range T_ok (-17) lamp [] ltac:(lia))).
Defined.

Lemma substring_skip p s n : String.substring (String.length p) n (p +:+ s) = String.substring 0 n s.
Proof.
  induction p as [|c p IH]; [done|].
  change (String c p +:+ s) with (String c (p +:+ s)).
  cbn [String.length String.substring]. exact IH.
Qed.

Lemma substring_all s : String.substring 0 (String.length s) s = s.
Proof. induction s as [|c s IH]; [done|]. cbn [String.length String.substring]. by rewrite IH. Qed.

Lemma length_append p s : String.length (p +:+ s) = (String.length p + String.length s)%nat.
Proof.
  induction p as [|c p IH]; [done|].
  change (String c p +:+ s) with (String c (p +:+ s)).
  cbn [String.length]. by rewrite IH.
Qed.

Lemma last_five_append p s : String.length s = 5%nat -> last_five (p +:+ s) = s.
Proof.
  intros Hs. unfold last_five. rewrite length_append, Hs.
  replace (String.length p + 5 - 5)%nat with (String.length p) by lia.
  rewrite substring_skip, <- Hs. apply substring_all.
Qed.

(** X20.  [__init__] on an advertisement without a name (none, or the
    empty string): with a device known for the address, the instance is
    named "HILIGHTING-" followed by the last five characters of the
    address, and starts off, white, at full brightness, without
    effect, in RGB mode, with no client, no timer and no
    characteristic.  Without a device, [__init__] raises
    [ConfigEntryNotReady] with a message that names the address. *)
Theorem init_default_name info prefix suffix delay :
  service_info.name info = None \/ service_info.name info = Some "" ->
  service_info.address info = prefix +:+ suffix ->
  String.length suffix = 5%nat ->
  (forall device,
      __init__ (Some device) info delay
      = Ok (init ("HILIGHTING-" +:+ suffix) (prefix +:+ suffix) delay)) /\
  __init__ None info delay
  = Raise (ConfigEntryNotReady
             ("Device with address " +:+ service_info.address info
                +:+ " not found via Home Assistant Bluetooth integration.")) /\
  reported (init ("HILIGHTING-" +:+ suffix) (prefix +:+ suffix) delay)
  = (false, (255, 255, 255), 255, "off", RGB) /\
  link_fields (init ("HILIGHTING-" +:+ suffix) (prefix +:+ suffix) delay) = (None, None, false, None).
Proof.
  intros Hn Ha Hs. split; [|split; [reflexivity | done]].
  intros device. unfold __init__. rewrite Ha, last_five_append by done.
  by destruct Hn as [-> | ->].
Qed.

Lemma init_default_name_witness :
  __init__ (Some 0%nat) {| service_info.address := "C0:00:00:01:4A:2F";
                           service_info.name := None |} 30
  = Ok lamp.
Proof.
  exact (proj1 (init_default_name
                  {| service_info.address := "C0:00:00:01:4A:2F"; service_info.name := None |}
                  "C0:00:00:01:" "4A:2F" 30 (or_introl eq_refl) eq_refl eq_refl) 0%nat).
Defined.

(** X21.  The two effect tables are inverse of each other: a name maps
    to an identifier in [EFFECT_MAP] exactly when the identifier maps
    to the name in [EFFECT_ID_TO_NAME], and exactly when the
    identifier is one of 0..9 and the name is "Effect " followed by
    it. *)
Theorem effect_tables_are_inverse effect effect_id :
  (EFFECT_MAP !! effect = Some effect_id <-> EFFECT_ID_TO_NAME !! effect_id = Some effect) /\
  (EFFECT_MAP !! effect = Some effect_id <->
   0 <= effect_id <= 9 /\ effect = effect_name (Z.to_nat effect_id)).
Proof.
  assert (forall i, 0 <= i <= 9 ->
            EFFECT_MAP !! effect_name (Z.to_nat i) = Some i /\
            EFFECT_ID_TO_NAME !! i = Some (effect_name (Z.to_nat i))) as Hk.
  { intros i Hi.
    assert (i = 0 \/ i = 1 \/ i = 2 \/ i = 3 \/ i = 4 \/ i = 5 \/ i = 6 \/ i = 7 \/ i = 8 \/ i = 9)
      as H by lia.
    repeat (destruct H as [->|H]; [split; vm_compute; reflexivity|]).
    subst. split; vm_compute; reflexivity. }
  assert (EFFECT_MAP !! effect = Some effect_id <->
          0 <= effect_id <= 9 /\ effect = effect_name (Z.to_nat effect_id)) as H1.
  { split; [apply EFFECT_MAP_inv|]. intros [Hi ->]. by apply Hk. }
  split; [|exact H1]. rewrite H1. split.
  - intros [Hi ->]. by apply Hk.
  - intros H. apply elem_of_list_to_map_2 in H.
    apply list_elem_of_fmap in H as ([e i] & [= -> ->] & Hin).
    apply elem_of_map_to_list in Hin. cbn. by apply H1.
Qed.


Lemma delivers_last_nil {A} (x : res A * HILIGHTINGInstance * list event) :
  writes (emitted x) = [] -> delivers_last x.
Proof. intros E pre w post H. rewrite E in H. by destruct pre. Qed.

Lemma delivers_last_one {A} (x : res A * HILIGHTINGInstance * list event) data r :
  writes (emitted x) = [(data, r)] -> (r = Ok tt -> exists v, outcome x = Ok v) ->
  delivers_last x.
Proof.
  intros E Hr pre w post H Hw. rewrite E in H.
  destruct pre as [|? [|? ?]]; [|done..]. injection H as <- <-. split; [done|]. by apply Hr.
Qed.

Section Delivery.

Variable T : transport.

Lemma write_delivers_last data self h : delivers_last (_write T data self h).
Proof.
  destruct (write_run T data self h) as (_ & _ & _ & [(e & _ & Hw)|(pre & c & ch & He & Hw)]).
  - by apply delivers_last_nil.
  - apply (delivers_last_one _ data (outcome (_write T data self h))).
    + rewrite He at 1. by rewrite writes_app, Hw.
    + intros ->. by eexists.
Qed.

Lemma then_assign_delivers_last {A} (m : M A) f self h :
  delivers_last (m self h) -> delivers_last ((m ;; assign f) self h).
Proof.
  intros H pre w post. rewrite then_assign.
  destruct (outcome (m self h)) as [a|e] eqn:Ho; run_proj; intros Hw Hok;
    destruct (H pre w post Hw Hok) as [-> [v Hv]]; [by eauto|congruence].
Qed.

Lemma body_delivers_last c self h : delivers_last (body T c self h).
Proof.
  destruct c; cbn [body].
  - rewrite turn_on_body_run. apply then_assign_delivers_last, write_delivers_last.
  - rewrite turn_off_body_run. apply then_assign_delivers_last, write_delivers_last.
  - rewrite set_rgb_color_body_run. destruct (bytearray _); [|by apply delivers_last_nil].
    apply then_assign_delivers_last, write_delivers_last.
  - rewrite set_brightness_body_run. destruct (brightness_byte _); [|by apply delivers_last_nil].
    destruct (bytearray _); [|by apply delivers_last_nil]. apply write_delivers_last.
  - rewrite set_effect_body_run. destruct (EFFECT_MAP !! effect); [|by apply delivers_last_nil].
    destruct (bytearray _); [|by apply delivers_last_nil].
    apply then_assign_delivers_last, write_delivers_last.
  - rewrite set_effect_speed_body_run. destruct (speed_byte _); [|by apply delivers_last_nil].
    destruct (bytearray _); [|by apply delivers_last_nil]. apply write_delivers_last.
Qed.

End Delivery.

(** A run that raised took no write; events that are no writes, and a
    call after them, do not change that the write taken is the last. *)
Lemma delivers_last_after {A B} (x : res A * HILIGHTINGInstance * list event)
    (y : res B * HILIGHTINGInstance * list event) e s mid :
  delivers_last x -> outcome x = Raise e -> writes mid = [] -> delivers_last y ->
  delivers_last (outcome y, s, emitted x ++ mid ++ emitted y).
Proof.
  intros Hx Ho Hmid Hy pre w post. run_proj.
  rewrite !writes_app, Hmid. cbn [app]. intros Hw Hok.
  assert (Forall (fun w => w.2 <> Ok tt) (writes (emitted x))) as Hfail.
  { apply Forall_forall. intros w' Hin Hw'.
    apply list_elem_of_split in Hin as (l1 & l2 & Hl).
    destruct (Hx l1 w' l2 Hl Hw') as [_ [v Hv]]. congruence. }
  assert (exists pre', pre = writes (emitted x) ++ pre' /\ writes (emitted y) = pre' ++ w :: post)
    as (pre' & -> & Hy').
  { revert pre Hw Hfail. generalize (writes (emitted x)).
    intros l. induction l as [|a l IH]; intros pre Hw Hfail; [by exists pre|].
    destruct pre as [|b pre]; cbn in Hw.
    - injection Hw as -> Hw. apply Forall_inv in Hfail. done.
    - injection Hw as -> Hw. apply Forall_inv_tail in Hfail.
      destruct (IH pre Hw Hfail) as (pre' & -> & Hy'). by exists pre'. }
  by apply (Hy pre' w post).
Qed.

Lemma attempt_loop_delivers_last {A} name (func : M A) attempts :
  (forall s h, delivers_last (func s h)) ->
  forall s h, delivers_last (attempt_loop name func attempts s h).
Proof.
  intros Hf. induction attempts as [|attempt rest IH]; intros s h.
  { by apply delivers_last_nil. }
  rewrite attempt_loop_cons. specialize (Hf s h).
  destruct (func s h) as [[[a|err] s1] e1] eqn:E.
  - intros pre w post Hw Hok. run_proj.
    destruct (Hf pre w post Hw Hok) as [-> _]. split; [done|]. by eexists.
  - assert (forall mid, writes mid = [] ->
        delivers_last (Raise err : res (option A), s1, e1 ++ mid)) as Hstop.
    { intros mid Hmid pre w post. run_proj. rewrite writes_app, Hmid, app_nil_r.
      intros Hw Hok. destruct (Hf pre w post Hw Hok) as [_ [v Hv]]. done. }
    destruct (transient err).
    + destruct (attempt =? DEFAULT_ATTEMPTS - 1); [by apply Hstop|].
      cbv zeta.
      apply (delivers_last_after (Raise err : res A, s1, e1) _ err); [exact Hf|done| |apply IH].
      unfold backoff. by destruct (exn_class_of err).
    + rewrite <- (app_nil_r e1). by apply Hstop.
Qed.

(** X23.  A command delivers its packet at most once.  Among the writes
    of a decorated call, one that the transport took is the last of
    them, and the call then returns; so a call that raises has
    delivered nothing.  For [turn_on], [turn_off], [set_effect] and
    [set_effect_speed] a call that raises moreover leaves the reported
    state as it was. *)
Theorem packet_delivered_at_most_once T c self h :
  let x := invoke T c self h in
  (forall pre w post,
      writes (emitted x) = pre ++ w :: post -> w.2 = Ok tt ->
      post = [] /\ outcome x = Ok (Some tt)) /\
  (forall e, outcome x = Raise e ->
      Forall (fun w => w.2 <> Ok tt) (writes (emitted x)) /\
      match c with
      | SetRgbColor _ | SetBrightness _ => True
      | _ => reported (state_after x) = reported self
      end).
Proof.
  intros x.
  assert (delivers_last x) as Hd.
  { subst x. rewrite invoke_unfold. apply attempt_loop_delivers_last.
    intros s k. apply body_delivers_last. }
  split.
  - intros pre w post Hw Hok. destruct (Hd pre w post Hw Hok) as [-> [v Hv]].
    split; [done|]. rewrite Hv. f_equal.
    pose proof (attempt_loop_not_none (func_name c) (body T c) [1; 2] 0 self h eq_refl) as Hn.
    subst x. rewrite invoke_unfold in Hv. rewrite Hv in Hn. by destruct v as [[]|].
  - intros e He. split.
    + apply Forall_forall. intros w Hin Hw.
      apply list_elem_of_split in Hin as (l1 & l2 & Hl).
      destruct (Hd l1 w l2 Hl Hw) as [_ [v Hv]]. congruence.
    + destruct c; try done; by apply (assign_after_write_failure T _ self h e).
Qed.

Lemma reset_disconnect_timer_link T self h :
  let s := state_after (_reset_disconnect_timer T self h) in
  _client s = _client self /\ _cached_services s = _cached_services self /\
  _write_uuid s = _write_uuid self /\
  _manufacturer_name_char s = _manufacturer_name_char self /\
  _firmware_revision_char s = _firmware_revision_char self /\
  _model_number_char s = _model_number_char self.
Proof.
  cbv zeta. rewrite reset_disconnect_timer_run. cbv zeta.
  by destruct (_delay self =? 0); run_proj.
Qed.

Lemma refreshes_reset T self h : refreshes (emitted (_reset_disconnect_timer T self h)) = [].
Proof.
  rewrite reset_disconnect_timer_run. cbv zeta.
  by destruct (_delay self =? 0), (_disconnect_timer self); run_proj.
Qed.

Lemma refreshes_app a b : refreshes (a ++ b) = refreshes a ++ refreshes b.
Proof. apply omap_app. Qed.

(** What the first connection leaves on the instance and in the events. *)
Lemma ensure_connected_first_link T self h :
  connected_now T self h = false ->
  outcome (_ensure_connected T self h) = Ok tt ->
  let x := _ensure_connected T self h in
  exists c svc,
    establishes (emitted x) = [Ok c] /\
    _client (state_after x) = Some c /\
    _cached_services (state_after x) = Some svc /\
    resolved_in svc (state_after x) /\
    (exists h', svc = t_services T h' c) /\
    refreshes (emitted x)
    = if all_resolved (t_services T (h ++ [EvLog DEBUG (Connecting (_name self));
                                            EvEstablish (Ok c)]) c)
      then [] else [(c, Ok tt)].
Proof.
  intros Hc Ho. cbv zeta. revert Ho. rewrite establishes_ensure_connected.
  rewrite ensure_connected_run, Hc. cbv zeta.
  destruct (t_establish T _) as [c|e]; [|done].
  destruct (all_resolved _) eqn:Hall.
  - intros _. run_proj.
    match goal with
    | |- context [_reset_disconnect_timer T ?s ?k] =>
        pose proof (refreshes_reset T s k) as Hr;
        destruct (reset_disconnect_timer_link T s k) as (E1 & E2 & E3 & E4 & E5 & E6)
    end.
    eexists c, _. split; [done|]. split; [by rewrite E1|]. split; [by rewrite E2|].
    split; [by split; [rewrite E3|split; [rewrite E4|split; [rewrite E5|rewrite E6]]]|].
    split; [by eexists|]. by rewrite refreshes_app, Hr, Hall.
  - destruct (t_get_services T _ c) as [[]|e]; [|done]. intros _. run_proj.
    match goal with
    | |- context [_reset_disconnect_timer T ?s ?k] =>
        pose proof (refreshes_reset T s k) as Hr;
        destruct (reset_disconnect_timer_link T s k) as (E1 & E2 & E3 & E4 & E5 & E6)
    end.
    eexists c, _. split; [done|]. split; [by rewrite E1|]. split; [by rewrite E2|].
    split; [by split; [rewrite E3|split; [rewrite E4|split; [rewrite E5|rewrite E6]]]|].
    split; [by eexists|]. by rewrite !refreshes_app, Hr, Hall.
Qed.

(** X24.  A connection check that finds no connected client and
    returns has called [establish_connection] once, and the instance
    then holds the client that call returned, the services of that
    client as [_cached_services], and as its four characteristics
    what these very services give for the four UUIDs.  The services
    were fetched afresh, once, exactly when the first resolution did
    not find all four. *)
Theorem ensure_connected_stores_client T self h :
  connected_now T self h = false ->
  outcome (_ensure_connected T self h) = Ok tt ->
  let x := _ensure_connected T self h in
  exists c svc,
    establishes (emitted x) = [Ok c] /\
    _client (state_after x) = Some c /\
    _cached_services (state_after x) = Some svc /\
    resolved_in svc (state_after x) /\
    (exists h', svc = t_services T h' c) /\
    refreshes (emitted x)
    = if all_resolved (t_services T (h ++ [EvLog DEBUG (Connecting (_name self));
                                            EvEstablish (Ok c)]) c)
      then [] else [(c, Ok tt)].
Proof. apply ensure_connected_first_link. Qed.

Lemma ensure_connected_stores_client_witness :
  (exists c svc,
      establishes (emitted (_ensure_connected T_ok lamp [])) = [Ok c] /\
      _client (state_after (_ensure_connected T_ok lamp [])) = Some c /\
      _cached_services (state_after (_ensure_connected T_ok lamp [])) = Some svc /\
      resolved_in svc (state_after (_ensure_connected T_ok lamp []))) /\
  refreshes (emitted (_ensure_connected T_stale lamp [])) = [(1%nat, Ok tt)].
Proof.
  split.
  - destruct (ensure_connected_stores_client T_ok lamp [] eq_refl eq_refl)
      as (c & svc & H1 & H2 & H3 & H4 & _).
    by exists c, svc.
  - destruct (ensure_connected_stores_client T_stale lamp [] eq_refl eq_refl)
      as (c & svc & H1 & _ & _ & _ & _ & H6).
    injection H1 as <-. exact H6.
Defined.

Section Session.

Variable T : transport.
Hypothesis HT : healthy T.
Variable h0 : list event.

Lemma linked_once_aloof : aloof (linked_once h0).
Proof.
  split; try (intros v self h (new & -> & H); by exists new).
  intros ev self h Hev (new & -> & H). exists (new ++ [ev]).
  split; [by rewrite app_assoc|]. rewrite establishes_app.
  assert (establishes [ev] = []) as -> by by destruct ev.
  by rewrite app_nil_r.
Qed.

Lemma linked_once_ensure_connected : keeps (linked_once h0) (_ensure_connected T).
Proof.
  destruct HT as [Hest Hget Hconn].
  intros self h (new & -> & H).
  pose proof (establishes_ensure_connected T self (h0 ++ new)) as He.
  assert (connected_now T self (h0 ++ new) = bool_decide (is_Some (_client self))) as Hc.
  { unfold connected_now. destruct H as [[-> _] | (c & Hc & Hn)]; [done|]. rewrite Hc.
    rewrite Hconn; [done|]. rewrite establishes_app, Hn. apply elem_of_app. right. by left. }
  rewrite Hc in He.
  exists (new ++ emitted (_ensure_connected T self (h0 ++ new))).
  split; [by rewrite app_assoc|]. rewrite establishes_app, He.
  destruct H as [[Hn Hnew] | (c & Hcl & Hnew)].
  - rewrite Hn in *. cbn [bool_decide decide_rel] in *.
    assert (bool_decide (is_Some (@None client)) = false) as E by done.
    rewrite E in *. clear E.
    destruct (Hest ((h0 ++ new) ++ [EvLog DEBUG (Connecting (_name self))])) as [c Hok].
    right. exists c. rewrite Hnew, Hok. split; [|done].
    destruct (ensure_connected_first_link T self (h0 ++ new) Hc) as (c' & svc & E1 & E2 & _).
    + rewrite ensure_connected_run, Hc. cbv zeta. rewrite Hok.
      destruct (all_resolved _); [done|]. by rewrite Hget.
    + rewrite He, Hok in E1. by injection E1 as ->.
  - rewrite Hcl in *.
    assert (bool_decide (is_Some (Some c)) = true) as E by done.
    rewrite E in *. clear E.
    right. exists c. rewrite app_nil_r. split; [|done].
    rewrite ensure_connected_run, Hc.
    destruct (reset_disconnect_timer_ok T self (h0 ++ new)) as (_ & -> & _). done.
Qed.

Lemma linked_once_invoke c : keeps (linked_once h0) (invoke T c).
Proof. apply keeps_invoke; [apply linked_once_aloof | apply linked_once_ensure_connected]. Qed.

End Session.

(** X25.  On a healthy transport an instance connects once for all its
    commands: a command on an instance that has not connected makes at
    most one call of [establish_connection] and then holds that
    client; a command on an instance that holds the client of the one
    connection made so far makes no call.  This holds of every
    command, through its attempts, however it ends. *)
Theorem one_connection_per_session T c self h h0 :
  healthy T ->
  linked_once h0 self h ->
  linked_once h0 (state_after (invoke T c self h)) (h ++ emitted (invoke T c self h)).
Proof. intros HT. apply linked_once_invoke, HT. Qed.

Lemma one_connection_per_session_witness :
  linked_once [] (state_after (invoke T_ok TurnOn lamp []))
    ([] ++ emitted (invoke T_ok TurnOn lamp [])) /\
  establishes (emitted (invoke T_ok TurnOn lamp [])) = [Ok 1%nat].
Proof.
  split; [|vm_compute; reflexivity].
  apply (one_connection_per_session T_ok TurnOn lamp [] [] T_ok_healthy).
  exists []. split; [reflexivity|]. by left.
Defined.

(** ** Commands called at the same time *)

Import Commands.

(** *** Where the blocks of a command land *)

Lemma lands_in_bind {A B} (P : B -> Prop) (m : M A) (k : A -> M B) :
  (forall a, lands_in P (k a)) -> lands_in P (bind m k).
Proof.
  intros Hk self h p.
  destruct (m self h) as [[[a|e] self1] e1] eqn:E.
  - rewrite (bind_ok _ _ _ _ _ _ _ E). apply Hk.
  - by rewrite (bind_raise _ _ _ _ _ _ _ E).
Qed.

Lemma lands_in_ret {A} (P : A -> Prop) a : P a -> lands_in P (ret a).
Proof. intros Hp self h q [= <-]. exact Hp. Qed.

Lemma lands_in_raise {A} (P : A -> Prop) e : lands_in P (raise e).
Proof. by intros self h q. Qed.

Lemma lands_in_catch {A} (P : A -> Prop) (m : M A) handler :
  lands_in P m -> (forall e, lands_in P (handler e)) -> lands_in P (catch m handler).
Proof.
  intros Hm Hh self h a. unfold catch.
  specialize (Hm self h).
  destruct (m self h) as [[[a'|e] self1] e1]; run_proj.
  - intros [= <-]. by apply Hm.
  - specialize (Hh e self1 (h ++ e1) a).
    destruct (handler e self1 (h ++ e1)) as [[r s2] e2]. by run_proj.
Qed.

Lemma lands_in_weaken {A} (P Q : A -> Prop) (m : M A) :
  (forall a, P a -> Q a) -> lands_in P m -> lands_in Q m.
Proof. intros HPQ Hm self h a Ha. by apply HPQ, (Hm self h). Qed.

Import Commands.

Section Lands.

Variable T : transport.

(** With the lock held by another, the first check ends in a wait or
    finds the connection. *)
Lemma lands_block_top_held :
  lands_in (fun p => holds p = false /\ (Interleaving.rank p <= 3)%nat) (block_top T true).
Proof.
  unfold block_top. apply lands_in_bind. intros [].
  - apply lands_in_bind. intros _. apply lands_in_ret. cbn. split; [done | lia].
  - apply lands_in_ret. cbn. split; [done | lia].
Qed.

(** A block of [_ensure_connected] takes the coroutine nearer to its
    end, and not under the lock when another holds it. *)
Lemma lands_next p lock_held m :
  Interleaving.next T p lock_held = Some m ->
  lands_in (fun p' => (Interleaving.rank p' < Interleaving.rank p)%nat /\
                      (holds p = false -> lock_held = true -> holds p' = false)) m.
Proof.
  intros Hm. destruct p; cbn in Hm.
  - injection Hm as <-. destruct lock_held.
    + eapply lands_in_weaken; [|apply lands_block_top_held].
      cbn. intros p' [? ?]. split; [lia | done].
    + eapply lands_in_weaken; [|apply (lands_block_top T false)].
      cbn. intros p' ?. split; [lia | done].
  - destruct lock_held; [done|]. injection Hm as <-.
    eapply lands_in_weaken; [|apply (lands_block_locked T)].
    cbn. intros p' ?. split; [lia | done].
  - injection Hm as <-.
    eapply lands_in_weaken; [|apply (lands_block_established T)].
    cbn. intros p' ?. split; [lia | done].
  - injection Hm as <-.
    eapply lands_in_weaken; [|apply (lands_block_refreshed T)].
    cbn. intros p' ?. split; [lia | done].
  - done.
Qed.

Lemma lands_to_write attempt data p n free :
  (Interleaving.rank p < n <= 4)%nat -> (free = false -> holds p = false) ->
  lands_in (point_within n free) (to_write T attempt data p).
Proof.
  intros Hr Hf.
  destruct p; cbn [to_write]; cbn in Hr;
    try (apply lands_in_ret; cbn; split; [auto|split; [lia|done]]).
  - lia.
  - do 2 (apply lands_in_bind; intros ?). destruct a0; [|apply lands_in_raise].
    do 2 (apply lands_in_bind; intros ?). by apply lands_in_ret.
Qed.

Lemma lands_except c attempt err : lands_in (fun pt => pt = Sleeping) (except c attempt err).
Proof.
  unfold except. apply lands_in_bind. intros name.
  destruct (exn_class_of err); try apply lands_in_raise;
    (destruct (attempt =? DEFAULT_ATTEMPTS - 1);
     [apply lands_in_bind; intros _; apply lands_in_raise
     |do 2 (apply lands_in_bind; intros _); by apply lands_in_ret]).
Qed.

Lemma lands_within_point t attempt m (P : point -> Prop) :
  lands_in P m ->
  forall self h t', outcome (within t attempt m self h) = Ok t' ->
    cmd t' = cmd t /\ attempts t' = attempts t /\
    (P (at_point t') \/ at_point t' = Sleeping).
Proof.
  intros Hm self h t'. unfold within.
  assert (lands_in (fun pt => P pt \/ pt = Sleeping) (catch m (except (cmd t) attempt))) as Hc.
  { apply lands_in_catch.
    - eapply lands_in_weaken; [|exact Hm]. by left.
    - intros e. eapply lands_in_weaken; [|apply lands_except]. by right. }
  specialize (Hc self h).
  destruct (catch m (except (cmd t) attempt) self h) as [[[pt|e] s1] e1] eqn:E.
  - rewrite (bind_ok _ _ _ _ _ _ _ E). run_proj. cbn. intros [= <-]. cbn.
    split; [done|]. split; [done|]. by apply Hc.
  - by rewrite (bind_raise _ _ _ _ _ _ _ E).
Qed.

Lemma lands_block_start c attempt lock_held :
  lands_in (point_within 4 (negb lock_held)) (block_start T c attempt lock_held).
Proof.
  unfold block_start. apply lands_in_bind. intros [data|]; [|by apply lands_in_ret].
  intros self h pt.
  destruct (block_top T lock_held self h) as [[[p|e] s1] e1] eqn:E.
  - rewrite (bind_ok _ _ _ _ _ _ _ E). run_proj.
    apply lands_to_write.
    + destruct lock_held.
      * pose proof (lands_block_top_held self h p) as Hp.
        rewrite E in Hp. destruct (Hp eq_refl). lia.
      * pose proof (lands_block_top T false self h p) as Hp.
        rewrite E in Hp. specialize (Hp eq_refl). cbn beta in Hp. lia.
    + destruct lock_held; [|done]. intros _.
      pose proof (lands_block_top_held self h p) as Hp.
      rewrite E in Hp. by destruct (Hp eq_refl).
  - by rewrite (bind_raise _ _ _ _ _ _ _ E).
Qed.

Lemma lands_block_link attempt data p lock_held m :
  Interleaving.next T p lock_held = Some m ->
  lands_in (point_within (Interleaving.rank p) (holds p || negb lock_held))
    (p' <- m ;; to_write T attempt data p').
Proof.
  intros Hm self h pt.
  pose proof (lands_next p lock_held m Hm self h) as Hp.
  destruct (m self h) as [[[p'|e] s1] e1] eqn:E.
  - rewrite (bind_ok _ _ _ _ _ _ _ E). run_proj.
    destruct (Hp p' eq_refl) as [Hr Hh].
    apply lands_to_write.
    + split; [done|]. destruct p; cbn; lia.
    + intros [? ?%negb_false_iff]%orb_false_iff. by apply Hh.
  - by rewrite (bind_raise _ _ _ _ _ _ _ E).
Qed.

Lemma lands_block_written c r :
  lands_in (fun pt => exists v, pt = Returned v) (block_written c r).
Proof.
  unfold block_written. do 2 (apply lands_in_bind; intros _).
  apply lands_in_ret. by eexists.
Qed.

Lemma rank_eq c att pt :
  rank {| cmd := c; attempts := att; at_point := pt |}
  = match pt with
    | Returned _ => 0%nat
    | Start | Sleeping => (5 * length att + 1)%nat
    | Writing _ _ => (5 * length att + 2)%nat
    | Linking _ _ p => (5 * length att + 2 + Interleaving.rank p)%nat
    end.
Proof. reflexivity. Qed.

Lemma within_landing t t0 a m0 n free R self h :
  lands_in (point_within n free) m0 ->
  cmd t0 = cmd t ->
  (1 <= n)%nat ->
  (5 * length (attempts t0) + 2 + n <= R)%nat ->
  let t' := landing t (outcome (within t0 a m0 self h)) in
  cmd t' = cmd t /\ proper t' /\ (rank t' < R)%nat /\
  (free = false -> under_lock t' = false).
Proof.
  intros Hl Hc Hn Hr t'. subst t'.
  pose proof (lands_within_point t0 a m0 _ Hl self h) as Hp.
  destruct (outcome (within t0 a m0 self h)) as [t'|e]; cbn [landing].
  - destruct (Hp t' eq_refl) as (Hc' & Ha & Hpt).
    destruct t' as [c' att' pt']. cbn [cmd attempts at_point] in Hc', Ha, Hpt.
    subst c' att'. rewrite rank_eq. unfold proper, under_lock. cbn [cmd attempts at_point].
    split; [done|].
    destruct Hpt as [Hpt | ->]; [|split; [done|split; [lia|done]]].
    destruct pt'; cbn in Hpt; try done.
    + destruct Hpt as (? & ? & Hfree). split; [done|]. split; [lia|done].
    + split; [done|]. split; [lia|done].
    + split; [done|]. split; [lia|done].
  - rewrite rank_eq. unfold proper, under_lock. cbn [cmd attempts at_point].
    split; [done|]. split; [done|]. split; [lia|done].
Qed.

(** Every block leaves the coroutine at a point [_ensure_connected]
    can be suspended at or outside it, nearer to its end, and not
    under the lock when another coroutine holds it. *)
Lemma next_landing t lock_held m self h :
  next T t lock_held = Some m ->
  let t' := landing t (outcome (m self h)) in
  cmd t' = cmd t /\ proper t' /\ (rank t' < rank t)%nat /\
  (under_lock t = false -> lock_held = true -> under_lock t' = false).
Proof.
  intros Hm t'. subst t'. destruct t as [c att pt]. unfold next in Hm.
  cbn [at_point cmd attempts] in Hm. rewrite rank_eq.
  assert (forall t1 : coroutine, at_point t1 = pt -> attempts t1 = att -> cmd t1 = c ->
    let t' := landing t1 (outcome (enter T t1 lock_held self h)) in
    (pt = Start \/ pt = Sleeping) ->
    cmd t' = c /\ proper t' /\ (rank t' < 5 * length att + 1)%nat /\
    (lock_held = true -> under_lock t' = false)) as He.
  { intros t1 H1 H2 H3 t' Hpt. subst t'. unfold enter. rewrite H2, H3.
    destruct att as [|a rest].
    - cbn. split; [done|]. split; [done|]. split; [lia|done].
    - destruct (within_landing t1
        {| cmd := c; attempts := rest; at_point := Start |} a
        (block_start T c a lock_held) 4 (negb lock_held)
        (5 * length (a :: rest) + 1)%nat self h) as (Q1 & Q2 & Q3 & Q4).
      + apply lands_block_start.
      + by cbn.
      + lia.
      + cbn [attempts length]. lia.
      + rewrite Q1, H3. split; [done|]. split; [done|]. split; [done|].
        intros ->. by apply Q4. }
  destruct pt as [|a data p|a r| |r].
  - injection Hm as <-.
    destruct (He {| cmd := c; attempts := att; at_point := Start |}
                eq_refl eq_refl eq_refl (or_introl eq_refl)) as (Q1 & Q2 & Q3 & Q4).
    split; [done|]. split; [done|]. split; [done|]. intros _. exact Q4.
  - destruct (Interleaving.next T p lock_held) as [m0|] eqn:Hn; [|done]. cbn in Hm.
    injection Hm as <-.
    destruct (within_landing {| cmd := c; attempts := att; at_point := Linking a data p |}
        {| cmd := c; attempts := att; at_point := Linking a data p |} a
        (p' <- m0 ;; to_write T a data p') (Interleaving.rank p) (holds p || negb lock_held)
        (5 * length att + 2 + Interleaving.rank p)%nat self h) as (Q1 & Q2 & Q3 & Q4).
    + by apply lands_block_link.
    + done.
    + destruct p; cbn; try lia. done.
    + cbn [attempts]. lia.
    + split; [done|]. split; [done|]. split; [done|].
      unfold under_lock at 1. cbn [at_point]. intros Hp ->. apply Q4. by rewrite Hp.
  - injection Hm as <-.
    pose proof (lands_within_point {| cmd := c; attempts := att; at_point := Writing a r |}
                  a (block_written c r) _ (lands_block_written c r) self h) as Hp.
    cbn [cmd] in *.
    destruct (outcome (within _ a (block_written c r) self h)) as [t'|e]; cbn [landing].
    + destruct (Hp t' eq_refl) as (Hc' & Ha & Hpt).
      destruct t' as [c' att' pt']. cbn [cmd attempts at_point] in Hc', Ha, Hpt.
      subst c' att'. rewrite rank_eq. unfold proper, under_lock. cbn [cmd attempts at_point].
      destruct Hpt as [[v ->] | ->]; (split; [done|split; [done|split; [lia|done]]]).
    + rewrite rank_eq. unfold proper, under_lock. cbn [cmd attempts at_point].
      split; [done|]. split; [done|]. split; [lia|done].
  - injection Hm as <-.
    destruct (He {| cmd := c; attempts := att; at_point := Sleeping |}
                eq_refl eq_refl eq_refl (or_intror eq_refl)) as (Q1 & Q2 & Q3 & Q4).
    split; [done|]. split; [done|]. split; [done|]. intros _. exact Q4.
  - done.
Qed.

End Lands.

(** *** The lock, whatever the transport does *)

Lemma step_inv T k cfg cfg' :
  step T k cfg = Some cfg' ->
  exists t m,
    tasks cfg !! k = Some t /\ next T t (locked cfg) = Some m /\
    cfg' = {| inst := state_after (m (inst cfg) (hist cfg));
              hist := hist cfg ++ emitted (m (inst cfg) (hist cfg));
              locked := under_lock (landing t (outcome (m (inst cfg) (hist cfg))))
                        || (locked cfg && negb (under_lock t));
              tasks := <[k := landing t (outcome (m (inst cfg) (hist cfg)))]> (tasks cfg) |}.
Proof.
  unfold step. intros Hstep.
  destruct (tasks cfg !! k) as [t|] eqn:Hk; [|done]. cbn in Hstep.
  destruct (next T t (locked cfg)) as [m|] eqn:Hm; [|done]. cbn in Hstep.
  injection Hstep as <-. by exists t, m.
Qed.

Lemma step_coherent T k cfg cfg' :
  coherent cfg -> step T k cfg = Some cfg' -> coherent cfg'.
Proof.
  intros [Hp H1 Hl] (t & m & Hk & Hm & ->)%step_inv.
  destruct (next_landing T t (locked cfg) m (inst cfg) (hist cfg) Hm) as (_ & Q2 & _ & Q4).
  set (t' := landing t (outcome (m (inst cfg) (hist cfg)))) in *.
  assert (under_lock t = false -> locked cfg = true -> under_lock t' = false) as Q by done.
  assert (forall j q, <[k := t']> (tasks cfg) !! j = Some q -> under_lock q = true ->
            j = k \/ (j <> k /\ tasks cfg !! j = Some q)) as Hins.
  { intros j q Hq _. apply list_lookup_insert_Some in Hq as [(-> & _ & _) | (? & ?)]; auto. }
  assert (forall j q, j <> k -> tasks cfg !! j = Some q -> under_lock q = true ->
            locked cfg = true /\ under_lock t = false) as Hother.
  { intros j q Hj Hq Hu. split; [apply Hl; by exists j, q|].
    destruct (under_lock t) eqn:Ht; [|done]. destruct Hj. by apply (H1 j k q t). }
  split; cbn [tasks locked].
  - by apply Forall_insert.
  - intros i j p q Hi Hj Hpu Hqu.
    destruct (Hins i p Hi Hpu) as [-> | [Hik Hi']]; destruct (Hins j q Hj Hqu) as [-> | [Hjk Hj']];
      try done.
    + destruct (Hother j q Hjk Hj' Hqu) as [Hlk Ht].
      rewrite list_lookup_insert_eq in Hi by (by eapply lookup_lt_Some). injection Hi as <-.
      by rewrite Q in Hpu.
    + destruct (Hother i p Hik Hi' Hpu) as [Hlk Ht].
      rewrite list_lookup_insert_eq in Hj by (by eapply lookup_lt_Some). injection Hj as <-.
      by rewrite Q in Hqu.
    + by apply (H1 i j p q).
  - split.
    + intros [Hu | [Hlk Hnt%negb_true_iff]%andb_true_iff]%orb_true_iff.
      * exists k, t'. split; [|done]. apply list_lookup_insert_eq. by eapply lookup_lt_Some.
      * apply Hl in Hlk as (j & q & Hj & Hq). exists j, q. split; [|done].
        rewrite list_lookup_insert_ne; [done|]. intros <-. congruence.
    + intros (j & q & Hj & Hq). apply orb_true_iff.
      destruct (Hins j q Hj Hq) as [-> | [Hjk Hj']].
      * rewrite list_lookup_insert_eq in Hj by (by eapply lookup_lt_Some). injection Hj as <-.
        by left.
      * destruct (Hother j q Hjk Hj' Hq) as [Hlk Ht]. right. by rewrite Hlk, Ht.
Qed.

Lemma run_coherent T schedule cfg : coherent cfg -> coherent (run T schedule cfg).
Proof.
  revert cfg. induction schedule as [|k rest IH]; intros cfg Hc; [done|].
  cbn [run]. apply IH. destruct (step T k cfg) as [cfg'|] eqn:E; [|done].
  by apply (step_coherent T k cfg).
Qed.

Lemma start_coherent self h cmds : coherent (start self h cmds).
Proof.
  assert (forall k p, map called cmds !! k = Some p -> under_lock p = false) as Hn.
  { intros k p Hk. rewrite list_lookup_fmap in Hk.
    destruct (cmds !! k); [|done]. by injection Hk as <-. }
  split; cbn [start tasks locked].
  - apply Forall_lookup. intros k p Hk. rewrite list_lookup_fmap in Hk.
    destruct (cmds !! k); [|done]. by injection Hk as <-.
  - intros j k p q Hj _ Hp. by rewrite (Hn j p Hj) in Hp.
  - split; [done|]. intros (k & p & Hk & Hp). by rewrite (Hn k p Hk) in Hp.
Qed.

(** *** Every command comes to its end *)

Lemma sum_list_with_rank_insert (l : list coroutine) k p p' :
  l !! k = Some p ->
  (sum_list_with rank (<[k := p']> l) + rank p = sum_list_with rank l + rank p')%nat.
Proof.
  revert k. induction l as [|q l IH]; intros [|k] Hk; try done; simpl in *.
  - injection Hk as ->. lia.
  - specialize (IH k Hk). lia.
Qed.

Lemma command_step_weight T k cfg cfg' :
  step T k cfg = Some cfg' -> (weight cfg' < weight cfg)%nat.
Proof.
  intros (t & m & Hk & Hm & ->)%step_inv. unfold weight. cbn [tasks].
  destruct (next_landing T t (locked cfg) m (inst cfg) (hist cfg) Hm) as (_ & _ & Q3 & _).
  pose proof (sum_list_with_rank_insert (tasks cfg) k t
                (landing t (outcome (m (inst cfg) (hist cfg)))) Hk).
  lia.
Qed.

Lemma returned_dec t : {returned t} + {~ returned t}.
Proof.
  destruct t as [c a []]; [right | right | right | right | left; by eexists];
    by intros [? ?].
Qed.

(** As long as a command is not over, one of the coroutines can run:
    the one under the lock when it is held, any other when it is free. *)
Lemma coherent_progress T cfg k t :
  coherent cfg ->
  tasks cfg !! k = Some t -> ~ returned t ->
  exists j cfg', step T j cfg = Some cfg'.
Proof.
  intros [Hp H1 Hl] Hk Ht.
  assert (forall j q m, tasks cfg !! j = Some q -> next T q (locked cfg) = Some m ->
                        exists j cfg', step T j cfg = Some cfg') as Hstep.
  { intros j q m Hj Hm. exists j. unfold step. rewrite Hj. cbn. rewrite Hm. by eexists. }
  destruct (locked cfg) eqn:Hlk.
  - destruct (proj1 Hl eq_refl) as (j & q & Hj & Hq).
    destruct q as [c a pt]. unfold under_lock in Hq. cbn in Hq.
    destruct pt as [|at_ data p|? ?| |?]; try done.
    destruct p; try done; eapply (Hstep j); try exact Hj; unfold next; cbn; done.
  - pose proof (proj1 (Forall_lookup _ _) Hp k t Hk) as Hpr.
    destruct t as [c a pt]. unfold proper in Hpr. cbn in Hpr.
    destruct pt as [|at_ data p|? ?| |?].
    + eapply (Hstep k); [exact Hk|]. by unfold next.
    + destruct Hpr as [-> | Hh].
      * eapply (Hstep k); [exact Hk|]. unfold next. by cbn.
      * destruct p; try done; eapply (Hstep k); try exact Hk; unfold next; cbn; done.
    + eapply (Hstep k); [exact Hk|]. by unfold next.
    + eapply (Hstep k); [exact Hk|]. by unfold next.
    + destruct Ht. by eexists.
Qed.

Lemma coherent_completes T cfg :
  coherent cfg -> exists schedule, Forall returned (tasks (run T schedule cfg)).
Proof.
  remember (weight cfg) as w eqn:Hw.
  revert cfg Hw. induction (lt_wf w) as [w _ IH]. intros cfg -> Hc.
  destruct (Forall_Exists_dec returned (fun p => ~ returned p)
              (fun p => returned_dec p) (tasks cfg)) as [Hall | Hex].
  - by exists [].
  - apply Exists_exists in Hex as (p & Hin & Hp).
    apply list_elem_of_lookup in Hin as [k Hk].
    destruct (coherent_progress T cfg k p Hc Hk Hp) as (j & cfg' & Hstep).
    destruct (IH (weight cfg') (command_step_weight T j cfg cfg' Hstep) cfg' eq_refl
                (step_coherent T j cfg cfg' Hc Hstep)) as [schedule Hfin].
    exists (j :: schedule). cbn [run]. by rewrite Hstep.
Qed.

(** *** The blocks of a command, by what they do to the link *)

(** The except clauses change nothing on the instance and neither
    connect nor write; they end in the sleep for an exception of a
    retrying clause before the last attempt, and raise otherwise. *)
Lemma except_run c attempt err self h :
  exists evs,
    establishes evs = [] /\ writes evs = [] /\
    except c attempt err self h
    = (if transient err && negb (attempt =? DEFAULT_ATTEMPTS - 1)
       then Ok Sleeping else Raise err, self, evs).
Proof.
  unfold except, transient, bind, get, LOGGER, asyncio_sleep, emit, raise, ret.
  destruct err as [[] text]; cbn [exn_class_of andb]; try (by exists []);
    (destruct (attempt =? DEFAULT_ATTEMPTS - 1); cbn [negb];
     eexists; (split; [|split; [|reflexivity]]); done).
Qed.

Lemma within_run t attempt m self h :
  match outcome (m self h) with
  | Ok pt =>
      within t attempt m self h
      = (Ok {| cmd := cmd t; attempts := attempts t; at_point := pt |},
         state_after (m self h), emitted (m self h))
  | Raise e =>
      exists evs,
        establishes evs = [] /\ writes evs = [] /\
        within t attempt m self h
        = (if transient e && negb (attempt =? DEFAULT_ATTEMPTS - 1)
           then Ok {| cmd := cmd t; attempts := attempts t; at_point := Sleeping |}
           else Raise e,
           state_after (m self h), emitted (m self h) ++ evs)
  end.
Proof.
  unfold within, bind, catch, ret.
  destruct (m self h) as [[[pt|e] s1] e1]; run_proj.
  - by rewrite app_nil_r.
  - destruct (except_run (cmd t) attempt e s1 (h ++ e1)) as (evs & E1 & E2 & ->).
    exists evs. split; [done|]. split; [done|].
    destruct (transient e && negb (attempt =? DEFAULT_ATTEMPTS - 1)); [|done].
    by rewrite app_nil_r.
Qed.

(** The statements before [_write] leave the link alone, and what they
    raise is no exception of the decorator's clauses. *)
Lemma prologue_run c self h :
  _client (state_after (prologue c self h)) = _client self /\
  establishes (emitted (prologue c self h)) = [] /\
  writes (emitted (prologue c self h)) = [] /\
  (forall e, outcome (prologue c self h) = Raise e -> exn_class_of e = Uncaught).
Proof.
  destruct c; cbn [prologue].
  - by rewrite bind_get.
  - by rewrite bind_get.
  - rewrite bind_assign. unfold bytearray.
    destruct (forallb _ _); [by rewrite bind_lift_ok|].
    rewrite bind_lift_raise. run_proj. repeat split; try done. by intros e [= <-].
  - rewrite bind_assign. unfold brightness_byte.
    destruct (PyFloat.of_int brightness);
      [|rewrite bind_lift_raise; run_proj; repeat split; try done; by intros e [= <-]].
    destruct (PyFloat.to_int _);
      [|rewrite bind_lift_raise; run_proj; repeat split; try done; by intros e [= <-]].
    rewrite bind_lift_ok. unfold bytearray.
    destruct (forallb _ _); [by rewrite bind_lift_ok|].
    rewrite bind_lift_raise. run_proj. repeat split; try done. by intros e [= <-].
  - destruct (EFFECT_MAP !! effect).
    + unfold bytearray. destruct (forallb _ _); [by rewrite bind_lift_ok|].
      rewrite bind_lift_raise. run_proj. repeat split; try done. by intros e [= <-].
    + unfold LOGGER. by rewrite bind_emit.
  - unfold speed_byte.
    destruct (PyFloat.of_int speed);
      [|rewrite bind_lift_raise; run_proj; repeat split; try done; by intros e [= <-]].
    destruct (PyFloat.to_int _);
      [|rewrite bind_lift_raise; run_proj; repeat split; try done; by intros e [= <-]].
    rewrite bind_lift_ok. unfold bytearray.
    destruct (forallb _ _); [by rewrite bind_lift_ok|].
    rewrite bind_lift_raise. run_proj. repeat split; try done. by intros e [= <-].
Qed.

Lemma epilogue_run c self h :
  exists self', epilogue c self h = (Ok tt, self', []) /\ _client self' = _client self.
Proof. destruct c; cbn [epilogue]; by eexists. Qed.

Lemma block_written_run c r self h :
  _client (state_after (block_written c r self h)) = _client self /\
  emitted (block_written c r self h) = [].
Proof.
  unfold block_written. destruct r as [[]|e].
  - rewrite bind_lift_ok.
    destruct (epilogue_run c self h) as (self' & E & Hc).
    rewrite (bind_ok _ _ _ _ _ _ _ E). by run_proj.
  - by rewrite bind_lift_raise.
Qed.

Section Linked.

Variable T : transport.

(** [_ensure_connected] has returned with a client in hand: the write
    is called. *)
Lemma to_write_run attempt data c self h :
  _client self = Some c ->
  to_write T attempt data (Finished (Ok tt)) self h
  = (Ok (Writing attempt (t_write T h c (_write_uuid self) data)), self,
     [EvWrite c (_write_uuid self) data (t_write T h c (_write_uuid self) data)]).
Proof.
  intros Hc. cbn [to_write]. rewrite bind_lift_ok, bind_get, Hc, bind_get.
  unfold bind, call_write, ret. cbn. done.
Qed.

Lemma to_write_suspended attempt data p self h :
  (forall r, p <> Finished r) ->
  to_write T attempt data p self h = (Ok (Linking attempt data p), self, []).
Proof. intros Hp. destruct p; try done. by destruct (Hp r). Qed.

Lemma block_locked_offline self h :
  match _client self with
  | Some c => t_is_connected T h c
  | None => false
  end = false ->
  block_locked T self h
  = (Ok (InEstablish (t_establish T (h ++ [EvLog DEBUG (Connecting (_name self))]))),
     self,
     [EvLog DEBUG (Connecting (_name self));
      EvEstablish (t_establish T (h ++ [EvLog DEBUG (Connecting (_name self))]))]).
Proof.
  intros Hc. unfold block_locked.
  rewrite (bind_ok _ _ _ _ _ _ _ (client_and_connected_run T self h)), Hc, app_nil_r.
  cbn [app]. run_proj. rewrite bind_get. unfold LOGGER. rewrite bind_emit.
  unfold bind, call_establish, ret. cbn. done.
Qed.

Lemma block_top_offline lock_held self h :
  match _client self with
  | Some c => t_is_connected T h c
  | None => false
  end = false ->
  block_top T lock_held self h
  = if lock_held then (Ok WaitLock, self, []) else block_locked T self h.
Proof.
  intros Hc. unfold block_top.
  rewrite (bind_ok _ _ _ _ _ _ _ (client_and_connected_run T self h)), Hc, app_nil_r.
  cbn [app]. destruct lock_held; [done|]. by rewrite <- run_split.
Qed.

Lemma reset_disconnect_timer_writes self h :
  writes (emitted (_reset_disconnect_timer T self h)) = [].
Proof. by destruct (quiet_reset_disconnect_timer T self h) as (_ & _ & ? & _). Qed.

Lemma block_established_writes r self h :
  writes (emitted (block_established T r self h)) = [].
Proof.
  assert (quiet (block_established T r)) as Hq.
  { unfold block_established, finish_connect, call_get_services.
    apply quiet_bind; [auto with quiet|]. intros c.
    apply quiet_bind; [apply quiet_client_services|]. intros svc.
    apply quiet_bind; [apply (quiet_resolve_characteristics T)|].
    intros [].
    - apply quiet_bind; [|auto with quiet].
      apply quiet_bind; [auto with quiet|]. intros _.
      apply quiet_bind; [apply quiet_client_services|]. intros svc'.
      apply quiet_bind; [auto with quiet|]. intros _. apply quiet_reset_disconnect_timer.
    - apply quiet_bind; [auto with quiet|]. intros _.
      apply quiet_bind; [|auto with quiet]. by intros self' h'. }
  by destruct (Hq self h) as (_ & _ & ? & _).
Qed.

Lemma within_ok t attempt m self h pt s e :
  m self h = (Ok pt, s, e) ->
  within t attempt m self h
  = (Ok {| cmd := cmd t; attempts := attempts t; at_point := pt |}, s, e).
Proof. intros E. pose proof (within_run t attempt m self h) as H. by rewrite E in H. Qed.

Lemma within_raise t attempt m self h err s e :
  m self h = (Raise err, s, e) ->
  exists evs,
    establishes evs = [] /\ writes evs = [] /\
    within t attempt m self h
    = (if transient err && negb (attempt =? DEFAULT_ATTEMPTS - 1)
       then Ok {| cmd := cmd t; attempts := attempts t; at_point := Sleeping |}
       else Raise err, s, e ++ evs).
Proof. intros E. pose proof (within_run t attempt m self h) as H. by rewrite E in H. Qed.

(** In the except clauses or out of them, a block that raised leaves
    its coroutine outside the lock. *)
Lemma within_raise_landing t0 t attempt m self h err s e :
  m self h = (Raise err, s, e) ->
  state_after (within t attempt m self h) = s /\
  establishes (emitted (within t attempt m self h)) = establishes e /\
  writes (emitted (within t attempt m self h)) = writes e /\
  under_lock (landing t0 (outcome (within t attempt m self h))) = false /\
  (transient err = false ->
   at_point (landing t0 (outcome (within t attempt m self h))) = Returned (Raise err)).
Proof.
  intros E. destruct (within_raise t attempt m self h err s e E) as (evs & E1 & E2 & ->).
  run_proj. rewrite establishes_app, writes_app, E1, E2, !app_nil_r.
  split; [done|]. split; [done|]. split; [done|].
  destruct (transient err); cbn [andb]; [|done].
  by destruct (negb _).
Qed.

(** The head of the loop on a connected instance: the first check
    finds the client, and the coroutine gets to its write or to its
    end without another connection. *)
Lemma connected_to_write (m : M pc) attempt data c self h :
  (m = block_top T true \/ m = block_top T false \/ m = block_locked T) ->
  _client self = Some c ->
  t_is_connected T h c = true ->
  exists r s e,
    (p <- m ;; to_write T attempt data p) self h = (Ok (Writing attempt r), s, e) /\
    _client s = Some c /\ establishes e = [] /\ writes e <> [].
Proof.
  intros Hm Hc Hconn.
  destruct (block_connected T m c self h Hm Hc Hconn) as (Eo & Ec & Ee).
  rewrite (bind_ok m _ self h (Finished (Ok tt)) (state_after (m self h)) (emitted (m self h)))
    by (by rewrite (run_split (m self h)) at 1; rewrite Eo).
  rewrite (to_write_run attempt data c) by done. run_proj.
  eexists _, _, _. split; [reflexivity|]. split; [done|].
  rewrite establishes_app, writes_app, Ee. split; [done|].
  cbn. intros Hw. by apply app_eq_nil in Hw as [_ Hw].
Qed.

End Linked.

(** *** One connection for all the commands *)

Lemma block_start_run T c attempt lock_held self h :
  block_start T c attempt lock_held self h
  = match outcome (prologue c self h) with
    | Ok (Some data) =>
        let y := (p <- block_top T lock_held ;; to_write T attempt data p)
                   (state_after (prologue c self h)) (h ++ emitted (prologue c self h)) in
        (outcome y, state_after y, emitted (prologue c self h) ++ emitted y)
    | Ok None =>
        (Ok (Returned (Ok (Some tt))), state_after (prologue c self h),
         emitted (prologue c self h))
    | Raise e => (Raise e, state_after (prologue c self h), emitted (prologue c self h))
    end.
Proof.
  unfold block_start, bind.
  destruct (prologue c self h) as [[[[data|]|e] s1] e1]; run_proj; cbn zeta.
  - by destruct (block_top T lock_held s1 (h ++ e1)) as [[[p|e] s2] e2];
      [destruct (to_write T attempt data p s2 ((h ++ e1) ++ e2)) as [[r s3] e3]|].
  - cbn. by rewrite ?app_nil_r.
  - done.
Qed.

Lemma link_run {A} (m : M A) (k : A -> M point) self h a :
  outcome (m self h) = Ok a ->
  (x <- m ;; k x) self h
  = (outcome (k a (state_after (m self h)) (h ++ emitted (m self h))),
     state_after (k a (state_after (m self h)) (h ++ emitted (m self h))),
     emitted (m self h) ++ emitted (k a (state_after (m self h)) (h ++ emitted (m self h)))).
Proof.
  intros Ho. apply bind_ok. by rewrite (run_split (m self h)) at 1; rewrite Ho.
Qed.

Section Stages.

Variable T : transport.
Variable h0 : list event.
Variable held : option client.
Hypothesis HS : steady T h0 held.

Lemma held_not_connected new self :
  _client self = held ->
  (forall c, held = Some c -> Ok c ∉ establishes new) ->
  match _client self with
  | Some c => t_is_connected T (h0 ++ new) c
  | None => false
  end = false.
Proof.
  intros Hheld Hn. destruct (_client self) as [c|] eqn:E; [|done].
  apply (steady_dead T h0 held HS); [done | by apply Hn].
Qed.

(** At the head of the loop while the instance is not connected: the
    command is over before its write, or waits for the lock, or takes
    it and calls [establish_connection]. *)
Lemma enter_offline t lock_held new self a rest :
  _client self = held ->
  (forall c, held = Some c -> Ok c ∉ establishes new) ->
  attempts t = a :: rest ->
  let x := enter T t lock_held self (h0 ++ new) in
  let t' := landing t (outcome x) in
  _client (state_after x) = held /\ writes (emitted x) = [] /\
  ((establishes (emitted x) = [] /\ returned t' /\ ~ sends (cmd t)) \/
   (lock_held = true /\ establishes (emitted x) = [] /\
    exists d, at_point t' = Linking a d WaitLock) \/
   (lock_held = false /\
    exists c d, establishes (emitted x) = [Ok c] /\ held <> Some c /\
                at_point t' = Linking a d (InEstablish (Ok c)))).
Proof.
  intros Hheld Hfresh Ha x t'. subst x t'. unfold enter. rewrite Ha.
  set (t1 := {| cmd := cmd t; attempts := rest; at_point := Start |}).
  destruct (prologue_run (cmd t) self (h0 ++ new)) as (P1 & P2 & P3 & P4).
  pose proof (block_start_run T (cmd t) a lock_held self (h0 ++ new)) as Hb.
  set (s1 := state_after (prologue (cmd t) self (h0 ++ new))) in *.
  set (e1 := emitted (prologue (cmd t) self (h0 ++ new))) in *.
  assert (_client s1 = held) as Hheld1 by congruence.
  assert (match _client s1 with
          | Some c => t_is_connected T (h0 ++ new ++ e1) c
          | None => false
          end = false) as Hnc.
  { apply held_not_connected; [done|]. intros c Hc. rewrite establishes_app, P2, app_nil_r.
    by apply Hfresh. }
  destruct (outcome (prologue (cmd t) self (h0 ++ new))) as [[data|]|e] eqn:Ep.
  - cbn zeta in Hb. rewrite <- app_assoc in Hb.
    destruct (steady_establish T h0 held HS (new ++ e1 ++ [EvLog DEBUG (Connecting (_name s1))]))
      as (c & Hc & Hne).
    rewrite !app_assoc in Hc. rewrite <- (app_assoc h0 new e1) in Hc.
    pose proof (block_top_offline T lock_held s1 _ Hnc) as Ht.
    rewrite (block_locked_offline T s1 _ Hnc), Hc in Ht.
    rewrite (link_run (block_top T lock_held) _ _ _
               (if lock_held then WaitLock else InEstablish (Ok c))) in Hb
      by (rewrite Ht; by destruct lock_held).
    rewrite Ht in Hb.
    destruct lock_held.
    + run_proj. rewrite to_write_suspended in Hb by done. run_proj.
      rewrite (within_ok _ _ _ _ _ _ _ _ Hb). run_proj. cbn [landing at_point].
      rewrite !app_nil_r, P2, P3. split; [done|]. split; [done|].
      right. left. split; [done|]. split; [done|]. by eexists.
    + run_proj. rewrite to_write_suspended in Hb by done. run_proj.
      rewrite (within_ok _ _ _ _ _ _ _ _ Hb). run_proj. cbn [landing at_point].
      rewrite !app_nil_r, establishes_app, writes_app, P2, P3.
      split; [done|]. split; [done|]. right. right. split; [done|]. by exists c, data.
  - rewrite (within_ok _ _ _ _ _ _ _ _ Hb). run_proj. cbn [landing].
    split; [done|]. split; [done|]. left. split; [done|]. split; [by eexists|].
    intros Hs. destruct (Hs self (h0 ++ new)) as [data Hd]. congruence.
  - destruct (within_raise_landing t t1 a _ _ _ _ _ _ Hb) as (-> & -> & -> & _ & Hr).
    split; [done|]. split; [done|]. left. split; [done|]. split.
    + eexists. apply Hr. unfold transient. by rewrite (P4 e eq_refl).
    + intros Hs. destruct (Hs self (h0 ++ new)) as [data Hd]. congruence.
Qed.

(** On a connected instance the head of the loop leads to the write
    or to the end of the command, without another connection. *)
Lemma enter_online t lock_held c self h :
  _client self = Some c ->
  (forall e, t_is_connected T (h ++ e) c = true) ->
  let x := enter T t lock_held self h in
  establishes (emitted x) = [] /\
  _client (state_after x) = Some c /\
  under_lock (landing t (outcome x)) = false.
Proof.
  intros Hc Hconn x. subst x. unfold enter.
  destruct (attempts t) as [|a rest]; [done|].
  set (t1 := {| cmd := cmd t; attempts := rest; at_point := Start |}).
  destruct (prologue_run (cmd t) self h) as (P1 & P2 & P3 & P4).
  pose proof (block_start_run T (cmd t) a lock_held self h) as Hb.
  destruct (outcome (prologue (cmd t) self h)) as [[data|]|e] eqn:Ep.
  - cbn zeta in Hb.
    destruct (connected_to_write T (block_top T lock_held) a data c
                (state_after (prologue (cmd t) self h)) (h ++ emitted (prologue (cmd t) self h)))
      as (r & s & e & E & Es & Ee & _); [destruct lock_held; auto | congruence | apply Hconn |].
    rewrite E in Hb. run_proj.
    rewrite (within_ok _ _ _ _ _ _ _ _ Hb). run_proj. cbn [landing].
    by rewrite establishes_app, P2, Ee.
  - rewrite (within_ok _ _ _ _ _ _ _ _ Hb). run_proj. cbn [landing].
    split; [done|]. split; [congruence | done].
  - destruct (within_raise_landing t t1 a _ _ _ _ _ _ Hb) as (-> & -> & _ & Hu & _).
    split; [done|]. split; [congruence | done].
Qed.

(** So does the second check of a coroutine that waited for the lock. *)
Lemma link_online t attempt data p lock_held m c self h :
  holds p = false ->
  Interleaving.next T p lock_held = Some m ->
  _client self = Some c ->
  t_is_connected T h c = true ->
  let x := within t attempt (p' <- m ;; to_write T attempt data p') self h in
  establishes (emitted x) = [] /\
  _client (state_after x) = Some c /\
  under_lock (landing t (outcome x)) = false.
Proof.
  intros Hp Hm Hc Hconn x. subst x.
  destruct (connected_to_write T m attempt data c self h) as (r & s & e & E & Es & Ee & _);
    [|done|done|].
  { destruct p; try done; cbn in Hm.
    - injection Hm as <-. destruct lock_held; auto.
    - destruct lock_held; [done|]. injection Hm as <-. auto. }
  rewrite (within_ok _ _ _ _ _ _ _ _ E). by run_proj.
Qed.

(** The end of a write touches neither the link nor the lock. *)
Lemma written_landing t attempt r self h :
  let x := within t attempt (block_written (cmd t) r) self h in
  establishes (emitted x) = [] /\
  _client (state_after x) = _client self /\
  under_lock (landing t (outcome x)) = false.
Proof.
  intros x. subst x.
  destruct (block_written_run (cmd t) r self h) as [Bc Be].
  pose proof (lands_block_written (cmd t) r self h) as Hl.
  destruct (block_written (cmd t) r self h) as [[[pt|e] s1] e1] eqn:E; run_proj.
  - rewrite (within_ok _ _ _ _ _ _ _ _ E). run_proj. subst e1. cbn [landing].
    destruct (Hl pt eq_refl) as [v ->]. done.
  - destruct (within_raise_landing t t attempt _ _ _ _ _ _ E) as (-> & -> & _ & Hu & _).
    by subst e1.
Qed.

(** The coroutine under the lock, with its connection in hand, gets
    to its write or asks for the services again. *)
Lemma holder_established t attempt data c self new :
  let x := within t attempt
             (p' <- block_established T (Ok c) ;; to_write T attempt data p')
             self (h0 ++ new) in
  establishes (emitted x) = [] /\
  ((_client (state_after x) = Some c /\ under_lock (landing t (outcome x)) = false) \/
   (_client (state_after x) = _client self /\ writes (emitted x) = [] /\
    outcome x = Ok {| cmd := cmd t; attempts := attempts t;
                      at_point := Linking attempt data (InGetServices c (Ok tt)) |})).
Proof.
  intros x. subst x.
  pose proof (block_established_writes T (Ok c) self (h0 ++ new)) as Hw.
  destruct (block_established_run T c self (h0 ++ new))
    as (Ee & [[Eo Ec] | (r & Eo & Er & Ec)]).
  - pose proof (link_run _ (to_write T attempt data) _ _ _ Eo) as E.
    rewrite (to_write_run T attempt data c) in E by done. run_proj.
    rewrite (within_ok _ _ _ _ _ _ _ _ E). run_proj. cbn [landing].
    rewrite establishes_app, Ee. split; [done|]. by left.
  - rewrite <- app_assoc, (steady_get_services T h0 held HS) in Er. subst r.
    pose proof (link_run _ (to_write T attempt data) _ _ _ Eo) as E.
    rewrite to_write_suspended in E by done. run_proj.
    rewrite (within_ok _ _ _ _ _ _ _ _ E). run_proj.
    rewrite !app_nil_r. split; [done|]. by right.
Qed.

Lemma holder_refreshed t attempt data c self h :
  let x := within t attempt
             (p' <- block_refreshed T c (Ok tt) ;; to_write T attempt data p') self h in
  establishes (emitted x) = [] /\
  _client (state_after x) = Some c /\ under_lock (landing t (outcome x)) = false.
Proof.
  intros x. subst x.
  destruct (block_refreshed_run T c self h) as (Ee & Eo & Ec).
  pose proof (link_run _ (to_write T attempt data) _ _ _ Eo) as E.
  rewrite (to_write_run T attempt data c) in E by done. run_proj.
  rewrite (within_ok _ _ _ _ _ _ _ _ E). run_proj. cbn [landing].
  by rewrite establishes_app, Ee.
Qed.

End Stages.

Lemma idle_queued t : idle t -> queued t.
Proof. by left. Qed.

Lemma queued_outside t : queued t -> under_lock t = false.
Proof.
  unfold under_lock.
  intros [[[-> _] | [[r ->] _]] | (a & d & ->)]; done.
Qed.

Lemma step_stage T h0 held k cfg cfg' :
  steady T h0 held -> stage held h0 cfg -> step T k cfg = Some cfg' -> stage held h0 cfg'.
Proof.
  intros HS Hst (t & m & Hk & Hm & ->)%step_inv.
  assert (k < length (tasks cfg))%nat as Hlen by (by eapply lookup_lt_Some).
  pose proof (proj1 (next_landing T t (locked cfg) m (inst cfg) (hist cfg) Hm)) as Hcmd.
  destruct Hst as [new Hh He Hw Hheld Hl Hidle
                   | new k0 c t0 a d Hh He Hw Hheld Hne Hl Hk0 Hp0 Hq
                   | new c Hh He Hc Hl Hout].
  - (* nobody has connected yet *)
    pose proof (proj1 (Forall_lookup _ _) Hidle k t Hk) as [[Hpt Hatt] | [[r Hr] _]];
      [|unfold next in Hm; by rewrite Hr in Hm].
    unfold next in Hm. rewrite Hpt, Hl in Hm. injection Hm as <-.
    destruct (attempts t) as [|a rest] eqn:Ha; [done|].
    rewrite Hh, Hl. rewrite Hh in Hcmd.
    assert (forall c, held = Some c -> Ok c ∉ establishes new) as Hfresh.
    { intros c _. rewrite He. apply not_elem_of_nil. }
    destruct (enter_offline T h0 held HS t false new (inst cfg) a rest Hheld Hfresh Ha)
      as (Hheld' & Hw' & [(He' & Hr' & Hs') | [(? & _) | (_ & c & d & He' & Hne' & Hp')]]);
      [|done|].
    + apply (NoLink _ _ _ (new ++ emitted (enter T t false (inst cfg) (h0 ++ new))));
        cbn [inst hist locked tasks].
      * by rewrite app_assoc.
      * by rewrite establishes_app, He, He'.
      * by rewrite writes_app, Hw, Hw'.
      * done.
      * destruct Hr' as [r Hr']. unfold under_lock. by rewrite Hr'.
      * apply Forall_insert; [done|]. right. split; [done|]. by rewrite Hcmd.
    + eapply (OneLinking _ _ _ (new ++ emitted (enter T t false (inst cfg) (h0 ++ new))) k c);
        cbn [inst hist locked tasks].
      * by rewrite app_assoc.
      * by rewrite establishes_app, He, He'.
      * by rewrite writes_app, Hw, Hw'.
      * done.
      * done.
      * unfold under_lock. by rewrite Hp'.
      * by apply list_lookup_insert_eq.
      * left. exact Hp'.
      * intros j q Hj. rewrite list_lookup_insert_ne by done. intros Hjq.
        apply idle_queued. by apply (proj1 (Forall_lookup _ _) Hidle j q).
  - destruct (decide (k = k0)) as [->|Hnk].
    + (* the coroutine under the lock goes on *)
      rewrite Hk0 in Hk. injection Hk as <-.
      assert (under_lock t0 = true) as Hu0.
      { unfold under_lock. by destruct Hp0 as [-> | ->]. }
      rewrite Hu0, Hl, Hh. cbn [negb andb orb].
      destruct Hp0 as [Hp0 | Hp0]; unfold next in Hm; rewrite Hp0 in Hm; cbn in Hm;
        injection Hm as <-.
      * destruct (holder_established T h0 held HS t0 a d c (inst cfg) new)
          as (He' & [[Hc' Hu'] | (Hc' & Hw' & Ho')]).
        -- apply (HasLink _ _ _ (new ++ emitted (within t0 a
                    (p' <- block_established T (Ok c);; to_write T a d p')
                    (inst cfg) (h0 ++ new))) c);
             cbn [inst hist locked tasks].
           ++ by rewrite app_assoc.
           ++ by rewrite establishes_app, He, He'.
           ++ done.
           ++ by rewrite Hu'.
           ++ apply Forall_lookup. intros j q Hj.
              apply list_lookup_insert_Some in Hj as [(_ & <- & _) | (Hj & Hjq)]; [done|].
              by apply queued_outside, (Hq j q).
        -- rewrite Ho'. cbn [landing].
           eapply (OneLinking _ _ _ (new ++ emitted (within t0 a
                    (p' <- block_established T (Ok c);; to_write T a d p')
                    (inst cfg) (h0 ++ new)))
                    k0 c); cbn [inst hist locked tasks].
           ++ by rewrite app_assoc.
           ++ by rewrite establishes_app, He, He'.
           ++ by rewrite writes_app, Hw, Hw'.
           ++ congruence.
           ++ done.
           ++ done.
           ++ by apply list_lookup_insert_eq.
           ++ right. reflexivity.
           ++ intros j q Hj. rewrite list_lookup_insert_ne by done. by apply Hq.
      * destruct (holder_refreshed T t0 a d c (inst cfg) (h0 ++ new)) as (He' & Hc' & Hu').
        apply (HasLink _ _ _ (new ++ emitted (within t0 a
                 (p' <- block_refreshed T c (Ok tt);; to_write T a d p')
                 (inst cfg) (h0 ++ new))) c);
          cbn [inst hist locked tasks].
        -- by rewrite app_assoc.
        -- by rewrite establishes_app, He, He'.
        -- done.
        -- by rewrite Hu'.
        -- apply Forall_lookup. intros j q Hj.
           apply list_lookup_insert_Some in Hj as [(_ & <- & _) | (Hj & Hjq)]; [done|].
           by apply queued_outside, (Hq j q).
    + (* another coroutine finds the instance not connected and the lock held *)
      pose proof (queued_outside t (Hq k t Hnk Hk)) as Hu. rewrite Hu, Hl.
      cbn [negb andb]. rewrite orb_true_r.
      destruct (Hq k t Hnk Hk) as [[[Hpt Hatt] | [[r Hr] _]] | (a' & d' & Hpt)];
        unfold next in Hm; [|by rewrite Hr in Hm|by rewrite Hpt, Hl in Hm].
      rewrite Hpt, Hl in Hm. injection Hm as <-.
      destruct (attempts t) as [|a1 rest] eqn:Ha; [done|].
      rewrite Hh. rewrite Hh in Hcmd.
      assert (forall c', held = Some c' -> Ok c' ∉ establishes new) as Hfresh.
      { intros c' Hc'. rewrite He. intros Hin%list_elem_of_singleton. congruence. }
      destruct (enter_offline T h0 held HS t true new (inst cfg) a1 rest Hheld Hfresh Ha)
        as (Hheld' & Hw' & [(He' & Hr' & Hs') | [(_ & He' & d' & Hp') | (? & _)]]); [| |done].
      * eapply (OneLinking _ _ _ (new ++ emitted (enter T t true (inst cfg) (h0 ++ new))) k0 c t0);
          cbn [inst hist locked tasks].
        -- by rewrite app_assoc.
        -- by rewrite establishes_app, He, He', app_nil_r.
        -- by rewrite writes_app, Hw, Hw'.
        -- done.
        -- done.
        -- done.
        -- by rewrite list_lookup_insert_ne.
        -- exact Hp0.
        -- intros j q Hj Hjq.
           apply list_lookup_insert_Some in Hjq as [(_ & <- & _) | (Hjk & Hjq)];
             [|by apply (Hq j q)].
           left. right. split; [done|]. by rewrite Hcmd.
      * eapply (OneLinking _ _ _ (new ++ emitted (enter T t true (inst cfg) (h0 ++ new))) k0 c t0);
          cbn [inst hist locked tasks].
        -- by rewrite app_assoc.
        -- by rewrite establishes_app, He, He', app_nil_r.
        -- by rewrite writes_app, Hw, Hw'.
        -- done.
        -- done.
        -- done.
        -- by rewrite list_lookup_insert_ne.
        -- exact Hp0.
        -- intros j q Hj Hjq.
           apply list_lookup_insert_Some in Hjq as [(_ & <- & _) | (Hjk & Hjq)];
             [|by apply (Hq j q)].
           right. by exists a1, d'.
  - (* connected: every check finds the client *)
    assert (forall e, t_is_connected T (hist cfg ++ e) c = true) as Hconn.
    { intros e. rewrite Hh, <- app_assoc. apply (steady_connected T h0 held HS).
      rewrite establishes_app, He. apply elem_of_app. left. by left. }
    pose proof (proj1 (Forall_lookup _ _) Hout k t Hk) as Hu.
    rewrite Hl. cbn [andb]. rewrite orb_false_r.
    assert (establishes (emitted (m (inst cfg) (hist cfg))) = [] /\
            _client (state_after (m (inst cfg) (hist cfg))) = Some c /\
            under_lock (landing t (outcome (m (inst cfg) (hist cfg)))) = false)
      as (He' & Hc' & Hu').
    { unfold next in Hm. unfold under_lock in Hu.
      destruct (at_point t) as [|a d p|a r| |r] eqn:Hpt.
      - injection Hm as <-. by apply enter_online.
      - destruct (Interleaving.next T p (locked cfg)) as [m0|] eqn:Hn; [|done].
        cbn in Hm. injection Hm as <-.
        apply (link_online T t a d p (locked cfg)); try done.
        specialize (Hconn []). by rewrite app_nil_r in Hconn.
      - injection Hm as <-.
        destruct (written_landing t a r (inst cfg) (hist cfg)) as (? & ? & ?).
        split; [done|]. split; [congruence|done].
      - injection Hm as <-. by apply enter_online.
      - done. }
    apply (HasLink _ _ _ (new ++ emitted (m (inst cfg) (hist cfg))) c);
      cbn [inst hist locked tasks].
    + by rewrite Hh, app_assoc.
    + by rewrite establishes_app, He, He'.
    + done.
    + done.
    + by apply Forall_insert.
Qed.

Lemma run_stage T h0 held schedule cfg :
  steady T h0 held -> stage held h0 cfg -> stage held h0 (run T schedule cfg).
Proof.
  intros HT. revert cfg. induction schedule as [|k rest IH]; intros cfg Hph; [done|].
  cbn [run]. apply IH. destruct (step T k cfg) as [cfg'|] eqn:E; [|done].
  by apply (step_stage T h0 held k cfg).
Qed.

Lemma start_stage self h0 cmds : stage (_client self) h0 (start self h0 cmds).
Proof.
  apply (NoLink _ _ _ []); cbn [start inst hist locked tasks];
    [by rewrite app_nil_r|done..|].
  apply Forall_lookup. intros k t Hk. rewrite list_lookup_fmap in Hk.
  destruct (cmds !! k); [|done]. injection Hk as <-. by left.
Qed.

(** What a stage says about the calls of [establish_connection]: at
    most one was made; one was made before any write, and before the
    end of any command that sends. *)
Lemma stage_facts held h0 cfg :
  stage held h0 cfg ->
  exists new,
    hist cfg = h0 ++ new /\
    (length (establishes new) <= 1)%nat /\
    (writes new <> [] -> length (establishes new) = 1%nat) /\
    (forall k t, tasks cfg !! k = Some t -> returned t -> sends (cmd t) ->
                 length (establishes new) = 1%nat).
Proof.
  intros [new Hh He Hw Hoff Hl Hidle | new k0 c t0 a d Hh He Hw Hoff Hne Hl Hk0 Hp0 Hq
          | new c Hh He Hc Hl Hout]; exists new; rewrite He; cbn [length].
  - split; [done|]. split; [lia|]. split; [done|].
    intros k t Hk [r Hr] Hs.
    by destruct (proj1 (Forall_lookup _ _) Hidle k t Hk) as [[? _] | [_ ?]]; [congruence|].
  - split; [done|]. split; [lia|]. by split.
  - split; [done|]. split; [lia|]. by split.
Qed.

Lemma step_cmds T k cfg cfg' :
  step T k cfg = Some cfg' -> map cmd (tasks cfg') = map cmd (tasks cfg).
Proof.
  intros (t & m & Hk & Hm & ->)%step_inv. cbn [tasks].
  rewrite list_fmap_insert.
  rewrite (proj1 (next_landing T t (locked cfg) m (inst cfg) (hist cfg) Hm)).
  apply list_insert_id. by rewrite list_lookup_fmap, Hk.
Qed.

Lemma run_cmds T schedule cfg : map cmd (tasks (run T schedule cfg)) = map cmd (tasks cfg).
Proof.
  revert cfg. induction schedule as [|k rest IH]; intros cfg; [done|].
  cbn [run]. rewrite IH. destruct (step T k cfg) as [cfg'|] eqn:E; [|done].
  by apply (step_cmds T k).
Qed.

Lemma establishes_established c h : established c h = true -> Ok c ∈ establishes h.
Proof.
  intros (ev & Hev & Hf)%existsb_exists. apply list_elem_of_omap.
  exists ev. split; [by apply list_elem_of_In|].
  destruct ev as [| |[c'|]| | | | |]; try done. by apply Nat.eqb_eq in Hf as ->.
Qed.

(** A healthy transport is steady for an instance that holds no client. *)
Lemma healthy_steady T h0 : healthy T -> steady T h0 None.
Proof.
  intros [Hest Hget Hconn]. split.
  - intros h. destruct (Hest (h0 ++ h)) as [c Hc]. by exists c.
  - intros h c. apply Hget.
  - intros h c Hin. apply Hconn. rewrite establishes_app. apply elem_of_app. by right.
  - done.
Qed.

(** The light in range is steady also for an instance that holds a
    client it never handed out. *)
Lemma T_ok_steady : steady T_ok [] (Some 0%nat).
Proof.
  split; cbn.
  - intros _. by exists 1%nat.
  - done.
  - intros h c. apply established_establishes.
  - intros h c [= <-] Hn. destruct (established 0%nat h) eqn:E; [|done].
    by apply establishes_established in E.
Qed.


Lemma turn_on_sends : sends TurnOn.
Proof. intros self h. by eexists. Qed.



(** *** One command alone: the sequential semantics *)

Lemma except_exact c attempt err self h :
  except c attempt err self h
  = (if transient err && negb (attempt =? DEFAULT_ATTEMPTS - 1)
     then Ok Sleeping else Raise err, self, except_events self c attempt err).
Proof.
  unfold except, except_events, transient, backoff, giving_up, bind, get, LOGGER,
    asyncio_sleep, emit, raise, ret.
  destruct err as [[] text]; cbn [exn_class_of andb]; try done;
    by destruct (attempt =? DEFAULT_ATTEMPTS - 1).
Qed.

Lemma within_exact t attempt m self h :
  within t attempt m self h
  = match outcome (m self h) with
    | Ok pt =>
        (Ok {| cmd := cmd t; attempts := attempts t; at_point := pt |},
         state_after (m self h), emitted (m self h))
    | Raise err =>
        (if transient err && negb (attempt =? DEFAULT_ATTEMPTS - 1)
         then Ok {| cmd := cmd t; attempts := attempts t; at_point := Sleeping |}
         else Raise err,
         state_after (m self h),
         emitted (m self h) ++ except_events (state_after (m self h)) (cmd t) attempt err)
    end.
Proof.
  unfold within, bind, catch, ret.
  destruct (m self h) as [[[pt|e] s1] e1]; run_proj.
  - by rewrite app_nil_r.
  - rewrite except_exact.
    destruct (transient e && negb (attempt =? DEFAULT_ATTEMPTS - 1)); [|done].
    by rewrite app_nil_r.
Qed.

(** A block inside the [try], run by a coroutine alone. *)
Lemma within_alone t c attempt rest m self h :
  cmd t = c ->
  alone (landing t (outcome (within {| cmd := c; attempts := rest; at_point := Start |}
                               attempt m self h)))
    (state_after (within {| cmd := c; attempts := rest; at_point := Start |} attempt m self h))
    (h ++ emitted (within {| cmd := c; attempts := rest; at_point := Start |} attempt m self h))
  = attempt_end c attempt rest (m self h) h.
Proof.
  intros Hc. rewrite within_exact. unfold attempt_end. cbn [cmd attempts].
  destruct (outcome (m self h)) as [pt|err]; run_proj; [done|].
  destruct (transient err && negb (attempt =? DEFAULT_ATTEMPTS - 1)); run_proj; cbn [landing];
    by rewrite ?Hc.
Qed.

Lemma step_alone T t self h m :
  next T t (under_lock t) = Some m ->
  step T 0 (alone t self h)
  = Some (alone (landing t (outcome (m self h))) (state_after (m self h))
            (h ++ emitted (m self h))).
Proof.
  intros Hm. unfold step, alone. cbn. rewrite Hm. cbn. do 2 f_equal.
  destruct (under_lock t); cbn; by rewrite orb_false_r.
Qed.

Lemma within_as_start t attempt m :
  within t attempt m
  = within {| cmd := cmd t; attempts := attempts t; at_point := Start |} attempt m.
Proof. reflexivity. Qed.

Lemma attempt_end_ok c attempt rest (m : M point) (k : point -> M point) self h pt :
  outcome (m self h) = Ok pt ->
  attempt_end c attempt rest (bind m k self h) h
  = attempt_end c attempt rest (k pt (state_after (m self h)) (h ++ emitted (m self h)))
      (h ++ emitted (m self h)).
Proof.
  intros Ho. change (bind m k) with (x <- m ;; k x). rewrite (link_run m k self h pt Ho).
  unfold attempt_end. run_proj.
  destruct (outcome (k pt _ _)); by rewrite <- !app_assoc.
Qed.

Lemma attempt_end_raise c attempt rest (m : M point) (k : point -> M point) self h err :
  outcome (m self h) = Raise err ->
  attempt_end c attempt rest (bind m k self h) h
  = attempt_end c attempt rest (m self h) h.
Proof.
  intros Ho.
  rewrite (bind_raise m k self h err (state_after (m self h)) (emitted (m self h)))
    by (by rewrite (run_split (m self h)) at 1; rewrite Ho).
  unfold attempt_end. run_proj. by rewrite Ho.
Qed.

Lemma attempt_end_ret c attempt rest pt self h :
  attempt_end c attempt rest (ret pt self h) h
  = alone {| cmd := c; attempts := rest; at_point := pt |} self h.
Proof. unfold attempt_end, ret. run_proj. by rewrite app_nil_r. Qed.

Lemma reaches_refl T bound cfg : reaches T bound cfg cfg.
Proof. exists 0%nat. split; [lia | done]. Qed.

Lemma reaches_step T bound cfg cfg' cfg'' :
  step T 0 cfg = Some cfg' -> reaches T bound cfg' cfg'' -> reaches T (S bound) cfg cfg''.
Proof.
  intros Hs (n & Hn & Hr). exists (S n). split; [lia|]. cbn [repeat run]. by rewrite Hs.
Qed.

Lemma reaches_weaken T bound bound' cfg cfg' :
  (bound <= bound')%nat -> reaches T bound cfg cfg' -> reaches T bound' cfg cfg'.
Proof. intros Hb (n & Hn & Hr). exists n. split; [lia | done]. Qed.

Lemma lands_to_write_tag T attempt data p :
  lands_in (tagged attempt) (to_write T attempt data p).
Proof.
  destruct p; cbn [to_write]; try (by apply lands_in_ret).
  do 2 (apply lands_in_bind; intros ?). destruct a0; [|apply lands_in_raise].
  do 2 (apply lands_in_bind; intros ?). by apply lands_in_ret.
Qed.

Lemma lands_link_tag {A} T attempt data (m : M A) (f : A -> pc) :
  lands_in (tagged attempt) (x <- m ;; to_write T attempt data (f x)).
Proof. apply lands_in_bind. intros x. apply lands_to_write_tag. Qed.

Lemma lands_block_start_tag T c attempt lock_held :
  lands_in (tagged attempt) (block_start T c attempt lock_held).
Proof.
  unfold block_start. apply lands_in_bind. intros [data|]; [|by apply lands_in_ret].
  apply (lands_link_tag T attempt data (block_top T lock_held) id).
Qed.

Section CommandAlone.

Variable T : transport.
Variable c : command.
Variable attempt : Z.
Variable rest : list Z.

Lemma run_from_written pt self h :
  tagged attempt pt ->
  reaches T 1 (alone {| cmd := c; attempts := rest; at_point := pt |} self h)
    (attempt_end c attempt rest (after_write c pt self h) h).
Proof.
  intros Ht. destruct pt as [|a d p|a r| |r]; cbn [after_write];
    try (rewrite attempt_end_ret; apply reaches_refl).
  cbn in Ht. subst a.
  eapply reaches_step; [|apply reaches_refl].
  rewrite (step_alone T _ self h (within {| cmd := c; attempts := rest; at_point := Start |}
                                    attempt (block_written c r))) by done.
  by rewrite within_alone.
Qed.

(** One block of [_ensure_connected] and what follows it. *)
Lemma run_link (m : M pc) data (k : point -> M point) bound t self h :
  cmd t = c -> attempts t = rest ->
  next T t (under_lock t)
  = Some (within t attempt (p' <- m ;; to_write T attempt data p')) ->
  (forall pt s e, tagged attempt pt ->
     reaches T bound (alone {| cmd := c; attempts := rest; at_point := pt |} s e)
       (attempt_end c attempt rest (k pt s e) e)) ->
  reaches T (S bound) (alone t self h)
    (attempt_end c attempt rest
       (bind (p' <- m ;; to_write T attempt data p') k self h) h).
Proof.
  intros Hc Ha Hn Hk.
  eapply reaches_step.
  { rewrite (step_alone T _ self h _ Hn). rewrite within_as_start, Hc, Ha.
    by rewrite within_alone. }
  destruct (outcome ((p' <- m ;; to_write T attempt data p') self h)) as [pt|err] eqn:Ho.
  - rewrite (attempt_end_ok _ _ _ _ _ _ _ _ Ho).
    unfold attempt_end at 1. rewrite Ho.
    apply Hk. apply (lands_link_tag T attempt data m id self h pt Ho).
  - rewrite (attempt_end_raise _ _ _ _ _ _ _ _ Ho). apply reaches_refl.
Qed.

Lemma run_from_refreshed pt self h :
  tagged attempt pt ->
  reaches T 2 (alone {| cmd := c; attempts := rest; at_point := pt |} self h)
    (attempt_end c attempt rest (after_refresh T c pt self h) h).
Proof.
  intros Ht.
  assert (reaches T 2 (alone {| cmd := c; attempts := rest; at_point := pt |} self h)
            (attempt_end c attempt rest (after_write c pt self h) h)) as Hw.
  { eapply reaches_weaken; [|by apply run_from_written]. lia. }
  destruct pt as [|a d p|a r| |r]; try exact Hw.
  destruct p as [| |r|cl r|r]; try exact Hw.
  cbn in Ht. subst a. cbn [after_refresh].
  apply (run_link (block_refreshed T cl r) d (after_write c) 1); try done.
  intros pt s e Hpt. by apply run_from_written.
Qed.

Lemma run_from_established pt self h :
  tagged attempt pt ->
  reaches T 3 (alone {| cmd := c; attempts := rest; at_point := pt |} self h)
    (attempt_end c attempt rest (after_establish T c pt self h) h).
Proof.
  intros Ht.
  assert (reaches T 3 (alone {| cmd := c; attempts := rest; at_point := pt |} self h)
            (attempt_end c attempt rest (after_write c pt self h) h)) as Hw.
  { eapply reaches_weaken; [|by apply run_from_written]. lia. }
  destruct pt as [|a d p|a r| |r]; try exact Hw.
  destruct p as [| |r|cl r|r]; try exact Hw.
  cbn in Ht. subst a. cbn [after_establish].
  apply (run_link (block_established T r) d (after_refresh T c) 2); try done.
  intros pt s e Hpt. by apply run_from_refreshed.
Qed.

(** From the head of the loop, through the function. *)
Lemma run_attempt pt0 self h :
  pt0 = Start \/ pt0 = Sleeping ->
  reaches T 4 (alone {| cmd := c; attempts := attempt :: rest; at_point := pt0 |} self h)
    (attempt_end c attempt rest (func_through T c attempt self h) h).
Proof.
  intros Hpt0. unfold func_through.
  eapply reaches_step.
  { rewrite (step_alone T _ self h
               (within {| cmd := c; attempts := rest; at_point := Start |} attempt
                  (block_start T c attempt false)))
      by (by destruct Hpt0 as [-> | ->]).
    by rewrite within_alone. }
  destruct (outcome (block_start T c attempt false self h)) as [pt|err] eqn:Ho.
  - rewrite (attempt_end_ok _ _ _ _ _ _ _ _ Ho).
    unfold attempt_end at 1. rewrite Ho.
    apply run_from_established. apply (lands_block_start_tag T c attempt false self h pt Ho).
  - rewrite (attempt_end_raise _ _ _ _ _ _ _ _ Ho). apply reaches_refl.
Qed.

End CommandAlone.

(** The function of a command is its statements before the write,
    the write, and its statements after it. *)
Lemma body_split T c :
  meq (body T c)
    (d <- prologue c ;;
     match d with
     | Some data => _write T data ;; epilogue c
     | None => ret tt
     end).
Proof.
  destruct c; cbn [body prologue epilogue].
  - unfold turn_on_body. by rewrite bind_map.
  - unfold turn_off_body. by rewrite bind_map.
  - unfold set_rgb_color_body. rewrite bind_assoc. f_equiv. intros _.
    by rewrite bind_map.
  - unfold set_brightness_body. rewrite bind_assoc. f_equiv. intros _.
    rewrite bind_assoc. f_equiv. intros b. rewrite bind_map. f_equiv. intros packet.
    by rewrite bind_ret_unit.
  - unfold set_effect_body. destruct (EFFECT_MAP !! effect).
    + by rewrite bind_map.
    + intros self h. reflexivity.
  - unfold set_effect_speed_body. rewrite bind_assoc. f_equiv. intros b.
    rewrite bind_map. f_equiv. intros packet. by rewrite bind_ret_unit.
Qed.

Lemma bind_lands {A B} (P : A -> Prop) (m : M A) (k k' : A -> M B) :
  lands_in P m -> (forall a, P a -> meq (k a) (k' a)) -> meq (bind m k) (bind m k').
Proof.
  intros Hm Hk self h. unfold bind. specialize (Hm self h).
  destruct (m self h) as [[[a|e] s1] e1]; [|done].
  by rewrite (Hk a (Hm a eq_refl)).
Qed.

Lemma write_gatt_char_call T c char data :
  meq (write_gatt_char T c char data) (r <- call_write T c char data ;; lift r).
Proof.
  intros self h. unfold bind, call_write, write_gatt_char, lift.
  by destruct (t_write T h c char data).
Qed.

Section CommandThrough.

Variable T : transport.
Variable c : command.
Variable attempt : Z.
Variable data : list Z.

(** Once [_ensure_connected] has returned: the call of the write, its
    end, and the rest of the function. *)
Lemma to_write_tail r (k : point -> M point) :
  (forall a r', k (Writing a r') = block_written c r') ->
  meq (bind (to_write T attempt data (Finished r)) k)
    (lift r ;;
     (c0 <- get _client ;;
      match c0 with
      | Some c0 => char <- get _write_uuid ;; write_gatt_char T c0 char data
      | None => raise (Exn BleakRetryException "AttributeError")
      end) ;;
     epilogue c ;;
     ret (Returned (Ok (Some tt)))).
Proof.
  intros Hk. cbn [to_write]. rewrite bind_assoc. f_equiv. intros _.
  rewrite !bind_assoc. f_equiv. intros [c0|].
  - rewrite !bind_assoc. f_equiv. intros char.
    rewrite write_gatt_char_call, !bind_assoc. f_equiv. intros r'.
    rewrite bind_ret_l, Hk. reflexivity.
  - intros self h. reflexivity.
Qed.

Lemma after_refreshed_through p3 :
  match p3 with Finished _ => True | _ => False end ->
  meq (bind (to_write T attempt data p3) (after_write c))
    (after3 p3 ;;
     (c0 <- get _client ;;
      match c0 with
      | Some c0 => char <- get _write_uuid ;; write_gatt_char T c0 char data
      | None => raise (Exn BleakRetryException "AttributeError")
      end) ;;
     epilogue c ;;
     ret (Returned (Ok (Some tt)))).
Proof. destruct p3; try done. intros _. by apply to_write_tail. Qed.

Lemma after_established_through p2 :
  match p2 with Finished _ | InGetServices _ _ => True | _ => False end ->
  meq (bind (to_write T attempt data p2) (after_refresh T c))
    (after2 T p2 ;;
     (c0 <- get _client ;;
      match c0 with
      | Some c0 => char <- get _write_uuid ;; write_gatt_char T c0 char data
      | None => raise (Exn BleakRetryException "AttributeError")
      end) ;;
     epilogue c ;;
     ret (Returned (Ok (Some tt)))).
Proof.
  destruct p2 as [| | |cl r|r]; try done; intros _; [|by apply to_write_tail].
  cbn [to_write after2]. rewrite bind_ret_l. cbn [after_refresh].
  rewrite !bind_assoc.
  apply (bind_lands _ _ _ _ (lands_block_refreshed_at T cl r)).
  intros p3 Hp3. by apply after_refreshed_through.
Qed.

Lemma after_top_through p1 :
  match p1 with Finished _ | InEstablish _ => True | _ => False end ->
  meq (bind (to_write T attempt data p1) (after_establish T c))
    (after1 T p1 ;;
     (c0 <- get _client ;;
      match c0 with
      | Some c0 => char <- get _write_uuid ;; write_gatt_char T c0 char data
      | None => raise (Exn BleakRetryException "AttributeError")
      end) ;;
     epilogue c ;;
     ret (Returned (Ok (Some tt)))).
Proof.
  destruct p1 as [| |r| |r]; try done; intros _; [|by apply to_write_tail].
  cbn [to_write after1]. rewrite bind_ret_l. cbn [after_establish].
  rewrite !bind_assoc.
  apply (bind_lands _ _ _ _ (lands_block_established_at T r)).
  intros p2 Hp2. by apply after_established_through.
Qed.

End CommandThrough.

(** The blocks of a coroutine alone, one after the other, are the
    function of its command. *)
Lemma func_through_body T c attempt :
  meq (func_through T c attempt) (body T c ;; ret (Returned (Ok (Some tt)))).
Proof.
  rewrite body_split. unfold func_through, block_start.
  rewrite !bind_assoc. f_equiv. intros [data|].
  - unfold _write. rewrite (ensure_connected_through T). unfold through.
    rewrite !bind_assoc.
    apply (bind_lands _ _ _ _ (lands_block_top_at T)).
    intros p1 Hp1. by apply after_top_through.
  - intros self h. reflexivity.
Qed.

Lemma run_repeat_app T n m cfg :
  run T (repeat 0%nat (n + m)) cfg = run T (repeat 0%nat m) (run T (repeat 0%nat n) cfg).
Proof.
  revert cfg. induction n as [|n IH]; intros cfg; [done|].
  cbn [Nat.add repeat run]. apply IH.
Qed.

Lemma reaches_trans T b1 b2 cfg1 cfg2 cfg3 :
  reaches T b1 cfg1 cfg2 -> reaches T b2 cfg2 cfg3 -> reaches T (b1 + b2) cfg1 cfg3.
Proof.
  intros (n1 & Hn1 & H1) (n2 & Hn2 & H2). exists (n1 + n2)%nat. split; [lia|].
  by rewrite run_repeat_app, H1.
Qed.

Lemma run_returned T n c rest r self h :
  run T (repeat 0%nat n) (alone {| cmd := c; attempts := rest; at_point := Returned r |} self h)
  = alone {| cmd := c; attempts := rest; at_point := Returned r |} self h.
Proof. induction n as [|n IH]; [done|]. cbn [repeat run]. exact IH. Qed.

(** One iteration of the loop, by the outcome of the function. *)
Lemma attempt_alone T c attempt rest pt0 self h :
  pt0 = Start \/ pt0 = Sleeping ->
  reaches T 4 (alone {| cmd := c; attempts := attempt :: rest; at_point := pt0 |} self h)
    (match outcome (body T c self h) with
     | Ok _ =>
         alone {| cmd := c; attempts := rest; at_point := Returned (Ok (Some tt)) |}
           (state_after (body T c self h)) (h ++ emitted (body T c self h))
     | Raise err =>
         alone (if transient err && negb (attempt =? DEFAULT_ATTEMPTS - 1)
                then {| cmd := c; attempts := rest; at_point := Sleeping |}
                else {| cmd := c; attempts := []; at_point := Returned (Raise err) |})
           (state_after (body T c self h))
           (h ++ emitted (body T c self h)
              ++ except_events (state_after (body T c self h)) c attempt err)
     end).
Proof.
  intros Hpt0. pose proof (run_attempt T c attempt rest pt0 self h Hpt0) as H.
  rewrite (func_through_body T c attempt self h), then_ret in H.
  unfold attempt_end in H.
  by destruct (outcome (body T c self h)); run_proj.
Qed.

(** The loop of the decorator, run by a coroutine alone. *)
Lemma loop_alone T c attempts :
  forall pt0 self h,
    pt0 = Start \/ pt0 = Sleeping ->
    exists rest,
      reaches T (5 * length attempts + 1)
        (alone {| cmd := c; attempts := attempts; at_point := pt0 |} self h)
        (alone {| cmd := c; attempts := rest;
                  at_point := Returned (outcome (attempt_loop (func_name c) (body T c)
                                                   attempts self h)) |}
           (state_after (attempt_loop (func_name c) (body T c) attempts self h))
           (h ++ emitted (attempt_loop (func_name c) (body T c) attempts self h))).
Proof.
  induction attempts as [|attempt rest IH]; intros pt0 self h Hpt0.
  - exists []. eapply reaches_step; [|apply reaches_refl].
    rewrite (step_alone T _ self h
               (enter T {| cmd := c; attempts := []; at_point := pt0 |} false))
      by (by destruct Hpt0 as [-> | ->]).
    cbn. by rewrite app_nil_r.
  - pose proof (attempt_alone T c attempt rest pt0 self h Hpt0) as H.
    rewrite attempt_loop_cons.
    destruct (body T c self h) as [[[[]|err] s1] e1] eqn:E; run_proj.
    + exists rest. eapply reaches_weaken; [|exact H]. cbn [length]. lia.
    + unfold except_events in H. destruct (transient err); cbn [andb] in H.
      * destruct (attempt =? DEFAULT_ATTEMPTS - 1); cbn [negb] in H.
        -- exists []. run_proj. eapply reaches_weaken; [|exact H]. cbn [length]. lia.
        -- destruct (IH Sleeping s1 (h ++ e1 ++ backoff s1 (func_name c) attempt err)
                       (or_intror eq_refl)) as [rest' H'].
           exists rest'. cbn zeta. run_proj.
           rewrite <- !app_assoc in H'.
           eapply reaches_weaken; [|exact (reaches_trans _ _ _ _ _ _ H H')].
           cbn [length]. lia.
      * exists []. rewrite app_nil_r in H.
        eapply reaches_weaken; [|exact H]. cbn [length]. lia.
Qed.

(** The two semantics agree: a command whose coroutine runs alone, for
    sixteen steps or more, leaves the instance, the events and the
    outcome of the command as [invoke] gives them, and the lock free. *)
Lemma alone_is_invoke T c n self h :
  let cfg := run T (repeat 0%nat (16 + n)) (start self h [c]) in
  inst cfg = state_after (invoke T c self h) /\
  hist cfg = h ++ emitted (invoke T c self h) /\
  locked cfg = false /\
  map at_point (tasks cfg) = [Returned (outcome (invoke T c self h))].
Proof.
  intros cfg. subst cfg.
  destruct (loop_alone T c [0; 1; 2] Start self h (or_introl eq_refl))
    as (rest & k & Hk & Hrun).
  rewrite <- invoke_unfold in Hrun. cbn [length] in Hk.
  change (start self h [c])
    with (alone {| cmd := c; attempts := [0; 1; 2]; at_point := Start |} self h).
  replace (16 + n)%nat with (k + (16 + n - k))%nat by lia.
  rewrite run_repeat_app, Hrun, run_returned. done.
Qed.
